(** * AudioDriver: I2S block transport and sample codec of yummyDSP

    A shallow embedding of [src/AudioDriver.cpp] and the properties of its
    sample conversion ([int2Float], [float2Int]) and of its block transport
    ([setup], [enable], [readBlock], [writeBlock]).

    - C++ [float] is IEEE-754 binary32 with round-to-nearest-even, taken from
      the Standard Library's executable [SpecFloat] at precision 24 and
      maximal exponent 128; [double] is the same at 53 and 1024.
    - [int32_t] and [int] are [Z] with the 32-bit wrap-around written out.
    - The I2S driver, the GPIO functions, the allocator and the serial console
      are outside the file: their answers come from a [Platform] instance and
      every call is recorded, with its arguments, in a log. *)

From Stdlib Require Import String.
From Stdlib Require Import ZArith QArith Qabs Qpower Qround Bool List Lia Lqa.
From Stdlib Require Import SpecFloat.
Import ListNotations.
Local Open Scope Z_scope.

(** ** Machine integers *)

(** Value of a 32-bit two's-complement pattern: [int32_t], [int], [esp_err_t]. *)
Definition wrap32 (z : Z) : Z := (z + 2 ^ 31) mod 2 ^ 32 - 2 ^ 31.

(** Value of a 32-bit unsigned pattern: [size_t] and [uint] on the target. *)
Definition uwrap32 (z : Z) : Z := z mod 2 ^ 32.

Definition in_int32 (z : Z) : bool := (- 2 ^ 31 <=? z) && (z <? 2 ^ 31).

Definition add32 (a b : Z) : Z := wrap32 (a + b).
Definition mul32 (a b : Z) : Z := wrap32 (a * b).
Definition shl32 (a n : Z) : Z := wrap32 (Z.shiftl a n).
Definition umul32 (a b : Z) : Z := uwrap32 (a * b).

(** [sizeof(int32_t)] *)
Definition sizeof_int32_t : Z := 4.

(** The Arduino core's [constrain(amt, low, high)] macro,
    [((amt)<(low)?(low):((amt)>(high)?(high):(amt)))], over the type the
    usual arithmetic conversions give its three arguments; [lt] is that
    type's [<]. *)
Definition constrain {A : Type} (lt : A -> A -> bool) (amt low high : A) : A :=
  if lt amt low then low else if lt high amt then high else amt.

(** ** binary32 and binary64 *)

Definition prec : Z := 24.
Definition emax : Z := 128.

Definition float := spec_float.

Definition fmul : float -> float -> float := SFmul prec emax.
Definition fadd : float -> float -> float := SFadd prec emax.
Definition fsub : float -> float -> float := SFsub prec emax.
Definition fneg : float -> float := SFopp.
Definition flt : float -> float -> bool := SFltb.

(** [x] is a binary32 datum: a NaN, an infinity, a zero, or a finite number
    whose mantissa and exponent are the canonical ones of the format. *)
Definition is_float (x : float) : bool := valid_binary prec emax x.

(** Conversion of an [int32_t] to [float]: rounds to nearest, ties to even. *)
Definition float_of_int (n : Z) : float := binary_normalize prec emax n 0 false.

(** Promotion of a [float] to [double]; every binary32 number is a binary64
    number, only the mantissa is re-aligned. *)
Definition double_of_float (x : float) : spec_float :=
  match x with
  | S754_finite s m e => binary_round 53 1024 s m e
  | _ => x
  end.

(** The [double] literal [0.5]. *)
Definition double_0_5 : spec_float := binary_normalize 53 1024 1 (-1) false.

(** A finite float with its fraction discarded (rounding toward zero). *)
Definition Ztrunc (x : float) : option Z :=
  match x with
  | S754_zero _ => Some 0
  | S754_finite s m e => Some (cond_Zopp s (Z.shiftl (Zpos m) e))
  | S754_infinity _ | S754_nan => None
  end.

(** Conversion of a [float] to [int32_t]. C++ defines it only when the
    truncated value is representable in the destination type; [None] stands
    for the cases it leaves undefined (NaN, infinities, magnitude 2^31 or
    more). *)
Definition int_of_float (x : float) : option Z :=
  match Ztrunc x with
  | Some t => if in_int32 t then Some t else None
  | None => None
  end.

(** The rational number a finite float denotes (0 for NaN and the
    infinities, which denote none). *)
Definition SF2Q (x : float) : Q :=
  match x with
  | S754_finite s m e => (inject_Z (cond_Zopp s (Zpos m)) * 2 ^ e)%Q
  | _ => 0%Q
  end.

Definition is_finite (x : float) : bool :=
  match x with
  | S754_zero _ | S754_finite _ _ _ => true
  | _ => false
  end.

(** ** Sample codec (AudioDriver.cpp, lines 44-57) *)

(** [const float AudioDriver::ScaleFloat2Int = 8388608.f;  // 2^23] *)
Definition ScaleFloat2Int : float := S754_finite false 8388608 0.

(** [const float AudioDriver::ScaleInt2Float =
      0.0000000004656612873077392578125f;  // 1 / 2^31];
    the literal is 2^-31 exactly, which binary32 holds as 2^23 * 2^-54. *)
Definition ScaleInt2Float : float := S754_finite false 8388608 (-54).

(** [float int2Float(int32_t sample)]: the integer is converted to [float]
    first, then multiplied. *)
Definition int2Float (sample : Z) : float :=
  fmul (float_of_int sample) ScaleInt2Float.

(** [int32_t float2Int(float sample)].
    - line 53: a binary32 product;
    - line 54: the cast binds to the comparison, [(int32_t)(sample >= 0.5)],
      which compares in [double]; the selected [float], [sample+1] (a binary32
      sum) or [sample], is converted to [int32_t] by the initialisation;
    - line 55: both bounds are [float], so [constrain] compares and selects in
      [float] and the assignment converts back;
    - line 56: a 32-bit left shift. *)
Definition float2Int (sample : float) : option Z :=
  let sample := fmul sample ScaleFloat2Int in
  match int_of_float (if SFleb double_0_5 (double_of_float sample)
                      then fadd sample (float_of_int 1)
                      else sample) with
  | None => None
  | Some y =>
      match int_of_float (constrain flt (float_of_int y)
                            (fneg ScaleFloat2Int)
                            (fsub ScaleFloat2Int (float_of_int 1))) with
      | None => None
      | Some y => Some (shl32 y 8)
      end
  end.

(** The algorithm of the specification with its two arithmetic steps taken
    in the host's binary32 arithmetic, as the code takes them: scale by 2^23
    (a binary32 product); if the scaled value is at least 0.5 add 1 (a
    binary32 sum, rounded to nearest, ties to even) before truncating toward
    zero, otherwise truncate toward zero; clamp the integer into
    [-2^23, 2^23 - 1]; shift left by 8 bits. *)
Definition toWire_scaled (x : float) : float := fmul x ScaleFloat2Int.

Definition toWire_rounded (x : float) : float :=
  let scaled := toWire_scaled x in
  if Qle_bool (1 # 2) (SF2Q scaled) then fadd scaled (float_of_int 1) else scaled.

Definition clamp24 (t : Z) : Z := Z.max (- 2 ^ 23) (Z.min (2 ^ 23 - 1) t).

Definition toWire_spec (x : float) : option Z :=
  match Ztrunc (toWire_rounded x) with
  | Some t => Some (Z.shiftl (clamp24 t) 8)
  | None => None
  end.

(** Truncation toward zero of a rational number. *)
Definition Qtrunc (q : Q) : Z := if Qle_bool 0 q then Qfloor q else Qceiling q.

(** The conversion to the wire format exactly as the specification words it,
    on the number [q] a sample denotes and in exact arithmetic: scale by
    2^23; if the scaled value is at least 0.5 add 1 before truncating toward
    zero, otherwise truncate toward zero; clamp the integer into
    [-2^23, 2^23 - 1]; shift left by 8 bits. *)
Definition toWire_exact (q : Q) : Z :=
  let scaled := (q * 2 ^ 23)%Q in
  let rounded := if Qle_bool (1 # 2) scaled then (scaled + 1)%Q else scaled in
  Z.shiftl (clamp24 (Qtrunc rounded)) 8.

(** ** Notions used to state and prove the codec's properties *)

(** A wire-format sample: a 32-bit word whose low 8 bits are zero. *)
Definition wire_sample (w : Z) : Prop :=
  - 2 ^ 31 <= w < 2 ^ 31 /\ w mod 2 ^ 8 = 0.

(** The largest float below 0.5: [0.5 - 2^-25]. *)
Definition below_half : float := S754_finite false 16777215 (- 25).

(** The integer the exact algorithm clamps, for a scaled value
    [(-1)^s * mm * 2^ee] with a 24-bit [mm]. *)
Definition exact_integer (s : bool) (mm : positive) (ee : Z) : Z :=
  if negb s && (- 24 <=? ee) then Z.shiftl (Zpos mm) ee + 1
  else cond_Zopp s (Z.shiftl (Zpos mm) ee).

(** 256.0 *)
Definition two_to_the_8 : float := S754_finite false 8388608 (- 15).

(** The record [k] one-bit shifts leave of a mantissa [m] that started exact:
    the quotient, the last bit shifted out, and whether any earlier one was
    set. *)
Definition shifted (m k : Z) : shr_record :=
  {| shr_m := m / 2 ^ k;
     shr_r := if k =? 0 then false else Z.odd (m / 2 ^ (k - 1));
     shr_s := if k =? 0 then false else negb (m mod 2 ^ (k - 1) =? 0) |}.

(** [m / 2^n] rounded to the nearest integer, to the even one at a tie. *)
Definition round_half_even (m n : Z) : Z :=
  let q := m / 2 ^ n in
  let r := m mod 2 ^ n in
  let h := 2 ^ (n - 1) in
  if r <? h then q else if h <? r then q + 1
  else if Z.even q then q else q + 1.

(** What [fmul x ScaleFloat2Int] can be, for a binary32 datum [x]. *)
Inductive scaled_shape : float -> Prop :=
| scaled_nan : scaled_shape S754_nan
| scaled_infinity s : scaled_shape (S754_infinity s)
| scaled_zero s : scaled_shape (S754_zero s)
| scaled_normal s mm ee :
    Zpos (digits2_pos mm) = 24 -> - 149 <= ee <= 104 ->
    scaled_shape (S754_finite s mm ee).

(** ** The transport driver and the board, as AudioDriver.cpp uses them *)

(** Enumerators and flags of the ESP-IDF headers; their numeric values play
    no role, so a bitwise-or of flags is kept as the list of its flags. *)
Inductive i2s_mode_t := I2S_MODE_MASTER | I2S_MODE_RX | I2S_MODE_TX.
Inductive i2s_bits_per_sample_t := I2S_BITS_PER_SAMPLE_24BIT.
Inductive i2s_channel_fmt_t := I2S_CHANNEL_FMT_RIGHT_LEFT.
Inductive i2s_comm_format_t := I2S_COMM_FORMAT_I2S | I2S_COMM_FORMAT_I2S_MSB.
Inductive intr_flag_t := ESP_INTR_FLAG_LEVEL1.
Inductive pin_mode_t := OUTPUT.

Record i2s_config_t := {
  mode : list i2s_mode_t;
  sample_rate : Z;
  bits_per_sample : i2s_bits_per_sample_t;
  channel_format : i2s_channel_fmt_t;
  communication_format : list i2s_comm_format_t;
  intr_alloc_flags : intr_flag_t;
  dma_buf_count : Z;
  dma_buf_len : Z;
  use_apll : bool;
  tx_desc_auto_clear : bool;
  fixed_mclk : Z
}.

Record i2s_pin_config_t := {
  bck_io_num : Z;
  ws_io_num : Z;
  data_out_num : Z;
  data_in_num : Z
}.

(** A buffer address: [None] is the null pointer, [Some b] the start of the
    [b]-th allocated block. *)
Definition pointer := option nat.

(** Every call that leaves AudioDriver.cpp, with the arguments it passes. *)
Inductive event :=
| pinMode (pin : Z) (m : pin_mode_t)
| digitalWrite (pin : Z) (level : bool)
| driver_install (port : Z) (cfg : i2s_config_t)
| set_pin (port : Z) (pins : i2s_pin_config_t)
| set_sample_rates (port : Z) (rate : Z)
| zero_dma_buffer (port : Z)
| PIN_FUNC_SELECT_GPIO0_CLK_OUT1
| SET_PERI_REG_BITS_PIN_CTRL_CLK_OUT1
| delay (ms : Z)
| calloc_call (nmemb size : Z)
| read_call (port : Z) (dest : pointer) (size : Z) (ticks_to_wait : Z)
| write_call (port : Z) (src : pointer) (size : Z) (ticks_to_wait : Z)
| Serial_print (s : string)
| Serial_println (n : Z).

(** What lies outside the file. [P] is the state of the platform (driver,
    DMA, clocks, free memory); each driver function answers with its status
    code and moves that state.
    - [i2s_read] also answers the value it leaves in [*bytes_read] and the
      words it stored at the start of [dest];
    - [i2s_write] is given the words it may read from [src] and answers the
      value it leaves in [*bytes_written];
    - [calloc_succeeds] tells whether the allocator, with the given blocks
      already handed out, has room for a request;
    - [BufferSize] is [AudioDriver::BufferSize] of AudioDriver.h, [I2S_NUM_0]
      and [I2S_NUM_MAX] are the enumerators of [i2s_port_t]. *)
Class Platform (P : Type) := {
  BufferSize : Z;
  I2S_NUM_0 : Z;
  I2S_NUM_MAX : Z;
  i2s_driver_install : Z -> i2s_config_t -> P -> Z * P;
  i2s_set_pin : Z -> i2s_pin_config_t -> P -> Z * P;
  i2s_set_sample_rates : Z -> Z -> P -> Z * P;
  i2s_zero_dma_buffer : Z -> P -> Z * P;
  i2s_read : Z -> Z -> Z -> Z -> P -> (Z * Z * list Z) * P;
  i2s_write : Z -> list Z -> Z -> Z -> Z -> P -> (Z * Z) * P;
  calloc_succeeds : Z -> Z -> list (list Z) -> P -> bool
}.

(** The data members of [class AudioDriver]. *)
Record AudioDriver := {
  fs : Z;
  channelCount : Z;
  i2sPort : Z;
  enablePin : Z;
  i2sBufferSize : Z;
  i2sReadBuffer : pointer;
  i2sWriteBuffer : pointer
}.

(** The program state: the object, the platform, the allocated blocks (each
    an array of 32-bit words), the two function-local statics of [setup]
    ([None] until the first pass through their declaration), and the log. *)
Record World (P : Type) := {
  this : AudioDriver;
  platform : P;
  heap : list (list Z);
  static_i2s_config : option i2s_config_t;
  static_pin_config : option i2s_pin_config_t;
  log : list event
}.
Arguments this {P} _.
Arguments platform {P} _.
Arguments heap {P} _.
Arguments static_i2s_config {P} _.
Arguments static_pin_config {P} _.
Arguments log {P} _.

(** A block with its first [n] words replaced by those of [data] that fit. *)
Definition overwrite (n : nat) (data old : list Z) : list Z :=
  let k := Nat.min n (Nat.min (length data) (length old)) in
  firstn k data ++ skipn k old.

Fixpoint set_block (b : nat) (blk : list Z) (h : list (list Z)) {struct h}
  : list (list Z) :=
  match h, b with
  | [], _ => []
  | _ :: h', O => blk :: h'
  | x :: h', S b' => x :: set_block b' blk h'
  end.

(** Number of 32-bit words a transfer of [size] bytes may touch. *)
Definition words_of_bytes (size : Z) : nat := Z.to_nat ((size + 3) / 4).

(** The block a transfer of [size] bytes at [p] works on; none when [p] is
    null or dangling or the block is shorter than the transfer (and the
    transfer is not empty). *)
Definition block_for {P} (w : World P) (p : pointer) (size : Z) : option (list Z) :=
  match p with
  | Some b =>
      match nth_error (heap w) b with
      | Some blk => if (words_of_bytes size <=? length blk)%nat then Some blk else None
      | None => None
      end
  | None => if size =? 0 then Some [] else None
  end.

Section Driver.
Context {P : Type} `{Platform P}.

(** State and failure: a computation either yields a value and the next
    state, or has no defined behaviour ([None]). *)
Definition M (A : Type) : Type := World P -> option (A * World P).

Definition ret {A} (a : A) : M A := fun w => Some (a, w).

Definition bind {A B} (c : M A) (k : A -> M B) : M B :=
  fun w => match c w with
           | Some (a, w') => k a w'
           | None => None
           end.

Notation "x <- c ;; k" := (bind c (fun x => k))
  (at level 61, c at next level, right associativity).
Notation "c ;;; k" := (bind c (fun _ => k))
  (at level 61, right associativity).

Definition get_this : M AudioDriver := fun w => Some (this w, w).

Definition modify_this (f : AudioDriver -> AudioDriver) : M unit :=
  fun w => Some (tt, {| this := f (this w); platform := platform w;
                        heap := heap w;
                        static_i2s_config := static_i2s_config w;
                        static_pin_config := static_pin_config w;
                        log := log w |}).

(** A call that only acts on the outside world. *)
Definition emit (e : event) : M unit :=
  fun w => Some (tt, {| this := this w; platform := platform w;
                        heap := heap w;
                        static_i2s_config := static_i2s_config w;
                        static_pin_config := static_pin_config w;
                        log := log w ++ [e] |}).

(** A driver call: logged, answered by the platform. *)
Definition call {A} (e : event) (f : P -> A * P) : M A :=
  fun w => let (a, p') := f (platform w) in
           Some (a, {| this := this w; platform := p';
                       heap := heap w;
                       static_i2s_config := static_i2s_config w;
                       static_pin_config := static_pin_config w;
                       log := log w ++ [e] |}).

(** [static const i2s_config_t i2s_config = init;] initialised on the first
    pass through the declaration, kept on every later one. *)
Definition static_const_i2s_config (init : i2s_config_t) : M i2s_config_t :=
  fun w => match static_i2s_config w with
           | Some c => Some (c, w)
           | None => Some (init, {| this := this w; platform := platform w;
                                    heap := heap w;
                                    static_i2s_config := Some init;
                                    static_pin_config := static_pin_config w;
                                    log := log w |})
           end.

Definition static_const_pin_config (init : i2s_pin_config_t) : M i2s_pin_config_t :=
  fun w => match static_pin_config w with
           | Some c => Some (c, w)
           | None => Some (init, {| this := this w; platform := platform w;
                                    heap := heap w;
                                    static_i2s_config := static_i2s_config w;
                                    static_pin_config := Some init;
                                    log := log w |})
           end.

(** [calloc(nmemb, size)]: both arguments arrive as [size_t]; the null
    pointer when the product does not fit [size_t] or the allocator has no
    room, a fresh block of zero words otherwise. *)
Definition calloc (nmemb size : Z) : M pointer :=
  fun w =>
    let n := uwrap32 nmemb in
    let s := uwrap32 size in
    let w1 := {| this := this w; platform := platform w; heap := heap w;
                 static_i2s_config := static_i2s_config w;
                 static_pin_config := static_pin_config w;
                 log := log w ++ [calloc_call n s] |} in
    if (n * s <? 2 ^ 32) && calloc_succeeds n s (heap w) (platform w) then
      Some (Some (length (heap w)),
            {| this := this w; platform := platform w;
               heap := heap w ++ [repeat 0 (words_of_bytes (n * s))];
               static_i2s_config := static_i2s_config w;
               static_pin_config := static_pin_config w;
               log := log w1 |})
    else Some (None, w1).

(** [i2s_read(port, dest, size, &bytes_read, ticks)]; [bytes_read] holds
    [bytes_read0] on entry. *)
Definition read_into (port : Z) (dest : pointer) (size bytes_read0 ticks : Z)
  : M (Z * Z) :=
  fun w =>
    match block_for w dest size with
    | None => None
    | Some old =>
        let '(err, bytes_read, data, p') :=
          i2s_read port size bytes_read0 ticks (platform w) in
        let h' := match dest with
                  | Some b => set_block b (overwrite (words_of_bytes size) data old) (heap w)
                  | None => heap w
                  end in
        Some ((err, bytes_read),
              {| this := this w; platform := p'; heap := h';
                 static_i2s_config := static_i2s_config w;
                 static_pin_config := static_pin_config w;
                 log := log w ++ [read_call port dest size ticks] |})
    end.

(** [i2s_write(port, src, size, &bytes_written, ticks)]. *)
Definition write_from (port : Z) (src : pointer) (size bytes_written0 ticks : Z)
  : M (Z * Z) :=
  fun w =>
    match block_for w src size with
    | None => None
    | Some blk =>
        let '(err, bytes_written, p') :=
          i2s_write port (firstn (words_of_bytes size) blk) size bytes_written0 ticks
            (platform w) in
        Some ((err, bytes_written),
              {| this := this w; platform := p'; heap := heap w;
                 static_i2s_config := static_i2s_config w;
                 static_pin_config := static_pin_config w;
                 log := log w ++ [write_call port src size ticks] |})
    end.

Definition LOW : bool := false.

(** The initialiser of [static const i2s_config_t i2s_config] (lines 73-85). *)
Definition i2s_config_init (fs' mclk_rate : Z) : i2s_config_t :=
  {| mode := [I2S_MODE_MASTER; I2S_MODE_RX; I2S_MODE_TX];
     sample_rate := fs';
     bits_per_sample := I2S_BITS_PER_SAMPLE_24BIT;
     channel_format := I2S_CHANNEL_FMT_RIGHT_LEFT;
     communication_format := [I2S_COMM_FORMAT_I2S; I2S_COMM_FORMAT_I2S_MSB];
     intr_alloc_flags := ESP_INTR_FLAG_LEVEL1;
     dma_buf_count := 2;
     dma_buf_len := BufferSize;
     use_apll := true;
     tx_desc_auto_clear := true;
     fixed_mclk := mclk_rate |}.

(** The initialiser of [static const i2s_pin_config_t pin_config]
    (lines 87-92). *)
Definition pin_config_init (bitClkPin lrClkPin dataOutPin dataInPin : Z)
  : i2s_pin_config_t :=
  {| bck_io_num := bitClkPin;
     ws_io_num := lrClkPin;
     data_out_num := dataOutPin;
     data_in_num := dataInPin |}.

(** [int AudioDriver::setup(int fs, int channelCount, int bitClkPin,
    int lrClkPin, int dataOutPin, int dataInPin, int enablePin,
    i2s_port_t i2s_port)] *)
Definition setup (fs' channelCount' bitClkPin lrClkPin dataOutPin dataInPin
                  enablePin' i2s_port : Z) : M Z :=
  modify_this (fun t => {| fs := fs'; channelCount := channelCount t;
      i2sPort := i2sPort t; enablePin := enablePin t;
      i2sBufferSize := i2sBufferSize t;
      i2sReadBuffer := i2sReadBuffer t; i2sWriteBuffer := i2sWriteBuffer t |}) ;;;
  modify_this (fun t => {| fs := fs t; channelCount := channelCount';
      i2sPort := i2sPort t; enablePin := enablePin t;
      i2sBufferSize := i2sBufferSize t;
      i2sReadBuffer := i2sReadBuffer t; i2sWriteBuffer := i2sWriteBuffer t |}) ;;;
  modify_this (fun t => {| fs := fs t; channelCount := channelCount t;
      i2sPort := constrain Z.ltb i2s_port I2S_NUM_0 I2S_NUM_MAX;
      enablePin := enablePin t;
      i2sBufferSize := i2sBufferSize t;
      i2sReadBuffer := i2sReadBuffer t; i2sWriteBuffer := i2sWriteBuffer t |}) ;;;
  (* power down (not) pin *)
  modify_this (fun t => {| fs := fs t; channelCount := channelCount t;
      i2sPort := i2sPort t; enablePin := enablePin';
      i2sBufferSize := i2sBufferSize t;
      i2sReadBuffer := i2sReadBuffer t; i2sWriteBuffer := i2sWriteBuffer t |}) ;;;
  emit (pinMode enablePin' OUTPUT) ;;;
  emit (digitalWrite enablePin' LOW) ;;;
  let mclk_rate := mul32 fs' 384 in
  i2s_config <- static_const_i2s_config (i2s_config_init fs' mclk_rate) ;;
  pin_config <- static_const_pin_config
                  (pin_config_init bitClkPin lrClkPin dataOutPin dataInPin) ;;
  t <- get_this ;;
  err <- call (driver_install (i2sPort t) i2s_config)
              (i2s_driver_install (i2sPort t) i2s_config) ;;
  e2 <- call (set_pin (i2sPort t) pin_config)
             (i2s_set_pin (i2sPort t) pin_config) ;;
  let err := add32 err e2 in
  e3 <- call (set_sample_rates (i2sPort t) fs')
             (i2s_set_sample_rates (i2sPort t) fs') ;;
  let err := add32 err e3 in
  e4 <- call (zero_dma_buffer (i2sPort t))
             (i2s_zero_dma_buffer (i2sPort t)) ;;
  let err := add32 err e4 in
  (* enable I2S master clock on GPIO0 for master mode *)
  emit PIN_FUNC_SELECT_GPIO0_CLK_OUT1 ;;;
  emit SET_PERI_REG_BITS_PIN_CTRL_CLK_OUT1 ;;;
  (* wait for stable clock *)
  emit (delay 500) ;;;
  (* I2S buffers *)
  modify_this (fun t => {| fs := fs t; channelCount := channelCount t;
      i2sPort := i2sPort t; enablePin := enablePin t;
      i2sBufferSize := mul32 channelCount' BufferSize;
      i2sReadBuffer := i2sReadBuffer t; i2sWriteBuffer := i2sWriteBuffer t |}) ;;;
  t <- get_this ;;
  rb <- calloc (i2sBufferSize t) sizeof_int32_t ;;
  modify_this (fun t => {| fs := fs t; channelCount := channelCount t;
      i2sPort := i2sPort t; enablePin := enablePin t;
      i2sBufferSize := i2sBufferSize t;
      i2sReadBuffer := rb; i2sWriteBuffer := i2sWriteBuffer t |}) ;;;
  t <- get_this ;;
  wb <- calloc (i2sBufferSize t) sizeof_int32_t ;;
  modify_this (fun t => {| fs := fs t; channelCount := channelCount t;
      i2sPort := i2sPort t; enablePin := enablePin t;
      i2sBufferSize := i2sBufferSize t;
      i2sReadBuffer := i2sReadBuffer t; i2sWriteBuffer := wb |}) ;;;
  ret err.

(** [bool AudioDriver::enable(bool powerOn)] *)
Definition enable (powerOn : bool) : M bool :=
  t <- get_this ;;
  emit (digitalWrite (enablePin t) powerOn) ;;;
  ret true.

(** [int AudioDriver::readBlock()] *)
Definition readBlock : M Z :=
  let bytesRead := 0 in
  t <- get_this ;;
  r <- read_into (i2sPort t) (i2sReadBuffer t)
         (umul32 (i2sBufferSize t) sizeof_int32_t) bytesRead 500 ;;
  let err := fst r in
  let bytesRead := snd r in
  (if negb (err =? 0)
      || (bytesRead <? umul32 (i2sBufferSize t) sizeof_int32_t)
   then emit (Serial_print "I2S read error: "%string) ;;;
        emit (Serial_println bytesRead)
   else ret tt) ;;;
  ret err.

(** [int AudioDriver::writeBlock()] *)
Definition writeBlock : M Z :=
  let bytesWritten := 0 in
  t <- get_this ;;
  r <- write_from (i2sPort t) (i2sWriteBuffer t)
         (umul32 (mul32 (channelCount t) BufferSize) sizeof_int32_t)
         bytesWritten 500 ;;
  let err := fst r in
  let bytesWritten := snd r in
  (if bytesWritten <? 1
   then emit (Serial_print "I2S write error: "%string) ;;;
        emit (Serial_println bytesWritten)
   else ret tt) ;;;
  ret err.

(** *** One run of [setup], step by step *)

(** The arguments of a [setup] call. *)
Record setup_args := {
  arg_fs : Z;
  arg_channelCount : Z;
  arg_bitClkPin : Z;
  arg_lrClkPin : Z;
  arg_dataOutPin : Z;
  arg_dataInPin : Z;
  arg_enablePin : Z;
  arg_i2s_port : Z
}.

Definition setup_with (a : setup_args) : M Z :=
  setup (arg_fs a) (arg_channelCount a) (arg_bitClkPin a) (arg_lrClkPin a)
        (arg_dataOutPin a) (arg_dataInPin a) (arg_enablePin a) (arg_i2s_port a).

(** The selector [setup] stores. *)
Definition selector (a : setup_args) : Z :=
  constrain Z.ltb (arg_i2s_port a) I2S_NUM_0 I2S_NUM_MAX.

(** The configuration and the pin assignment that a [setup] run started in
    [w] hands to the driver: the statics if they are initialised, this
    run's initialisers otherwise. *)
Definition config_in_force (a : setup_args) (w : World P) : i2s_config_t :=
  match static_i2s_config w with
  | Some c => c
  | None => i2s_config_init (arg_fs a) (mul32 (arg_fs a) 384)
  end.

Definition pins_in_force (a : setup_args) (w : World P) : i2s_pin_config_t :=
  match static_pin_config w with
  | Some c => c
  | None => pin_config_init (arg_bitClkPin a) (arg_lrClkPin a)
                            (arg_dataOutPin a) (arg_dataInPin a)
  end.

(** The answers (status, next platform state) of the four driver calls of
    a [setup] run started in [w], in program order. *)
Definition install_step (a : setup_args) (w : World P) : Z * P :=
  i2s_driver_install (selector a) (config_in_force a w) (platform w).

Definition pin_bind_step (a : setup_args) (w : World P) : Z * P :=
  i2s_set_pin (selector a) (pins_in_force a w) (snd (install_step a w)).

Definition rate_set_step (a : setup_args) (w : World P) : Z * P :=
  i2s_set_sample_rates (selector a) (arg_fs a) (snd (pin_bind_step a w)).

Definition dma_zero_step (a : setup_args) (w : World P) : Z * P :=
  i2s_zero_dma_buffer (selector a) (snd (rate_set_step a w)).

(** The calls a [setup] run started in [w] makes, in program order. *)
Definition setup_calls (a : setup_args) (w : World P) : list event :=
  let n := uwrap32 (mul32 (arg_channelCount a) BufferSize) in
  [pinMode (arg_enablePin a) OUTPUT; digitalWrite (arg_enablePin a) LOW;
   driver_install (selector a) (config_in_force a w);
   set_pin (selector a) (pins_in_force a w);
   set_sample_rates (selector a) (arg_fs a);
   zero_dma_buffer (selector a);
   PIN_FUNC_SELECT_GPIO0_CLK_OUT1;
   SET_PERI_REG_BITS_PIN_CTRL_CLK_OUT1;
   delay 500;
   calloc_call n (uwrap32 sizeof_int32_t);
   calloc_call n (uwrap32 sizeof_int32_t)].

(** [setup] written out: the status it returns and the state it leaves. *)
Definition setup_outcome (a : setup_args) (w : World P) : Z * World P :=
  let p4 := snd (dma_zero_step a w) in
  let n := uwrap32 (mul32 (arg_channelCount a) BufferSize) in
  let s := uwrap32 sizeof_int32_t in
  let blk := repeat 0 (words_of_bytes (n * s)) in
  let ok1 := (n * s <? 2 ^ 32) && calloc_succeeds n s (heap w) p4 in
  let h1 := if ok1 then heap w ++ [blk] else heap w in
  let ok2 := (n * s <? 2 ^ 32) && calloc_succeeds n s h1 p4 in
  let h2 := if ok2 then h1 ++ [blk] else h1 in
  (add32 (add32 (add32 (fst (install_step a w)) (fst (pin_bind_step a w)))
                (fst (rate_set_step a w)))
         (fst (dma_zero_step a w)),
   {| this := {| fs := arg_fs a; channelCount := arg_channelCount a;
                 i2sPort := selector a;
                 enablePin := arg_enablePin a;
                 i2sBufferSize := mul32 (arg_channelCount a) BufferSize;
                 i2sReadBuffer := if ok1 then Some (length (heap w)) else None;
                 i2sWriteBuffer := if ok2 then Some (length h1) else None |};
      platform := p4;
      heap := h2;
      static_i2s_config := Some (config_in_force a w);
      static_pin_config := Some (pins_in_force a w);
      log := log w ++ setup_calls a w |}).

(** *** The caller's side *)

(** One call of a member function. *)
Inductive request :=
| call_setup (a : setup_args)
| call_enable (powerOn : bool)
| call_readBlock
| call_writeBlock.

Definition perform (r : request) : M unit :=
  match r with
  | call_setup a => setup_with a ;;; ret tt
  | call_enable b => enable b ;;; ret tt
  | call_readBlock => readBlock ;;; ret tt
  | call_writeBlock => writeBlock ;;; ret tt
  end.

Fixpoint perform_all (rs : list request) : M unit :=
  match rs with
  | [] => ret tt
  | r :: rs' => perform r ;;; perform_all rs'
  end.

Definition is_setup (r : request) : bool :=
  match r with call_setup _ => true | _ => false end.



(** The block a buffer pointer designates. *)
Definition buffer_at (w : World P) (p : pointer) : option (list Z) :=
  match p with
  | Some b => nth_error (heap w) b
  | None => None
  end.

(** The Configured state: the block length is the stored channel count
    times [BufferSize], its size in bytes fits [size_t], and the two buffer
    pointers designate two different live blocks of that length. *)
Definition Configured (w : World P) : Prop :=
  let t := this w in
  0 <= channelCount t * BufferSize < 2 ^ 30 /\
  i2sBufferSize t = channelCount t * BufferSize /\
  i2sReadBuffer t <> i2sWriteBuffer t /\
  (exists rd, buffer_at w (i2sReadBuffer t) = Some rd /\
              Z.of_nat (length rd) = channelCount t * BufferSize) /\
  (exists wr, buffer_at w (i2sWriteBuffer t) = Some wr /\
              Z.of_nat (length wr) = channelCount t * BufferSize).

End Driver.

(** ** A scripted platform

    A driver double whose calls answer fixed values: the four status codes of
    the set-up calls, the status and byte count of a read (which stores the
    word [read_word] everywhere it writes) and of a write, and whether
    allocation succeeds. The block length is 64 frames and the ports are
    numbered from 0, [I2S_NUM_MAX] being 2. *)
Record script := {
  install_status : Z;
  set_pin_status : Z;
  set_rate_status : Z;
  zero_dma_status : Z;
  read_status : Z;
  read_count : Z;
  read_word : Z;
  write_status : Z;
  write_count : Z;
  memory_left : bool
}.

Definition scripted (s : script) : Platform unit :=
  {| BufferSize := 64;
     I2S_NUM_0 := 0;
     I2S_NUM_MAX := 2;
     i2s_driver_install := fun _ _ p => (install_status s, p);
     i2s_set_pin := fun _ _ p => (set_pin_status s, p);
     i2s_set_sample_rates := fun _ _ p => (set_rate_status s, p);
     i2s_zero_dma_buffer := fun _ p => (zero_dma_status s, p);
     i2s_read := fun _ _ _ _ p =>
       (read_status s, read_count s,
        repeat (read_word s) (Z.to_nat ((read_count s + 3) / 4)), p);
     i2s_write := fun _ _ _ _ _ p => (write_status s, write_count s, p);
     calloc_succeeds := fun _ _ _ _ => memory_left s |}.

(** Every call succeeds and transfers in full. *)
Definition all_well (size : Z) : script :=
  {| install_status := 0; set_pin_status := 0; set_rate_status := 0;
     zero_dma_status := 0; read_status := 0; read_count := size;
     read_word := 256; write_status := 0; write_count := size;
     memory_left := true |}.

(** The pin bind is refused (0x102) and the DMA buffer cannot be zeroed (-1). *)
Definition two_failures : script :=
  {| install_status := 0; set_pin_status := 258; set_rate_status := 0;
     zero_dma_status := -1; read_status := 0; read_count := 512;
     read_word := 256; write_status := 0; write_count := 512;
     memory_left := true |}.

(** Half a block arrives, with a zero status. *)
Definition short_read : script :=
  {| install_status := 0; set_pin_status := 0; set_rate_status := 0;
     zero_dma_status := 0; read_status := 0; read_count := 256;
     read_word := 256; write_status := 0; write_count := 512;
     memory_left := true |}.

(** Nothing is accepted, and the driver reports a time-out (0x107). *)
Definition nothing_written : script :=
  {| install_status := 0; set_pin_status := 0; set_rate_status := 0;
     zero_dma_status := 0; read_status := 0; read_count := 512;
     read_word := 256; write_status := 263; write_count := 0;
     memory_left := true |}.

(** The state before anything ran: members not yet assigned (any value would
    do), no block allocated, statics not yet initialised, empty log. *)
Definition power_on : World unit :=
  {| this := {| fs := 0; channelCount := 0; i2sPort := 0; enablePin := 0;
                i2sBufferSize := 0; i2sReadBuffer := None;
                i2sWriteBuffer := None |};
     platform := tt;
     heap := [];
     static_i2s_config := None;
     static_pin_config := None;
     log := [] |}.

(** The end-to-end scenario: 48 kHz, two channels, 64 frames per block, on a
    platform where every call succeeds. *)
Definition stereo_48k (port : Z) : setup_args :=
  {| arg_fs := 48000; arg_channelCount := 2;
     arg_bitClkPin := 26; arg_lrClkPin := 25;
     arg_dataOutPin := 22; arg_dataInPin := 35;
     arg_enablePin := 5; arg_i2s_port := port |}.

Definition stereo_48k_configured : World unit :=
  snd (@setup_outcome unit (scripted (all_well 512)) (stereo_48k 0) power_on).

(** A second configuration, differing from the first in every argument. *)
Definition mono_44k1 : setup_args :=
  {| arg_fs := 44100; arg_channelCount := 1;
     arg_bitClkPin := 14; arg_lrClkPin := 15;
     arg_dataOutPin := 16; arg_dataInPin := 17;
     arg_enablePin := 4; arg_i2s_port := 1 |}.

(** The end-to-end configuration with 2^24 channels: a block of 2^30 words,
    4 GiB, one byte more than [size_t] holds. *)
Definition oversized : setup_args :=
  {| arg_fs := 48000; arg_channelCount := 16777216;
     arg_bitClkPin := 26; arg_lrClkPin := 25;
     arg_dataOutPin := 22; arg_dataInPin := 35;
     arg_enablePin := 5; arg_i2s_port := 0 |}.

(** Only console output. *)
Definition is_diagnostic (e : event) : bool :=
  match e with
  | Serial_print _ | Serial_println _ => true
  | _ => false
  end.


(** ** Notions used to state the properties of the running phase *)




Definition no_setup (rs : list request) : bool :=
  forallb (fun r => negb (is_setup r)) rs.

(** The allocator has no room; every driver call succeeds. *)
Definition out_of_memory : script :=
  {| install_status := 0; set_pin_status := 0; set_rate_status := 0;
     zero_dma_status := 0; read_status := 0; read_count := 512;
     read_word := 256; write_status := 0; write_count := 512;
     memory_left := false |}.


(** * Properties *)

(** ** 32-bit arithmetic *)

Lemma wrap32_small (z : Z) : - 2 ^ 31 <= z < 2 ^ 31 -> wrap32 z = z.
Proof.
  intros Hz. unfold wrap32. rewrite Z.mod_small; lia.
Qed.

Lemma wrap32_range (z : Z) : - 2 ^ 31 <= wrap32 z < 2 ^ 31.
Proof.
  unfold wrap32. pose proof (Z.mod_pos_bound (z + 2 ^ 31) (2 ^ 32)). lia.
Qed.

Lemma wrap32_add_l (a b : Z) : wrap32 (wrap32 a + b) = wrap32 (a + b).
Proof.
  unfold wrap32.
  replace ((a + 2 ^ 31) mod 2 ^ 32 - 2 ^ 31 + b + 2 ^ 31)
    with ((a + 2 ^ 31) mod 2 ^ 32 + b) by lia.
  rewrite Z.add_mod_idemp_l by lia.
  f_equal. f_equal. lia.
Qed.

Lemma add32_chain (e1 e2 e3 e4 : Z) :
  add32 (add32 (add32 e1 e2) e3) e4 = wrap32 (e1 + e2 + e3 + e4).
Proof.
  unfold add32. rewrite wrap32_add_l, <- Z.add_assoc, wrap32_add_l.
  f_equal. lia.
Qed.

Lemma uwrap32_small (z : Z) : 0 <= z < 2 ^ 32 -> uwrap32 z = z.
Proof.
  intros Hz. unfold uwrap32. now apply Z.mod_small.
Qed.

Lemma constrain_Z_range (x lo hi : Z) :
  lo <= hi -> lo <= constrain Z.ltb x lo hi <= hi.
Proof.
  intros Hle. unfold constrain.
  destruct (Z.ltb_spec x lo); [lia|].
  destruct (Z.ltb_spec hi x); lia.
Qed.

Lemma constrain_Z_inside (x lo hi : Z) :
  lo <= x <= hi -> constrain Z.ltb x lo hi = x.
Proof.
  intros Hx. unfold constrain.
  destruct (Z.ltb_spec x lo); [lia|].
  destruct (Z.ltb_spec hi x); lia.
Qed.

(** * The sample codec *)

(** ** Bit length *)

Lemma digits2_pos_size (m : positive) : digits2_pos m = Pos.size m.
Proof. induction m; cbn; now rewrite ?IHm. Qed.

Lemma digits2_pos_bounds (m : positive) :
  2 ^ (Zpos (digits2_pos m) - 1) <= Zpos m < 2 ^ Zpos (digits2_pos m).
Proof.
  rewrite digits2_pos_size.
  induction m as [m IH|m IH|]; cbn [Pos.size]; rewrite ?Pos2Z.inj_succ.
  - replace (Z.succ (Zpos (Pos.size m)) - 1) with (Z.succ (Zpos (Pos.size m) - 1)) by lia.
    rewrite !Z.pow_succ_r by lia. lia.
  - replace (Z.succ (Zpos (Pos.size m)) - 1) with (Z.succ (Zpos (Pos.size m) - 1)) by lia.
    rewrite !Z.pow_succ_r by lia. lia.
  - cbn. lia.
Qed.

Lemma digits2_pos_unique (m : positive) (d : Z) :
  2 ^ (d - 1) <= Zpos m < 2 ^ d -> Zpos (digits2_pos m) = d.
Proof.
  intros [Hlo Hhi]. pose proof (digits2_pos_bounds m) as [Hlo' Hhi'].
  set (d' := Zpos (digits2_pos m)) in *.
  assert (0 < d') by (unfold d'; lia).
  assert (0 < d).
  { destruct (Z.ltb_spec 0 d) as [|Hd]; [assumption|].
    destruct (Z.eq_dec d 0) as [->|]; [cbn in Hhi; lia|].
    rewrite (Z.pow_neg_r 2 d) in Hhi by lia. lia. }
  destruct (Z.lt_trichotomy d d') as [Hlt|[Heq|Hgt]]; [|now symmetry|].
  - assert (2 ^ d <= 2 ^ (d' - 1)) by (apply Z.pow_le_mono_r; lia). lia.
  - assert (2 ^ d' <= 2 ^ (d - 1)) by (apply Z.pow_le_mono_r; lia). lia.
Qed.

Lemma Zdigits2_pos (m : positive) : Zdigits2 (Zpos m) = Zpos (digits2_pos m).
Proof. reflexivity. Qed.

Lemma digits2_pos_shift (m : positive) (k : positive) :
  Zpos (digits2_pos (Pos.iter xO m k)) = Zpos (digits2_pos m) + Zpos k.
Proof.
  revert m. induction k using Pos.peano_ind; intros m.
  - cbn. lia.
  - rewrite Pos.iter_succ. cbn [digits2_pos]. rewrite Pos2Z.inj_succ, IHk. lia.
Qed.

Lemma Zpos_iter_xO (m k : positive) : Zpos (Pos.iter xO m k) = Zpos m * 2 ^ Zpos k.
Proof.
  revert m. induction k using Pos.peano_ind; intros m.
  - cbn. lia.
  - rewrite Pos.iter_succ, Pos2Z.inj_succ, Z.pow_succ_r by lia.
    rewrite Pos2Z.inj_xO, IHk. lia.
Qed.

(** ** Shifting right with sticky bits *)

Lemma shr_1_nonneg (m : Z) (r s : bool) :
  0 <= m ->
  shr_1 {| shr_m := m; shr_r := r; shr_s := s |}
  = {| shr_m := m / 2; shr_r := Z.odd m; shr_s := r || s |}.
Proof.
  intros Hm. destruct m as [|p|p]; [reflexivity| |lia].
  destruct p as [p|p|]; cbn [shr_1].
  - f_equal. rewrite Pos2Z.inj_xI. symmetry.
    rewrite Z.add_comm, Z.mul_comm, Z.div_add by lia. reflexivity.
  - f_equal. rewrite Pos2Z.inj_xO. symmetry.
    rewrite Z.mul_comm, Z.div_mul by lia. reflexivity.
  - reflexivity.
Qed.

Lemma shr_1_shifted (m k : Z) :
  0 <= m -> 0 <= k -> shr_1 (shifted m k) = shifted m (k + 1).
Proof.
  intros Hm Hk. unfold shifted.
  rewrite shr_1_nonneg by (apply Z.div_pos; lia).
  replace (k + 1 - 1) with k by lia.
  replace (k + 1 =? 0) with false by (symmetry; apply Z.eqb_neq; lia).
  f_equal.
  - rewrite Z.pow_add_r, Z.div_div by lia. reflexivity.
  - destruct (Z.eqb_spec k 0) as [->|Hk0].
    + cbn. symmetry. rewrite Z.mod_1_r. reflexivity.
    + assert (Hsplit : m mod 2 ^ k
                       = m mod 2 ^ (k - 1) + 2 ^ (k - 1) * ((m / 2 ^ (k - 1)) mod 2)).
      { replace (2 ^ k) with (2 ^ (k - 1) * 2).
        - apply Z.rem_mul_r; lia.
        - rewrite Z.mul_comm, <- Z.pow_succ_r by lia. f_equal. lia. }
      rewrite Hsplit.
      assert (0 < 2 ^ (k - 1)) by (apply Z.pow_pos_nonneg; lia).
      pose proof (Z.mod_pos_bound m (2 ^ (k - 1)) ltac:(lia)) as Hb.
      rewrite Zodd_mod.
      pose proof (Z.mod_pos_bound (m / 2 ^ (k - 1)) 2 ltac:(lia)) as Hb2.
      set (a := (m / 2 ^ (k - 1)) mod 2) in *.
      set (b := m mod 2 ^ (k - 1)) in *.
      destruct (Z.eqb_spec a 1), (Z.eqb_spec b 0),
        (Z.eqb_spec (b + 2 ^ (k - 1) * a) 0); cbn; try reflexivity;
        exfalso; nia.
Qed.

Lemma iter_pos_shr_1 (p : positive) (m k : Z) :
  0 <= m -> 0 <= k ->
  iter_pos shr_1 p (shifted m k) = shifted m (k + Zpos p).
Proof.
  intros Hm. revert k. induction p as [p IH|p IH|]; intros k Hk; cbn [iter_pos].
  - rewrite shr_1_shifted, IH, IH by lia. f_equal. lia.
  - rewrite IH, IH by lia. f_equal. lia.
  - now apply shr_1_shifted.
Qed.

Lemma shifted_0 (m : Z) :
  shifted m 0 = {| shr_m := m; shr_r := false; shr_s := false |}.
Proof. unfold shifted. cbn. now rewrite Z.div_1_r. Qed.

Lemma shr_exact (m : positive) (e n : Z) :
  shr (shr_record_of_loc (Zpos m) loc_Exact) e n
  = if 0 <? n then (shifted (Zpos m) n, e + n)
    else ({| shr_m := Zpos m; shr_r := false; shr_s := false |}, e).
Proof.
  cbn [shr_record_of_loc]. destruct n as [|p|p]; cbn [shr Z.ltb Z.compare];
    try reflexivity.
  rewrite <- shifted_0, iter_pos_shr_1 by lia. reflexivity.
Qed.

(** ** Rounding to nearest, ties to even *)

Lemma round_nearest_even_shifted (m n : Z) :
  0 <= m -> 0 < n ->
  round_nearest_even (shr_m (shifted m n)) (loc_of_shr_record (shifted m n))
  = round_half_even m n.
Proof.
  intros Hm Hn. unfold shifted, round_half_even.
  replace (n =? 0) with false by (symmetry; apply Z.eqb_neq; lia).
  cbn [shr_m loc_of_shr_record].
  assert (Hsplit : m mod 2 ^ n
                   = m mod 2 ^ (n - 1) + 2 ^ (n - 1) * ((m / 2 ^ (n - 1)) mod 2)).
  { replace (2 ^ n) with (2 ^ (n - 1) * 2).
    - apply Z.rem_mul_r; lia.
    - rewrite Z.mul_comm, <- Z.pow_succ_r by lia. f_equal. lia. }
  rewrite Hsplit, Zodd_mod.
  assert (0 < 2 ^ (n - 1)) by (apply Z.pow_pos_nonneg; lia).
  pose proof (Z.mod_pos_bound m (2 ^ (n - 1)) ltac:(lia)) as Hb.
  pose proof (Z.mod_pos_bound (m / 2 ^ (n - 1)) 2 ltac:(lia)) as Hb2.
  set (a := (m / 2 ^ (n - 1)) mod 2) in *.
  set (b := m mod 2 ^ (n - 1)) in *.
  set (h := 2 ^ (n - 1)) in *.
  destruct (Z.eqb_spec a 1), (Z.eqb_spec b 0); cbn [negb round_nearest_even];
    destruct (Z.ltb_spec (b + h * a) h); try (exfalso; nia);
    destruct (Z.ltb_spec h (b + h * a)); try (exfalso; nia); reflexivity.
Qed.

Lemma round_half_even_exact (m n : Z) :
  0 < n -> m mod 2 ^ n = 0 -> round_half_even m n = m / 2 ^ n.
Proof.
  intros Hn Hr. unfold round_half_even. rewrite Hr.
  assert (0 < 2 ^ (n - 1)) by (apply Z.pow_pos_nonneg; lia).
  destruct (Z.ltb_spec 0 (2 ^ (n - 1))); [reflexivity|lia].
Qed.

Lemma round_half_even_bounds (m n : Z) :
  0 < n ->
  m / 2 ^ n <= round_half_even m n <= m / 2 ^ n + 1 /\
  2 * m - 2 ^ n <= 2 * 2 ^ n * round_half_even m n <= 2 * m + 2 ^ n.
Proof.
  intros Hn. unfold round_half_even.
  assert (Hp : 0 < 2 ^ (n - 1)) by (apply Z.pow_pos_nonneg; lia).
  assert (H2 : 2 ^ n = 2 * 2 ^ (n - 1)).
  { rewrite <- Z.pow_succ_r by lia. f_equal. lia. }
  pose proof (Z.div_mod m (2 ^ n) ltac:(lia)) as Hdm.
  pose proof (Z.mod_pos_bound m (2 ^ n) ltac:(lia)) as Hb.
  set (q := m / 2 ^ n) in *. set (r := m mod 2 ^ n) in *.
  set (h := 2 ^ (n - 1)) in *. set (t := 2 ^ n) in *.
  destruct (Z.ltb_spec r h); [nia|].
  destruct (Z.ltb_spec h r); [nia|].
  destruct (Z.even q); nia.
Qed.

Lemma pow2_split (a b : Z) : 0 <= a -> 0 <= b -> 2 ^ (a + b) = 2 ^ a * 2 ^ b.
Proof. intros. now apply Z.pow_add_r. Qed.

Lemma div_pow2_bounds (m d n : Z) :
  0 <= n -> n < d -> 2 ^ (d - 1) <= m < 2 ^ d ->
  2 ^ (d - 1 - n) <= m / 2 ^ n < 2 ^ (d - n).
Proof.
  intros Hn Hd [Hlo Hhi].
  assert (0 < 2 ^ n) by (apply Z.pow_pos_nonneg; lia).
  split.
  - apply Z.div_le_lower_bound; [lia|].
    rewrite <- pow2_split by lia. now replace (n + (d - 1 - n)) with (d - 1) by lia.
  - apply Z.div_lt_upper_bound; [lia|].
    rewrite <- pow2_split by lia. now replace (n + (d - n)) with d by lia.
Qed.

Section Rounding.
Variables p em : Z.

(** A mantissa whose shifted-out bits are all zero is rounded to itself. *)
Lemma binary_round_aux_exact (s : bool) (m : positive) (e n : Z) :
  n = fexp p em (Zpos (digits2_pos m) + e) - e ->
  0 <= n -> Zpos m mod 2 ^ n = 0 ->
  binary_round_aux p em s (Zpos m) e loc_Exact
  = if e + n <=? em - p
    then S754_finite s (Z.to_pos (Zpos m / 2 ^ n)) (e + n)
    else S754_infinity s.
Proof.
  intros Hn Hn0 Hdiv. unfold binary_round_aux, shr_fexp.
  rewrite Zdigits2_pos, <- Hn, shr_exact.
  destruct (Z.ltb_spec 0 n) as [Hpos|Hzero].
  - rewrite round_nearest_even_shifted, round_half_even_exact by lia.
    pose proof (digits2_pos_bounds m) as Hd.
    assert (Hpn : 0 < 2 ^ n) by (apply Z.pow_pos_nonneg; lia).
    assert (Hge : 2 ^ n <= Zpos m).
    { apply Z.mod_divide in Hdiv; [|lia]. destruct Hdiv as [c Hc].
      assert (0 < c) by nia. nia. }
    assert (Hnd : n < Zpos (digits2_pos m)).
    { destruct (Z.ltb_spec n (Zpos (digits2_pos m))); [assumption|].
      assert (2 ^ Zpos (digits2_pos m) <= 2 ^ n)
        by (apply Z.pow_le_mono_r; lia). lia. }
    pose proof (div_pow2_bounds _ _ n Hn0 Hnd Hd) as Hq.
    assert (Hqpos : 0 < Zpos m / 2 ^ n).
    { assert (0 < 2 ^ (Zpos (digits2_pos m) - 1 - n))
        by (apply Z.pow_pos_nonneg; lia). lia. }
    destruct (Zpos m / 2 ^ n) as [|q|q] eqn:Hqe; try lia.
    rewrite Zdigits2_pos.
    rewrite (digits2_pos_unique q (Zpos (digits2_pos m) - n))
      by (replace (Zpos (digits2_pos m) - n - 1)
            with (Zpos (digits2_pos m) - 1 - n) by lia; exact Hq).
    replace (Zpos (digits2_pos m) - n + (e + n))
      with (Zpos (digits2_pos m) + e) by lia.
    replace (fexp p em (Zpos (digits2_pos m) + e) - (e + n)) with 0 by lia.
    cbn [shr shr_record_of_loc shr_m Z.to_pos]. reflexivity.
  - assert (Hz : n = 0) by lia. rewrite Hz in Hn |- *.
    cbn [shr_m loc_of_shr_record round_nearest_even].
    rewrite Zdigits2_pos, <- Hn.
    cbn [shr shr_record_of_loc shr_m]. rewrite Z.add_0_r.
    replace (2 ^ 0) with 1 by reflexivity. rewrite Z.div_1_r.
    reflexivity.
Qed.
End Rounding.

Lemma fexp32 (x : Z) : fexp prec emax x = Z.max (x - 24) (- 149).
Proof. reflexivity. Qed.

(** binary32 rounding of a mantissa of more than 24 bits whose result is not
    subnormal: the mantissa is rounded to 24 bits, and renormalised if the
    rounding carried into a 25th. *)
Lemma binary_round_aux_inexact (s : bool) (m : positive) (e : Z) :
  let d := Zpos (digits2_pos m) in
  let n := d - 24 in
  let q := round_half_even (Zpos m) n in
  24 < d -> - 149 <= e + n ->
  binary_round_aux prec emax s (Zpos m) e loc_Exact
  = if q <? 2 ^ 24
    then (if e + n <=? 104 then S754_finite s (Z.to_pos q) (e + n)
          else S754_infinity s)
    else (if e + n + 1 <=? 104 then S754_finite s 8388608 (e + n + 1)
          else S754_infinity s).
Proof.
  intros d n q Hd He. unfold binary_round_aux, shr_fexp.
  rewrite Zdigits2_pos, fexp32. fold d.
  replace (Z.max (d + e - 24) (- 149) - e) with n by (unfold n; lia).
  rewrite shr_exact.
  destruct (Z.ltb_spec 0 n) as [Hn|Hn]; [|unfold n in Hn; lia].
  rewrite round_nearest_even_shifted by lia. fold q.
  pose proof (digits2_pos_bounds m) as Hm. fold d in Hm.
  assert (Hq0 : 2 ^ 23 <= Zpos m / 2 ^ n < 2 ^ 24).
  { pose proof (div_pow2_bounds (Zpos m) d n ltac:(lia) ltac:(unfold n; lia) Hm) as Hb.
    replace (d - 1 - n) with 23 in Hb by (unfold n; lia).
    replace (d - n) with 24 in Hb by (unfold n; lia). exact Hb. }
  pose proof (round_half_even_bounds (Zpos m) n Hn) as [Hq _]. fold q in Hq.
  destruct (Z.ltb_spec q (2 ^ 24)) as [Hlt|Hge].
  - destruct q as [|qp|qp] eqn:Hqe; try lia.
    rewrite Zdigits2_pos, (digits2_pos_unique qp 24) by (cbn; lia).
    rewrite fexp32.
    replace (Z.max (24 + (e + n) - 24) (- 149) - (e + n)) with 0 by lia.
    cbn [shr shr_record_of_loc shr_m Z.to_pos]. reflexivity.
  - assert (Hq24 : q = 2 ^ 24) by lia. rewrite Hq24.
    change (Zdigits2 (2 ^ 24)) with 25. rewrite fexp32.
    replace (Z.max (25 + (e + n) - 24) (- 149) - (e + n)) with 1 by lia.
    cbn [shr shr_record_of_loc iter_pos shr_1 shr_m]. reflexivity.
Qed.

Section Rounding2.
Variables p em : Z.

Lemma binary_round_aux_opp (s : bool) (m e : Z) (l : location) :
  binary_round_aux p em (negb s) m e l = SFopp (binary_round_aux p em s m e l).
Proof.
  unfold binary_round_aux.
  destruct (shr_fexp p em m e l) as [mrs' e'].
  destruct (shr_fexp p em _ e' loc_Exact) as [mrs'' e''].
  destruct (shr_m mrs''); [reflexivity| |reflexivity].
  destruct (e'' <=? em - p); reflexivity.
Qed.

Lemma binary_round_opp (s : bool) (m : positive) (e : Z) :
  binary_round p em (negb s) m e = SFopp (binary_round p em s m e).
Proof.
  unfold binary_round. destruct (shl_align m e _) as [mz ez].
  apply binary_round_aux_opp.
Qed.

Lemma binary_normalize_opp (m e : Z) :
  m <> 0 ->
  binary_normalize p em (- m) e false = SFopp (binary_normalize p em m e false).
Proof.
  intros Hm. destruct m as [|q|q]; [congruence| |]; cbn [Z.opp binary_normalize].
  - apply (binary_round_opp false).
  - rewrite (binary_round_opp false). cbn [negb].
    destruct (binary_round p em false q e) as [[]|[]| |[] ? ?]; reflexivity.
Qed.

(** A mantissa shorter than the format allows is only re-aligned. *)
Lemma binary_round_short (s : bool) (m : positive) (e n : Z) :
  n = fexp p em (Zpos (digits2_pos m) + e) - e -> n <= 0 ->
  binary_round p em s m e
  = if e + n <=? em - p
    then S754_finite s (Z.to_pos (Zpos m * 2 ^ (- n))) (e + n)
    else S754_infinity s.
Proof.
  intros Hn Hle. unfold binary_round, shl_align. rewrite <- Hn.
  destruct n as [|k|k]; [| lia |].
  - rewrite (binary_round_aux_exact p em s m e 0);
      [|exact Hn|lia|apply Z.mod_1_r].
    cbn [Z.opp]. replace (2 ^ 0) with 1 by reflexivity.
    rewrite Z.div_1_r, Z.mul_1_r. reflexivity.
  - replace (fexp p em (Zpos (digits2_pos m) + e)) with (e + Zneg k) by lia.
    rewrite (binary_round_aux_exact p em s _ (e + Zneg k) 0).
    + rewrite Z.add_0_r. replace (2 ^ 0) with 1 by reflexivity.
      rewrite Z.div_1_r, Zpos_iter_xO. reflexivity.
    + rewrite digits2_pos_shift.
      replace (Zpos (digits2_pos m) + Zpos k + (e + Zneg k))
        with (Zpos (digits2_pos m) + e) by lia.
      lia.
    + lia.
    + apply Z.mod_1_r.
Qed.

Lemma binary_round_long (s : bool) (m : positive) (e : Z) :
  0 <= fexp p em (Zpos (digits2_pos m) + e) - e ->
  binary_round p em s m e = binary_round_aux p em s (Zpos m) e loc_Exact.
Proof.
  intros Hn. unfold binary_round, shl_align.
  destruct (fexp p em (Zpos (digits2_pos m) + e) - e); [reflexivity..|lia].
Qed.
End Rounding2.

(** ** Conversion of integers *)

Lemma Zpos_to_pos_mul (m : positive) (k : Z) :
  0 <= k -> Zpos (Z.to_pos (Zpos m * 2 ^ k)) = Zpos m * 2 ^ k.
Proof.
  intros Hk. assert (0 < 2 ^ k) by (apply Z.pow_pos_nonneg; lia).
  apply Z2Pos.id. nia.
Qed.

Lemma digits_mul_pow2 (m : positive) (k d : Z) :
  0 <= k -> Zpos (digits2_pos m) = d ->
  Zpos (digits2_pos (Z.to_pos (Zpos m * 2 ^ k))) = d + k.
Proof.
  intros Hk Hd. apply digits2_pos_unique. rewrite Zpos_to_pos_mul by lia.
  pose proof (digits2_pos_bounds m) as [Hlo Hhi]. rewrite Hd in Hlo, Hhi.
  assert (0 < 2 ^ k) by (apply Z.pow_pos_nonneg; lia).
  replace (d + k - 1) with (d - 1 + k) by lia.
  rewrite !pow2_split by lia. nia.
Qed.

(** A number of at most 24 significant bits, in the normal range, is
    represented exactly. *)
Lemma binary_normalize_exact (m : positive) (j e : Z) :
  let d := Zpos (digits2_pos m) in
  d <= 24 -> 0 <= j -> - 149 <= d + j + e - 24 <= 104 ->
  binary_normalize prec emax (Zpos m * 2 ^ j) e false
  = S754_finite false (Z.to_pos (Zpos m * 2 ^ (24 - d))) (d + j + e - 24).
Proof.
  intros d Hd Hj Hdj.
  assert (Hpj : 0 < 2 ^ j) by (apply Z.pow_pos_nonneg; lia).
  destruct (Zpos m * 2 ^ j) as [|M|M] eqn:HM; try lia.
  cbn [binary_normalize].
  assert (HdM : Zpos (digits2_pos M) = d + j).
  { replace M with (Z.to_pos (Zpos m * 2 ^ j)) by (rewrite HM; reflexivity).
    now apply digits_mul_pow2. }
  destruct (Z.le_gt_cases (d + j) 24) as [Hs|Hl].
  - rewrite (binary_round_short prec emax false M e (d + j - 24))
      by (rewrite ?HdM, ?fexp32; lia).
    replace (e + (d + j - 24) <=? emax - prec) with true
      by (symmetry; apply Z.leb_le; unfold emax, prec; lia).
    f_equal; try lia. f_equal. rewrite <- HM.
    replace (- (d + j - 24)) with (24 - d - j) by lia.
    assert (E : 2 ^ (24 - d) = 2 ^ j * 2 ^ (24 - d - j))
      by (rewrite <- pow2_split by lia; f_equal; lia).
    rewrite E. ring.
  - rewrite binary_round_long by (rewrite HdM, fexp32; lia).
    rewrite (binary_round_aux_exact prec emax false M e (d + j - 24)).
    + replace (e + (d + j - 24) <=? emax - prec) with true
        by (symmetry; apply Z.leb_le; unfold emax, prec; lia).
      f_equal; try lia. f_equal. rewrite <- HM.
      assert (E : 2 ^ j = 2 ^ (24 - d) * 2 ^ (d + j - 24))
        by (rewrite <- pow2_split by lia; f_equal; lia).
      assert (0 < 2 ^ (d + j - 24)) by (apply Z.pow_pos_nonneg; lia).
      rewrite E, Z.mul_assoc, Z.div_mul by lia. reflexivity.
    + rewrite HdM, fexp32. lia.
    + lia.
    + rewrite <- HM.
      assert (E : 2 ^ j = 2 ^ (24 - d) * 2 ^ (d + j - 24))
        by (rewrite <- pow2_split by lia; f_equal; lia).
      assert (0 < 2 ^ (d + j - 24)) by (apply Z.pow_pos_nonneg; lia).
      rewrite E, Z.mul_assoc. apply Z.mod_mul. lia.
Qed.

(** An integer of at most 24 significant bits converts exactly. *)
Lemma float_of_int_exact (m : positive) (j : Z) :
  let d := Zpos (digits2_pos m) in
  d <= 24 -> 0 <= j -> d + j <= 128 ->
  float_of_int (Zpos m * 2 ^ j)
  = S754_finite false (Z.to_pos (Zpos m * 2 ^ (24 - d))) (d + j - 24).
Proof.
  intros d Hd Hj Hdj. unfold float_of_int.
  assert (0 < d) by (unfold d; lia).
  rewrite binary_normalize_exact by (fold d; lia). fold d.
  f_equal. lia.
Qed.

(** A product with the constant 2^-31 of [int2Float] is exact. *)
Lemma fmul_ScaleInt2Float (s : bool) (m : positive) (e : Z) :
  Zpos (digits2_pos m) = 24 -> - 118 <= e <= 135 ->
  fmul (S754_finite s m e) ScaleInt2Float = S754_finite s m (e - 31).
Proof.
  intros Hd He. unfold fmul, ScaleInt2Float. cbn [SFmul].
  rewrite xorb_false_r.
  assert (HdM : Zpos (digits2_pos (m * 8388608)) = 47).
  { replace (m * 8388608)%positive with (Z.to_pos (Zpos m * 2 ^ 23)).
    - rewrite (digits_mul_pow2 m 23 24) by (lia || assumption). reflexivity.
    - rewrite Z2Pos.inj_mul by (cbn; lia). reflexivity. }
  rewrite (binary_round_aux_exact prec emax s _ _ 23).
  - replace (e + -54 + 23 <=? emax - prec) with true
      by (symmetry; apply Z.leb_le; unfold emax, prec; lia).
    f_equal; try lia.
    rewrite Pos2Z.inj_mul. change (Zpos 8388608) with (2 ^ 23).
    rewrite Z.div_mul by (cbn; lia). reflexivity.
  - rewrite HdM, fexp32. lia.
  - lia.
  - rewrite Pos2Z.inj_mul. change (Zpos 8388608) with (2 ^ 23).
    apply Z.mod_mul. cbn; lia.
Qed.

(** ** The value of a float *)

Lemma Qpow2_pos (e : Z) : (0 < 2 ^ e)%Q.
Proof. apply Qpower_0_lt. reflexivity. Qed.

Lemma Qpow2_add (a b : Z) : (2 ^ (a + b) == 2 ^ a * 2 ^ b)%Q.
Proof. apply Qpower_plus. discriminate. Qed.

Lemma inject_Z_pow2 (a : Z) : 0 <= a -> (inject_Z (2 ^ a) == 2 ^ a)%Q.
Proof. intros Ha. now rewrite Zpower_Qpower. Qed.

Lemma inject_Z_mul_pow2 (z a b : Z) :
  0 <= a -> (inject_Z (z * 2 ^ a) * 2 ^ b == inject_Z z * 2 ^ (a + b))%Q.
Proof.
  intros Ha. rewrite inject_Z_mult, inject_Z_pow2, Qpow2_add by assumption.
  generalize (2 ^ a)%Q (2 ^ b)%Q. intros t u. ring.
Qed.

Lemma cond_Zopp_mul (s : bool) (a b : Z) :
  cond_Zopp s (a * b) = cond_Zopp s a * b.
Proof. destruct s; cbn; lia. Qed.

Lemma SF2Q_scaled (s : bool) (m : positive) (a e : Z) :
  0 <= a ->
  (SF2Q (S754_finite s (Z.to_pos (Zpos m * 2 ^ a)) e)
   == inject_Z (cond_Zopp s (Zpos m)) * 2 ^ (a + e))%Q.
Proof.
  intros Ha. cbn [SF2Q]. rewrite Zpos_to_pos_mul, cond_Zopp_mul by assumption.
  now apply inject_Z_mul_pow2.
Qed.

(** [int2Float] of an integer of at most 24 significant bits. *)
Lemma int2Float_pos_exact (m : positive) (j : Z) :
  let d := Zpos (digits2_pos m) in
  d <= 24 -> 0 <= j -> d + j <= 128 ->
  int2Float (Zpos m * 2 ^ j)
  = S754_finite false (Z.to_pos (Zpos m * 2 ^ (24 - d))) (d + j - 55).
Proof.
  intros d Hd Hj Hdj. unfold int2Float.
  rewrite float_of_int_exact by assumption. fold d.
  pose proof (digits2_pos_bounds m) as Hm.
  rewrite fmul_ScaleInt2Float.
  - f_equal. lia.
  - rewrite (digits_mul_pow2 m (24 - d) d) by (lia || reflexivity). lia.
  - assert (0 < d) by (unfold d; lia). lia.
Qed.

Lemma fmul_opp_l (x y : float) : fmul (fneg x) y = fneg (fmul x y).
Proof.
  unfold fmul, fneg.
  destruct x as [sx|sx| |sx mx ex], y as [sy|sy| |sy my ey]; cbn [SFmul SFopp];
    try reflexivity; try (destruct sx, sy; reflexivity).
  rewrite <- binary_round_aux_opp. f_equal. destruct sx, sy; reflexivity.
Qed.

Lemma float_of_int_opp (n : Z) :
  n <> 0 -> float_of_int (- n) = fneg (float_of_int n).
Proof. intros Hn. now apply binary_normalize_opp. Qed.

Lemma int2Float_opp (n : Z) : n <> 0 -> int2Float (- n) = fneg (int2Float n).
Proof.
  intros Hn. unfold int2Float. now rewrite float_of_int_opp, fmul_opp_l.
Qed.

Lemma SF2Q_opp (x : float) : (SF2Q (fneg x) == - SF2Q x)%Q.
Proof.
  destruct x as [s|s| |s m e]; cbn [fneg SFopp SF2Q]; try reflexivity.
  generalize (2 ^ e)%Q. intros t.
  destruct s; cbn [negb cond_Zopp Z.opp];
    change (Zneg m) with (- Zpos m); rewrite inject_Z_opp; ring.
Qed.

Lemma int2Float_exact (v j : Z) :
  Z.abs v < 2 ^ 24 -> 0 <= j <= 32 ->
  (SF2Q (int2Float (v * 2 ^ j)) == inject_Z (v * 2 ^ j) * 2 ^ (- 31))%Q.
Proof.
  intros Hv Hj.
  assert (Hpos : forall m : positive,
             Zpos m < 2 ^ 24 ->
             (SF2Q (int2Float (Zpos m * 2 ^ j))
              == inject_Z (Zpos m * 2 ^ j) * 2 ^ (- 31))%Q).
  { intros m Hm.
    assert (Hd : Zpos (digits2_pos m) <= 24).
    { pose proof (digits2_pos_bounds m) as [Hlo _].
      destruct (Z.le_gt_cases (Zpos (digits2_pos m)) 24); [assumption|].
      assert (2 ^ 24 <= 2 ^ (Zpos (digits2_pos m) - 1))
        by (apply Z.pow_le_mono_r; lia). lia. }
    rewrite int2Float_pos_exact by lia.
    rewrite SF2Q_scaled by lia. cbn [cond_Zopp].
    rewrite inject_Z_mul_pow2 by lia.
    replace (24 - Zpos (digits2_pos m) + (Zpos (digits2_pos m) + j - 55))
      with (j + - 31) by lia.
    reflexivity. }
  destruct v as [|m|m].
  - reflexivity.
  - apply Hpos. lia.
  - replace (Zneg m * 2 ^ j) with (- (Zpos m * 2 ^ j)) by lia.
    assert (0 < 2 ^ j) by (apply Z.pow_pos_nonneg; lia).
    rewrite int2Float_opp, SF2Q_opp, Hpos, inject_Z_opp by lia. ring.
Qed.

Lemma digits_le_24 (m : positive) :
  Zpos m < 2 ^ 24 -> Zpos (digits2_pos m) <= 24.
Proof.
  intros Hm. pose proof (digits2_pos_bounds m) as [Hlo _].
  destruct (Z.le_gt_cases (Zpos (digits2_pos m)) 24); [assumption|].
  assert (2 ^ 24 <= 2 ^ (Zpos (digits2_pos m) - 1))
    by (apply Z.pow_le_mono_r; lia). lia.
Qed.

Lemma digits_le_32 (m : positive) :
  Zpos m <= 2 ^ 31 -> Zpos (digits2_pos m) <= 32.
Proof.
  intros Hm. pose proof (digits2_pos_bounds m) as [Hlo _].
  destruct (Z.le_gt_cases (Zpos (digits2_pos m)) 32); [assumption|].
  assert (2 ^ 32 <= 2 ^ (Zpos (digits2_pos m) - 1))
    by (apply Z.pow_le_mono_r; lia). lia.
Qed.

(** The float a positive [int32_t] (or 2^31) converts to: a normal number,
    equal to the integer when that has at most 24 bits, of exponent 1 or more
    otherwise. *)
Lemma float_of_int_pos (m : positive) :
  let d := Zpos (digits2_pos m) in
  d <= 32 ->
  exists mm ee,
    float_of_int (Zpos m) = S754_finite false mm ee /\
    Zpos (digits2_pos mm) = 24 /\
    ((d <= 24 /\ Zpos mm = Zpos m * 2 ^ (24 - d) /\ ee = d - 24) \/
     (24 < d /\ 1 <= ee <= 9)).
Proof.
  intros d Hd. assert (0 < d) by (unfold d; lia).
  destruct (Z.le_gt_cases d 24) as [Hs|Hl].
  - pose proof (float_of_int_exact m 0 Hs ltac:(lia) ltac:(fold d; lia)) as E.
    rewrite Z.mul_1_r in E. fold d in E. rewrite E.
    eexists. eexists. split; [reflexivity|]. split.
    + rewrite (digits_mul_pow2 m (24 - d) d) by (lia || reflexivity). lia.
    + left. split; [assumption|]. split; [|lia].
      apply Zpos_to_pos_mul. lia.
  - unfold float_of_int. cbn [binary_normalize].
    rewrite binary_round_long by (rewrite fexp32; fold d; lia).
    rewrite binary_round_aux_inexact by (fold d; lia). fold d.
    pose proof (digits2_pos_bounds m) as Hm. fold d in Hm.
    pose proof (div_pow2_bounds (Zpos m) d (d - 24) ltac:(lia) ltac:(lia) Hm) as Hq0.
    replace (d - 1 - (d - 24)) with 23 in Hq0 by lia.
    replace (d - (d - 24)) with 24 in Hq0 by lia.
    pose proof (round_half_even_bounds (Zpos m) (d - 24) ltac:(lia)) as [Hq _].
    set (q := round_half_even (Zpos m) (d - 24)) in *.
    destruct (Z.ltb_spec q (2 ^ 24)) as [Hlt|Hge].
    + replace (0 + (d - 24) <=? 104) with true by (symmetry; apply Z.leb_le; lia).
      eexists. eexists. split; [reflexivity|]. split.
      * apply digits2_pos_unique. rewrite Z2Pos.id by lia. cbn; lia.
      * right. lia.
    + replace (0 + (d - 24) + 1 <=? 104) with true
        by (symmetry; apply Z.leb_le; lia).
      eexists. eexists. split; [reflexivity|]. split; [reflexivity|].
      right. lia.
Qed.

Lemma Ztrunc_aligned (s : bool) (m mm : positive) (e : Z) :
  e <= 0 -> Zpos mm = Zpos m * 2 ^ (- e) ->
  Ztrunc (S754_finite s mm e) = Some (cond_Zopp s (Zpos m)).
Proof.
  intros He Hmm. cbn [Ztrunc].
  rewrite Z.shiftl_div_pow2 by lia. rewrite Hmm.
  rewrite Z.div_mul; [reflexivity|].
  assert (0 < 2 ^ (- e)) by (apply Z.pow_pos_nonneg; lia). lia.
Qed.

Lemma float_bounds_of_constrain :
  fneg ScaleFloat2Int = S754_finite true 8388608 0 /\
  fsub ScaleFloat2Int (float_of_int 1) = S754_finite false 16777214 (-1).
Proof. split; reflexivity. Qed.

Lemma clamp24_inside (t : Z) : - 2 ^ 23 <= t <= 2 ^ 23 - 1 -> clamp24 t = t.
Proof. unfold clamp24. lia. Qed.

Lemma clamp24_above (t : Z) : 2 ^ 23 - 1 <= t -> clamp24 t = 2 ^ 23 - 1.
Proof. unfold clamp24. lia. Qed.

Lemma clamp24_below (t : Z) : t <= - 2 ^ 23 -> clamp24 t = - 2 ^ 23.
Proof. unfold clamp24. lia. Qed.

Lemma compare_cont_Eq (a b : positive) :
  Pos.compare_cont Eq a b = (Zpos a ?= Zpos b).
Proof. exact (Pos2Z.inj_compare a b). Qed.

Lemma int_of_float_aligned (s : bool) (m mm : positive) (e : Z) :
  e <= 0 -> Zpos mm = Zpos m * 2 ^ (- e) -> Zpos m <= 2 ^ 31 - 1 ->
  int_of_float (S754_finite s mm e) = Some (cond_Zopp s (Zpos m)).
Proof.
  intros He Hmm Hm. unfold int_of_float.
  rewrite (Ztrunc_aligned s m mm e He Hmm). unfold in_int32.
  replace ((- 2 ^ 31 <=? cond_Zopp s (Zpos m)) && (cond_Zopp s (Zpos m) <? 2 ^ 31))
    with true; [reflexivity|].
  symmetry. apply andb_true_iff.
  split; [apply Z.leb_le|apply Z.ltb_lt]; destruct s; cbn [cond_Zopp]; lia.
Qed.

(** Line 55 of AudioDriver.cpp: clamping through [float] and back is the
    integer clamp into [-2^23, 2^23 - 1], for every [int32_t]. *)
Lemma constrain_through_float (y : Z) :
  - 2 ^ 31 <= y < 2 ^ 31 ->
  int_of_float (constrain flt (float_of_int y) (fneg ScaleFloat2Int)
                          (fsub ScaleFloat2Int (float_of_int 1)))
  = Some (clamp24 y).
Proof.
  intros Hy. destruct float_bounds_of_constrain as [-> ->].
  destruct y as [|m|m].
  - reflexivity.
  - destruct (float_of_int_pos m ltac:(apply digits_le_32; lia))
      as (mm & ee & -> & Hdm & Hcase).
    pose proof (digits2_pos_bounds m) as Hm.
    pose proof (digits2_pos_bounds mm) as Hmm. rewrite Hdm in Hmm.
    change (2 ^ (24 - 1)) with 8388608 in Hmm.
    change (2 ^ 24) with 16777216 in Hmm.
    set (d := Zpos (digits2_pos m)) in *.
    unfold constrain, flt, SFltb. cbn [SFcompare].
    rewrite compare_cont_Eq.
    destruct Hcase as [(Hd & Hval & ->)|(Hd & Hee)].
    + assert (Hp : 0 < 2 ^ (24 - d)) by (apply Z.pow_pos_nonneg; lia).
      destruct (Z.compare_spec (-1) (d - 24)) as [E|E|E].
      * (* 23 bits: never above the upper bound *)
        assert (Hd23 : d = 23) by lia.
        assert (Hm23 : Zpos m < 2 ^ 23) by (rewrite <- Hd23; apply Hm).
        replace (24 - d) with 1 in Hval by lia.
        change (2 ^ 1) with 2 in Hval. change (2 ^ 23) with 8388608 in Hm23.
        destruct (Z.compare_spec 16777214 (Zpos mm)) as [C|C|C]; try lia;
          rewrite (int_of_float_aligned false m mm (d - 24))
            by (rewrite ?Hd23; cbn; lia);
          rewrite clamp24_inside by (cbn; lia); reflexivity.
      * (* 24 bits: above the upper bound or on it *)
        assert (Hd24 : d = 24) by lia.
        assert (Hm24 : 2 ^ 23 <= Zpos m)
          by (replace 23 with (d - 1) by lia; apply Hm).
        rewrite clamp24_above by lia. reflexivity.
      * assert (Hm22 : Zpos m < 2 ^ 22).
        { assert (2 ^ d <= 2 ^ 22) by (apply Z.pow_le_mono_r; lia). lia. }
        change (2 ^ 22) with 4194304 in Hm22.
        rewrite (int_of_float_aligned false m mm (d - 24));
          [|lia|rewrite Hval; f_equal; f_equal; lia|cbn; lia].
        rewrite clamp24_inside by (cbn; lia). reflexivity.
    + destruct (Z.compare_spec (-1) ee) as [E|E|E]; try lia.
      rewrite clamp24_above; [reflexivity|].
      assert (2 ^ 24 <= 2 ^ (d - 1)) by (apply Z.pow_le_mono_r; lia). lia.
  - change (Zneg m) with (- Zpos m). rewrite float_of_int_opp by lia.
    destruct (float_of_int_pos m ltac:(apply digits_le_32; lia))
      as (mm & ee & -> & Hdm & Hcase).
    pose proof (digits2_pos_bounds m) as Hm.
    pose proof (digits2_pos_bounds mm) as Hmm. rewrite Hdm in Hmm.
    change (2 ^ (24 - 1)) with 8388608 in Hmm.
    change (2 ^ 24) with 16777216 in Hmm.
    set (d := Zpos (digits2_pos m)) in *.
    unfold constrain, flt, SFltb. cbn [fneg SFopp negb SFcompare].
    rewrite compare_cont_Eq.
    destruct Hcase as [(Hd & Hval & ->)|(Hd & Hee)].
    + assert (Hp : 0 < 2 ^ (24 - d)) by (apply Z.pow_pos_nonneg; lia).
      destruct (Z.compare_spec (d - 24) 0) as [E|E|E]; try lia.
      * assert (Hd24 : d = 24) by lia.
        replace (24 - d) with 0 in Hval by lia.
        change (2 ^ 0) with 1 in Hval. rewrite Z.mul_1_r in Hval.
        destruct (Z.compare_spec (Zpos mm) 8388608) as [C|C|C]; cbn [CompOpp];
          try lia.
        -- rewrite (int_of_float_aligned true m mm (d - 24))
             by (rewrite ?Hd24; cbn; lia).
           cbn [cond_Zopp]. rewrite clamp24_inside by (cbn; lia). reflexivity.
        -- rewrite clamp24_below by (cbn; lia). reflexivity.
      * assert (Hm23 : Zpos m < 2 ^ 23).
        { assert (2 ^ d <= 2 ^ 23) by (apply Z.pow_le_mono_r; lia). lia. }
        change (2 ^ 23) with 8388608 in Hm23.
        rewrite (int_of_float_aligned true m mm (d - 24));
          [|lia|rewrite Hval; f_equal; f_equal; lia|cbn; lia].
        cbn [cond_Zopp]. rewrite clamp24_inside by (cbn; lia). reflexivity.
    + destruct (Z.compare_spec ee 0) as [E|E|E]; try lia.
      rewrite clamp24_below; [reflexivity|].
      assert (2 ^ 24 <= 2 ^ (d - 1)) by (apply Z.pow_le_mono_r; lia). lia.
Qed.

(** ** Scaling by 2^23 *)

Lemma bounded_shape (m : positive) (e : Z) :
  bounded prec emax m e = true ->
  let d := Zpos (digits2_pos m) in
  0 < d <= 24 /\ - 149 <= e <= 104 /\ (d = 24 \/ e = - 149).
Proof.
  intros Hb d. unfold bounded, canonical_mantissa in Hb.
  rewrite fexp32 in Hb. fold d in Hb.
  apply andb_true_iff in Hb as [Hc He].
  apply Z.eqb_eq in Hc. apply Z.leb_le in He. unfold emax, prec in He.
  assert (0 < d) by (unfold d; lia). lia.
Qed.

(** Line 53: the product with 2^23 is exact; it is a normal number, or an
    infinity when the exponent leaves the format. *)
Lemma fmul_ScaleFloat2Int (s : bool) (m : positive) (e : Z) :
  bounded prec emax m e = true ->
  let d := Zpos (digits2_pos m) in
  fmul (S754_finite s m e) ScaleFloat2Int
  = if e + d - 1 <=? 104
    then S754_finite s (Z.to_pos (Zpos m * 2 ^ (24 - d))) (e + d - 1)
    else S754_infinity s.
Proof.
  intros Hb d. destruct (bounded_shape m e Hb) as (Hd & He & Hcase). fold d in Hd, Hcase.
  unfold fmul, ScaleFloat2Int. cbn [SFmul]. rewrite xorb_false_r, Z.add_0_r.
  assert (HdM : Zpos (digits2_pos (m * 8388608)) = d + 23).
  { replace (m * 8388608)%positive with (Z.to_pos (Zpos m * 2 ^ 23)).
    - apply digits_mul_pow2; [lia|reflexivity].
    - rewrite Z2Pos.inj_mul by (cbn; lia). reflexivity. }
  assert (E : 2 ^ 23 = 2 ^ (24 - d) * 2 ^ (d - 1))
    by (rewrite <- pow2_split by lia; f_equal; lia).
  assert (0 < 2 ^ (d - 1)) by (apply Z.pow_pos_nonneg; lia).
  rewrite (binary_round_aux_exact prec emax s _ e (d - 1)).
  - replace (emax - prec) with 104 by reflexivity.
    replace (e + (d - 1)) with (e + d - 1) by lia.
    destruct (e + d - 1 <=? 104); [|reflexivity].
    f_equal. f_equal. rewrite Pos2Z.inj_mul. change (Zpos 8388608) with (2 ^ 23).
    rewrite E, Z.mul_assoc, Z.div_mul by lia. reflexivity.
  - rewrite HdM, fexp32. lia.
  - lia.
  - rewrite Pos2Z.inj_mul. change (Zpos 8388608) with (2 ^ 23).
    rewrite E, Z.mul_assoc. apply Z.mod_mul. lia.
Qed.

Lemma toWire_scaled_shape (x : float) :
  is_float x = true -> scaled_shape (toWire_scaled x).
Proof.
  intros Hx. unfold toWire_scaled. destruct x as [s|s| |s m e]; try constructor.
  cbn in Hx. rewrite fmul_ScaleFloat2Int by assumption.
  destruct (bounded_shape m e Hx) as (Hd & He & Hcase).
  destruct (Z.leb_spec (e + Zpos (digits2_pos m) - 1) 104); constructor.
  - rewrite (digits_mul_pow2 m _ (Zpos (digits2_pos m))) by (lia || reflexivity).
    lia.
  - lia.
Qed.

(** ** The comparison with 0.5 *)

Lemma double_of_float_normal (s : bool) (mm : positive) (ee : Z) :
  Zpos (digits2_pos mm) = 24 -> - 149 <= ee <= 104 ->
  double_of_float (S754_finite s mm ee)
  = S754_finite s (Z.to_pos (Zpos mm * 2 ^ 29)) (ee - 29).
Proof.
  intros Hd He. cbn [double_of_float].
  rewrite (binary_round_short 53 1024 s mm ee (- 29)).
  - replace (ee + - 29 <=? 1024 - 53) with true
      by (symmetry; apply Z.leb_le; lia).
    reflexivity.
  - rewrite Hd. unfold fexp, emin. lia.
  - lia.
Qed.

Lemma ge_half_normal (s : bool) (mm : positive) (ee : Z) :
  Zpos (digits2_pos mm) = 24 -> - 149 <= ee <= 104 ->
  SFleb double_0_5 (double_of_float (S754_finite s mm ee))
  = negb s && (- 24 <=? ee).
Proof.
  intros Hd He. rewrite double_of_float_normal by assumption.
  pose proof (digits2_pos_bounds mm) as Hmm. rewrite Hd in Hmm.
  change double_0_5 with (S754_finite false 4503599627370496 (- 53)).
  unfold SFleb. cbn [SFcompare]. destruct s; [reflexivity|]. cbn [negb andb].
  destruct (Z.compare_spec (- 53) (ee - 29)) as [E|E|E].
  - change (Pos.compare_cont Eq ?a ?b) with (a ?= b)%positive.
    replace (- 24 <=? ee) with true by (symmetry; apply Z.leb_le; lia).
    destruct (Pos.compare_spec 4503599627370496 (Z.to_pos (Zpos mm * 2 ^ 29)))
      as [C|C|C]; try reflexivity.
    apply Pos2Z.pos_lt_pos in C.
    rewrite Zpos_to_pos_mul in C by lia. cbn in Hmm. lia.
  - symmetry. apply Z.leb_le. lia.
  - symmetry. apply Z.leb_gt. lia.
Qed.

Lemma Qle_half_normal (s : bool) (mm : positive) (ee : Z) :
  Zpos (digits2_pos mm) = 24 ->
  Qle_bool (1 # 2) (SF2Q (S754_finite s mm ee)) = negb s && (- 24 <=? ee).
Proof.
  intros Hd. pose proof (digits2_pos_bounds mm) as Hmm. rewrite Hd in Hmm.
  cbn [SF2Q]. pose proof (Qpow2_pos ee) as Hp.
  destruct s; cbn [negb andb cond_Zopp].
  - destruct (Qle_bool _ _) eqn:E; [|reflexivity].
    apply Qle_bool_iff in E. exfalso.
    assert (Hneg : (inject_Z (- Zpos mm) < inject_Z 0)%Q)
      by (rewrite <- Zlt_Qlt; lia).
    change (inject_Z 0) with 0%Q in Hneg. nra.
  - assert (H23 : (inject_Z (2 ^ 23) <= inject_Z (Zpos mm))%Q)
      by (rewrite <- Zle_Qle; lia).
    assert (H24 : (inject_Z (Zpos mm) < inject_Z (2 ^ 24))%Q)
      by (rewrite <- Zlt_Qlt; lia).
    destruct (Z.leb_spec (- 24) ee) as [Hge|Hlt].
    + apply Qle_bool_iff.
      assert (Hm : (2 ^ (- 24) <= 2 ^ ee)%Q)
        by (apply Qpower_le_compat_l; [lia|discriminate]).
      change (2 ^ (- 24))%Q with (1 # 16777216) in Hm.
      change (inject_Z (2 ^ 23)) with (8388608 # 1) in H23.
      nra.
    + destruct (Qle_bool _ _) eqn:E; [|reflexivity].
      apply Qle_bool_iff in E. exfalso.
      assert (Hm : (2 ^ ee <= 2 ^ (- 25))%Q)
        by (apply Qpower_le_compat_l; [lia|discriminate]).
      change (2 ^ (- 25))%Q with (1 # 33554432) in Hm.
      change (inject_Z (2 ^ 24)) with (16777216 # 1) in H24.
      nra.
Qed.

(** ** [float2Int] against the algorithm of the specification *)

Lemma rounded_agrees (x : float) :
  is_float x = true ->
  (if SFleb double_0_5 (double_of_float (fmul x ScaleFloat2Int))
   then fadd (fmul x ScaleFloat2Int) (float_of_int 1)
   else fmul x ScaleFloat2Int)
  = toWire_rounded x.
Proof.
  intros Hx. unfold toWire_rounded.
  pose proof (toWire_scaled_shape x Hx) as Hs. unfold toWire_scaled in *.
  destruct Hs as [|s|s|s mm ee Hd He].
  - reflexivity.
  - destruct s; reflexivity.
  - destruct s; reflexivity.
  - now rewrite ge_half_normal, Qle_half_normal.
Qed.

Lemma shl32_clamp24 (t : Z) : shl32 (clamp24 t) 8 = Z.shiftl (clamp24 t) 8.
Proof.
  unfold shl32. apply wrap32_small. rewrite Z.shiftl_mul_pow2 by lia.
  unfold clamp24. lia.
Qed.

Lemma int_of_float_Some (x : float) (y : Z) :
  int_of_float x = Some y <-> Ztrunc x = Some y /\ - 2 ^ 31 <= y < 2 ^ 31.
Proof.
  unfold int_of_float, in_int32. destruct (Ztrunc x) as [t|]; [|split; [discriminate|intros [? _]; discriminate]].
  destruct (Z.leb_spec (- 2 ^ 31) t), (Z.ltb_spec t (2 ^ 31)); cbn [andb];
    split; try discriminate; try (intros [E ?]; injection E as ->; lia).
  - intros E. injection E as ->. split; [reflexivity|lia].
  - intros [E ?]. exact E.
Qed.

(** [float2Int] once its conversions are resolved. *)
Lemma float2Int_unfolded (sample : float) :
  float2Int sample
  = match int_of_float
            (if SFleb double_0_5 (double_of_float (fmul sample ScaleFloat2Int))
             then fadd (fmul sample ScaleFloat2Int) (float_of_int 1)
             else fmul sample ScaleFloat2Int) with
    | Some y => Some (Z.shiftl (clamp24 y) 8)
    | None => None
    end.
Proof.
  unfold float2Int.
  destruct (int_of_float _) as [y|] eqn:Hy; [|reflexivity].
  apply int_of_float_Some in Hy as [_ Hy].
  rewrite constrain_through_float by assumption.
  now rewrite shl32_clamp24.
Qed.

Lemma int2Float_finite (w : Z) :
  - 2 ^ 31 <= w < 2 ^ 31 -> is_finite (int2Float w) = true.
Proof.
  intros Hw.
  assert (Hpos : forall m : positive,
             Zpos m <= 2 ^ 31 -> is_finite (int2Float (Zpos m)) = true).
  { intros m Hm. unfold int2Float.
    destruct (float_of_int_pos m (digits_le_32 m Hm))
      as (mm & ee & -> & Hd & Hcase).
    rewrite fmul_ScaleInt2Float; [reflexivity|assumption|].
    pose proof (digits2_pos_bounds m).
    destruct Hcase as [(? & _ & ->)|(_ & ?)]; lia. }
  destruct w as [|m|m].
  - reflexivity.
  - apply Hpos. lia.
  - change (Zneg m) with (- Zpos m). rewrite int2Float_opp by lia.
    specialize (Hpos m ltac:(lia)).
    destruct (int2Float (Zpos m)); try discriminate; reflexivity.
Qed.

(** C4: [int2Float] yields a finite float for every 32-bit integer, and for
    every wire-format sample [w] that float is [w * 2^-31] exactly. *)
Theorem int2Float_total_and_exact :
  (forall w : Z, - 2 ^ 31 <= w < 2 ^ 31 -> is_finite (int2Float w) = true) /\
  (forall w : Z, wire_sample w ->
                 (SF2Q (int2Float w) == inject_Z w * 2 ^ (- 31))%Q).
Proof.
  split; [exact int2Float_finite|].
  intros w [Hr Hz]. apply Z.mod_divide in Hz; [|lia]. destruct Hz as [v ->].
  apply int2Float_exact; lia.
Qed.

Lemma int2Float_total_and_exact_witness :
  is_finite (int2Float 1610612736) = true /\
  (SF2Q (int2Float 1610612736) == 3 # 4)%Q.
Proof.
  destruct int2Float_total_and_exact as [Hfin Hex]. split.
  - apply Hfin. lia.
  - rewrite Hex; [vm_compute; reflexivity|]. split; [lia|reflexivity].
Defined.

(** Outside the wire format the conversion to [float] rounds: 2^24 + 1 has
    25 significant bits and is taken to 2^24. *)
Lemma int2Float_rounds_25_bits :
  int2Float 16777217 = int2Float 16777216 /\
  ~ (SF2Q (int2Float 16777217) == inject_Z 16777217 * 2 ^ (- 31))%Q.
Proof. split; [reflexivity|]. vm_compute. discriminate. Qed.

(** ** The sum [sample + 1] *)

Lemma round_half_even_scale (a j n : Z) :
  0 <= j -> 0 < n ->
  round_half_even (a * 2 ^ j) (j + n) = round_half_even a n.
Proof.
  intros Hj Hn. unfold round_half_even.
  assert (Hpj : 0 < 2 ^ j) by (apply Z.pow_pos_nonneg; lia).
  assert (Hpn : 0 < 2 ^ n) by (apply Z.pow_pos_nonneg; lia).
  assert (Hph : 0 < 2 ^ (n - 1)) by (apply Z.pow_pos_nonneg; lia).
  assert (E1 : 2 ^ (j + n) = 2 ^ n * 2 ^ j)
    by (rewrite <- pow2_split by lia; f_equal; lia).
  assert (E2 : 2 ^ (j + n - 1) = 2 ^ (n - 1) * 2 ^ j)
    by (rewrite <- pow2_split by lia; f_equal; lia).
  rewrite E1, E2, Z.div_mul_cancel_r, Z.mul_mod_distr_r by lia.
  destruct (Z.ltb_spec (a mod 2 ^ n) (2 ^ (n - 1))),
    (Z.ltb_spec (a mod 2 ^ n * 2 ^ j) (2 ^ (n - 1) * 2 ^ j)); try nia;
    try reflexivity.
  destruct (Z.ltb_spec (2 ^ (n - 1)) (a mod 2 ^ n)),
    (Z.ltb_spec (2 ^ (n - 1) * 2 ^ j) (a mod 2 ^ n * 2 ^ j)); try nia;
    reflexivity.
Qed.

Lemma shl_align_fst (m : positive) (e ez : Z) :
  ez <= e -> Zpos (fst (shl_align m e ez)) = Zpos m * 2 ^ (e - ez).
Proof.
  intros He. unfold shl_align.
  destruct (ez - e) as [|q|q] eqn:E; cbn [fst]; try lia.
  - replace (e - ez) with 0 by lia. cbn. lia.
  - rewrite Zpos_iter_xO. f_equal. f_equal. lia.
Qed.

(** Line 54, [sample+1] for a scaled sample in [0.5, 2^23): the integer part
    [t] of the binary32 sum is at least that of the exact sum, and exceeds
    the exact sum by no more than one unit in [2^k], [k] being the number of
    fraction bits of the sample; it exceeds it at all only when the sum
    needs a 25th bit. *)
Lemma fadd_one_trunc (mm : positive) (k : Z) :
  Zpos (digits2_pos mm) = 24 -> 1 <= k <= 24 ->
  exists t,
    Ztrunc (fadd (S754_finite false mm (- k)) (float_of_int 1)) = Some t /\
    (Zpos mm + 2 ^ k) / 2 ^ k <= t /\
    (2 ^ k * t <= Zpos mm + 2 ^ k \/
     (2 ^ 24 <= Zpos mm + 2 ^ k /\ 2 ^ k * t <= Zpos mm + 2 ^ k + 1)).
Proof.
  intros Hd Hk.
  pose proof (digits2_pos_bounds mm) as Hmm. rewrite Hd in Hmm.
  change (2 ^ (24 - 1)) with 8388608 in Hmm. change (2 ^ 24) with 16777216 in *.
  assert (HK : 2 <= 2 ^ k).
  { change 2 with (2 ^ 1) at 1. apply Z.pow_le_mono_r; lia. }
  assert (HK24 : 2 ^ k <= 16777216).
  { change 16777216 with (2 ^ 24). apply Z.pow_le_mono_r; lia. }
  set (K := 2 ^ k) in *. set (A := Zpos mm + K).
  assert (HAdef : A = Zpos mm + K) by reflexivity. clearbody A.
  change (float_of_int 1) with (S754_finite false 8388608 (- 23)).
  unfold fadd. cbn [SFadd cond_Zopp].
  set (ez := Z.min (- k) (- 23)).
  rewrite !shl_align_fst by (unfold ez; lia).
  set (j := - ez - k).
  assert (Hj : 0 <= j) by (unfold j, ez; lia).
  assert (Hpj : 0 < 2 ^ j) by (apply Z.pow_pos_nonneg; lia).
  assert (HM : Zpos mm * 2 ^ (- k - ez) + 8388608 * 2 ^ (- 23 - ez) = A * 2 ^ j).
  { rewrite HAdef. replace (- k - ez) with j by (unfold j; lia).
    rewrite Z.mul_add_distr_r. f_equal.
    change 8388608 with (2 ^ 23). unfold K.
    rewrite <- !pow2_split by (unfold j, ez; lia).
    f_equal. unfold j. lia. }
  rewrite HM.
  destruct (Z.lt_ge_cases A 16777216) as [Hlt|Hge].
  - (* the sum fits 24 bits: exact *)
    assert (HA : Zpos (digits2_pos (Z.to_pos A)) = 24).
    { apply digits2_pos_unique. rewrite Z2Pos.id by lia.
      change (2 ^ (24 - 1)) with 8388608. change (2 ^ 24) with 16777216.
      lia. }
    replace (A * 2 ^ j) with (Zpos (Z.to_pos A) * 2 ^ j)
      by (rewrite Z2Pos.id by lia; reflexivity).
    rewrite binary_normalize_exact by (rewrite ?HA; unfold j; lia).
    rewrite HA. replace (24 + j + ez - 24) with (- k) by (unfold j; lia).
    change (2 ^ (24 - 24)) with 1. rewrite Z.mul_1_r, Pos2Z.id.
    exists (A / K). split.
    + cbn [Ztrunc cond_Zopp]. rewrite Z.shiftl_div_pow2 by lia.
      rewrite Z.opp_involutive, Z2Pos.id by lia. reflexivity.
    + split; [lia|]. left.
      apply Z.mul_div_le. lia.
  - (* the sum needs 25 bits: rounded to 24 *)
    assert (HA25 : A < 2 * 16777216) by lia.
    destruct (A * 2 ^ j) as [|M|M] eqn:EM; try nia.
    assert (HdM : Zpos (digits2_pos M) = 25 + j).
    { apply digits2_pos_unique. rewrite <- EM.
      replace (25 + j - 1) with (24 + j) by lia.
      rewrite !pow2_split by lia.
      change (2 ^ 25) with (2 * 16777216). change (2 ^ 24) with 16777216. nia. }
    cbn [binary_normalize].
    rewrite binary_round_long by (rewrite HdM, fexp32; unfold ez; lia).
    rewrite binary_round_aux_inexact by (rewrite HdM; unfold ez; lia).
    rewrite HdM, <- EM.
    replace (25 + j - 24) with (j + 1) by lia.
    rewrite round_half_even_scale by lia.
    pose proof (round_half_even_bounds A 1 ltac:(lia)) as [Hq1 Hq2].
    change (2 ^ 1) with 2 in Hq1, Hq2.
    set (q := round_half_even A 1) in *.
    assert (Hdiv : A / 2 / 2 ^ (k - 1) = A / K).
    { rewrite Z.div_div by (try apply Z.pow_pos_nonneg; lia).
      f_equal. unfold K. rewrite <- Z.pow_succ_r by lia. f_equal. lia. }
    assert (HK2 : K = 2 * 2 ^ (k - 1)).
    { unfold K. rewrite <- Z.pow_succ_r by lia. f_equal. lia. }
    assert (Hph : 0 < 2 ^ (k - 1)) by (apply Z.pow_pos_nonneg; lia).
    replace (ez + (j + 1)) with (1 - k) by (unfold j; lia).
    change (2 ^ 24) with 16777216.
    destruct (Z.ltb_spec q 16777216) as [Hq|Hq].
    + replace (1 - k <=? 104) with true by (symmetry; apply Z.leb_le; lia).
      exists (q / 2 ^ (k - 1)). split.
      * cbn [Ztrunc cond_Zopp]. rewrite Z.shiftl_div_pow2 by lia.
        rewrite Z2Pos.id by lia. do 2 f_equal. f_equal. lia.
      * split.
        -- rewrite <- Hdiv. apply Z.div_le_mono; lia.
        -- right. split; [lia|].
           pose proof (Z.mul_div_le q (2 ^ (k - 1)) Hph). nia.
    + replace (1 - k + 1 <=? 104) with true by (symmetry; apply Z.leb_le; lia).
      assert (Hq24 : q = 16777216) by lia.
      exists (q / 2 ^ (k - 1)). split.
      * cbn [Ztrunc cond_Zopp]. rewrite Hq24.
        destruct (Z.eq_dec k 1) as [->|Hk1]; [reflexivity|].
        rewrite Z.shiftl_div_pow2 by lia.
        replace (- (1 - k + 1)) with (k - 2) by lia.
        assert (E : 2 ^ (k - 1) = 2 * 2 ^ (k - 2)).
        { rewrite <- Z.pow_succ_r by lia. f_equal. lia. }
        rewrite E. change 16777216 with (8388608 * 2).
        assert (0 < 2 ^ (k - 2)) by (apply Z.pow_pos_nonneg; lia).
        rewrite (Z.mul_comm 2), Z.div_mul_cancel_r by lia. reflexivity.
      * split.
        -- rewrite <- Hdiv. apply Z.div_le_mono; lia.
        -- right. split; [lia|].
           pose proof (Z.mul_div_le q (2 ^ (k - 1)) Hph). nia.
Qed.

(** ** The round trip *)

Lemma int_of_float_finite (s : bool) (mm : positive) (k : Z) :
  0 <= k -> Zpos mm < 2 ^ 24 ->
  int_of_float (S754_finite s mm (- k))
  = Some (cond_Zopp s (Zpos mm / 2 ^ k)).
Proof.
  intros Hk Hmm. unfold int_of_float. cbn [Ztrunc].
  rewrite Z.shiftl_div_pow2, Z.opp_involutive by lia.
  assert (Hp : 0 < 2 ^ k) by (apply Z.pow_pos_nonneg; lia).
  assert (Hq : 0 <= Zpos mm / 2 ^ k <= Zpos mm).
  { split; [apply Z.div_pos; lia|]. apply Z.div_le_upper_bound; nia. }
  unfold in_int32.
  replace ((- 2 ^ 31 <=? cond_Zopp s (Zpos mm / 2 ^ k))
           && (cond_Zopp s (Zpos mm / 2 ^ k) <? 2 ^ 31)) with true;
    [reflexivity|].
  symmetry. apply andb_true_iff.
  split; [apply Z.leb_le|apply Z.ltb_lt]; destruct s; cbn [cond_Zopp]; lia.
Qed.

(** [float2Int] on a sample whose scaled value is [(-1)^s * mm * 2^-k], of
    magnitude at most 2^23 (below 2^23 if positive): the 24-bit integer [y]
    it shifts into the wire sample is within 5/4 of the scaled value. *)
Lemma float2Int_scaled_error (x : float) (s : bool) (mm : positive) (k : Z) :
  fmul x ScaleFloat2Int = S754_finite s mm (- k) ->
  Zpos (digits2_pos mm) = 24 -> 0 <= k <= 149 ->
  (if s then Zpos mm <= 2 ^ 23 * 2 ^ k else Zpos mm < 2 ^ 23 * 2 ^ k) ->
  exists y,
    float2Int x = Some (Z.shiftl y 8) /\
    - 2 ^ 23 <= y <= 2 ^ 23 - 1 /\
    - (5 * 2 ^ k) <= 4 * (2 ^ k * y - cond_Zopp s (Zpos mm)) <= 5 * 2 ^ k.
Proof.
  intros Hsc Hd Hk Hrange.
  pose proof (digits2_pos_bounds mm) as Hmm. rewrite Hd in Hmm.
  change (2 ^ (24 - 1)) with 8388608 in Hmm. change (2 ^ 24) with 16777216 in Hmm.
  change (2 ^ 23) with 8388608 in *.
  assert (HK : 0 < 2 ^ k) by (apply Z.pow_pos_nonneg; lia).
  rewrite float2Int_unfolded, Hsc, ge_half_normal by (assumption || lia).
  set (K := 2 ^ k) in *.
  pose proof (Z.div_mod (Zpos mm) K ltac:(lia)) as Hdm.
  pose proof (Z.mod_pos_bound (Zpos mm) K HK) as Hmod.
  destruct s; cbn [negb andb cond_Zopp] in *.
  - (* negative: truncation toward zero *)
    rewrite int_of_float_finite by (cbn; lia). fold K. cbn [cond_Zopp].
    exists (- (Zpos mm / K)).
    assert (Hq : 0 <= Zpos mm / K <= 8388608).
    { split; [apply Z.div_pos; lia|]. apply Z.div_le_upper_bound; lia. }
    rewrite clamp24_inside by (cbn; lia).
    split; [reflexivity|]. split; [cbn; lia|]. nia.
  - destruct (Z.leb_spec (- 24) (- k)) as [Hge|Hlt].
    + (* at least 0.5: one is added *)
      assert (Hk1 : 1 <= k).
      { destruct (Z.eq_dec k 0) as [E|E]; [|lia].
        exfalso. unfold K in Hrange. rewrite E in Hrange. cbn in Hrange. lia. }
      destruct (fadd_one_trunc mm k Hd ltac:(lia)) as (t & Ht & Hlo & Hhi).
      fold K in Hlo, Hhi. change (2 ^ 24) with 16777216 in Hhi.
      pose proof (Z.div_mod (Zpos mm + K) K ltac:(lia)) as HdA.
      pose proof (Z.mod_pos_bound (Zpos mm + K) K HK) as HmA.
      assert (HK2 : 2 <= K).
      { change 2 with (2 ^ 1). apply Z.pow_le_mono_r; lia. }
      assert (HKt : Zpos mm + 1 <= K * t) by nia.
      assert (Ht0 : 1 <= t) by nia.
      assert (Htu : t <= 16777216 + 16777216).
      { assert (HK24 : K <= 16777216).
        { change 16777216 with (2 ^ 24). apply Z.pow_le_mono_r; lia. }
        nia. }
      assert (Hi : int_of_float (fadd (S754_finite false mm (- k)) (float_of_int 1))
                   = Some t).
      { apply int_of_float_Some. split; [exact Ht|]. cbn; lia. }
      rewrite Hi. exists (clamp24 t).
      split; [reflexivity|]. split; [unfold clamp24; cbn; lia|].
      destruct (Z.le_gt_cases t (8388608 - 1)) as [Hin|Hout].
      * rewrite clamp24_inside by (cbn; lia).
        destruct Hhi as [Hex|[HA Hinex]]; [lia|].
        assert (HK4 : 4 <= K).
        { destruct (Z.eq_dec k 1) as [E|E].
          - exfalso. unfold K in *. rewrite E in *. change (2 ^ 1) with 2 in *.
            lia.
          - change 4 with (2 ^ 2). apply Z.pow_le_mono_r; lia. }
        lia.
      * rewrite clamp24_above by (cbn; lia). change (2 ^ 23 - 1) with 8388607.
        assert (K * 8388608 <= K * t) by nia.
        destruct Hhi as [Hex|[HA Hinex]]; lia.
    + (* below 0.5: truncated to zero *)
      rewrite int_of_float_finite by (cbn; lia). fold K. cbn [cond_Zopp].
      assert (HK25 : 2 ^ 25 <= K) by (apply Z.pow_le_mono_r; lia).
      change (2 ^ 25) with 33554432 in HK25.
      rewrite Z.div_small by lia.
      exists 0. split; [reflexivity|]. split; [cbn; lia|]. lia.
Qed.

Lemma Qpow2_neg_mul (k : Z) : 0 <= k -> (2 ^ (- k) * inject_Z (2 ^ k) == 1)%Q.
Proof.
  intros Hk. rewrite inject_Z_pow2, <- Qpow2_add by assumption.
  replace (- k + k) with 0 by lia. reflexivity.
Qed.

(** From the integer bound to the rational one. *)
Lemma error_bound_Q (y s k : Z) :
  0 <= k ->
  - (5 * 2 ^ k) <= 4 * (2 ^ k * y - s) <= 5 * 2 ^ k ->
  (Qabs (inject_Z y * 2 ^ (- 23) - inject_Z s * 2 ^ (- k - 23))
   <= 2 ^ (- 23) + 2 ^ (- 25))%Q.
Proof.
  intros Hk [Hlo Hhi].
  assert (HK : 0 < 2 ^ k) by (apply Z.pow_pos_nonneg; lia).
  pose proof (Qpow2_neg_mul k Hk) as Hu.
  pose proof (Qpow2_pos (- k)) as Hu0.
  replace (- k - 23) with (- k + - 23) by lia. rewrite Qpow2_add.
  change (2 ^ (- 23))%Q with (1 # 8388608).
  change (2 ^ (- 25))%Q with (1 # 33554432).
  unfold Z.sub in Hlo, Hhi. rewrite Zle_Qle in Hlo, Hhi.
  rewrite inject_Z_opp in Hlo.
  rewrite !inject_Z_mult, inject_Z_plus, inject_Z_opp, !inject_Z_mult in Hlo, Hhi.
  assert (HP : (0 < inject_Z (2 ^ k))%Q).
  { change 0%Q with (inject_Z 0). rewrite <- Zlt_Qlt. exact HK. }
  set (P := inject_Z (2 ^ k)) in *. set (u := (2 ^ (- k))%Q) in *.
  set (Y := inject_Z y) in *. set (S := inject_Z s) in *.
  change (inject_Z 5) with (5 # 1) in Hlo, Hhi.
  change (inject_Z 4) with (4 # 1) in Hlo, Hhi.
  pose (t := (S * u)%Q). assert (Ht : (t == S * u)%Q) by reflexivity.
  assert (HS : (S == t * P)%Q).
  { unfold t. rewrite <- Qmult_assoc, Hu. ring. }
  clearbody t. rewrite HS in Hlo, Hhi. clearbody P u Y S.
  apply Qabs_Qle_condition. split; nra.
Qed.

(** C3, as the code has it: for every binary32 sample [x] with
    [-1 <= x < 1], [float2Int] is defined and converting its result back with
    [int2Float] gives a value within [2^-23 + 2^-25] of [x], one quantization
    step and a quarter. *)
Theorem round_trip_within_a_step_and_a_quarter (x : float) :
  is_float x = true -> is_finite x = true ->
  (- 1 <= SF2Q x)%Q -> (SF2Q x < 1)%Q ->
  exists w,
    float2Int x = Some w /\
    (Qabs (SF2Q (int2Float w) - SF2Q x) <= 2 ^ (- 23) + 2 ^ (- 25))%Q.
Proof.
  intros Hx Hfin Hlo Hhi.
  destruct x as [s|s| |s m e]; try discriminate.
  - exists 0. destruct s; split; try reflexivity; vm_compute; discriminate.
  - cbn in Hx. destruct (bounded_shape m e Hx) as (Hd & He & Hcase).
    set (d := Zpos (digits2_pos m)) in *.
    set (mm := Z.to_pos (Zpos m * 2 ^ (24 - d))).
    assert (Hdmm : Zpos (digits2_pos mm) = 24).
    { unfold mm. rewrite (digits_mul_pow2 m (24 - d) d) by (lia || reflexivity).
      lia. }
    pose proof (digits2_pos_bounds mm) as Hmm. rewrite Hdmm in Hmm.
    change (2 ^ (24 - 1)) with 8388608 in Hmm.
    change (2 ^ 24) with 16777216 in Hmm.
    (* the sample in terms of its scaled mantissa *)
    assert (Hval : (SF2Q (S754_finite s m e)
                    == inject_Z (cond_Zopp s (Zpos mm)) * 2 ^ (e + d - 1 - 23))%Q).
    { transitivity (SF2Q (S754_finite s mm (e + d - 1 - 23))); [|reflexivity].
      unfold mm. rewrite SF2Q_scaled by lia.
      replace (24 - d + (e + d - 1 - 23)) with e by lia. reflexivity. }
    rewrite Hval in Hlo, Hhi.
    assert (H23 : (inject_Z 8388608 <= inject_Z (Zpos mm))%Q)
      by (rewrite <- Zle_Qle; lia).
    change (inject_Z 8388608) with (8388608 # 1) in H23.
    (* the scaled value has no integer bits beyond the 23rd *)
    assert (Hee : e + d - 1 <= 0).
    { destruct (Z.le_gt_cases (e + d - 1) 0) as [|Hgt]; [assumption|exfalso].
      assert (Hp : (2 ^ (- 22) <= 2 ^ (e + d - 1 - 23))%Q)
        by (apply Qpower_le_compat_l; [lia|discriminate]).
      change (2 ^ (- 22))%Q with (1 # 4194304) in Hp.
      destruct s; cbn [cond_Zopp] in Hlo, Hhi.
      - change (Zneg mm) with (- Zpos mm) in Hlo. rewrite inject_Z_opp in Hlo.
        nra.
      - nra. }
    set (k := - (e + d - 1)).
    assert (Hk : 0 <= k <= 149) by (unfold k; lia).
    assert (HK : 0 < 2 ^ k) by (apply Z.pow_pos_nonneg; lia).
    replace (e + d - 1 - 23) with (- k - 23) in Hlo, Hhi, Hval by (unfold k; lia).
    assert (Hsc : fmul (S754_finite s m e) ScaleFloat2Int
                  = S754_finite s mm (- k)).
    { rewrite fmul_ScaleFloat2Int by assumption. fold d.
      replace (e + d - 1 <=? 104) with true by (symmetry; apply Z.leb_le; lia).
      unfold mm, k. f_equal. lia. }
    (* the range of the sample, on the mantissa *)
    pose proof (Qpow2_neg_mul k (proj1 Hk)) as Hu.
    pose proof (Qpow2_pos (- k)) as Hu0.
    assert (HP : (0 < inject_Z (2 ^ k))%Q).
    { change 0%Q with (inject_Z 0). rewrite <- Zlt_Qlt. exact HK. }
    assert (Hrange : if s then Zpos mm <= 2 ^ 23 * 2 ^ k
                     else Zpos mm < 2 ^ 23 * 2 ^ k).
    { replace (- k - 23) with (- k + - 23) in Hlo, Hhi by lia.
      rewrite Qpow2_add in Hlo, Hhi.
      change (2 ^ (- 23))%Q with (1 # 8388608) in Hlo, Hhi.
      change (2 ^ 23) with 8388608.
      destruct s; cbn [cond_Zopp] in Hlo, Hhi.
      - change (Zneg mm) with (- Zpos mm) in Hlo. rewrite inject_Z_opp in Hlo.
        rewrite Zle_Qle, inject_Z_mult.
        change (inject_Z 8388608) with (8388608 # 1).
        set (M := inject_Z (Zpos mm)) in *. set (P := inject_Z (2 ^ k)) in *.
        set (u := (2 ^ (- k))%Q) in *.
        pose (t := (M * u)%Q). assert (Ht : (t == M * u)%Q) by reflexivity.
        assert (HM : (M == t * P)%Q)
          by (unfold t; rewrite <- Qmult_assoc, Hu; ring).
        clearbody t. rewrite HM. clearbody P u M. nra.
      - rewrite Zlt_Qlt, inject_Z_mult.
        change (inject_Z 8388608) with (8388608 # 1).
        set (M := inject_Z (Zpos mm)) in *. set (P := inject_Z (2 ^ k)) in *.
        set (u := (2 ^ (- k))%Q) in *.
        pose (t := (M * u)%Q). assert (Ht : (t == M * u)%Q) by reflexivity.
        assert (HM : (M == t * P)%Q)
          by (unfold t; rewrite <- Qmult_assoc, Hu; ring).
        clearbody t. rewrite HM. clearbody P u M. nra. }
    destruct (float2Int_scaled_error _ s mm k Hsc Hdmm Hk Hrange)
      as (y & Hy & Hyr & Herr).
    exists (Z.shiftl y 8). split; [exact Hy|].
    rewrite Hval, Z.shiftl_mul_pow2 by lia.
    rewrite int2Float_exact by (cbn in Hyr |- *; lia).
    rewrite inject_Z_mul_pow2 by lia. change (8 + - 31) with (- 23).
    exact (error_bound_Q y (cond_Zopp s (Zpos mm)) k (proj1 Hk) Herr).
Qed.

Lemma round_trip_within_a_step_and_a_quarter_witness :
  exists w,
    float2Int (S754_finite false 12582912 (- 24)) = Some w /\
    (Qabs (SF2Q (int2Float w) - SF2Q (S754_finite false 12582912 (- 24)))
     <= 2 ^ (- 23) + 2 ^ (- 25))%Q.
Proof.
  apply round_trip_within_a_step_and_a_quarter.
  - reflexivity.
  - reflexivity.
  - vm_compute. intros H. discriminate H.
  - vm_compute. reflexivity.
Defined.

(** C3 as stated fails at [x = 0.5 - 2^-25]: the scaled sample is
    [2^22 - 0.25], the binary32 sum with 1 is a tie and rounds up to
    [2^22 + 1], which is not clamped, and the value read back is
    [2^-23 + 2^-25] away from [x]. *)
Lemma round_trip_exceeds_one_step :
  is_float below_half = true /\
  (- 1 <= SF2Q below_half)%Q /\ (SF2Q below_half < 1)%Q /\
  Ztrunc (toWire_rounded below_half) = Some 4194305 /\
  clamp24 4194305 = 4194305 /\
  float2Int below_half = Some 1073742080 /\
  (SF2Q (int2Float 1073742080) - SF2Q below_half == 2 ^ (- 23) + 2 ^ (- 25))%Q /\
  ~ (Qabs (SF2Q (int2Float 1073742080) - SF2Q below_half) <= 2 ^ (- 23))%Q.
Proof.
  split; [reflexivity|].
  split; [vm_compute; intros H; discriminate H|].
  split; [vm_compute; reflexivity|].
  split; [vm_compute; reflexivity|].
  split; [reflexivity|].
  split; [vm_compute; reflexivity|].
  split; [vm_compute; reflexivity|].
  intros H. vm_compute in H. apply H. reflexivity.
Qed.

(** * The block transport *)

Section DriverFacts.
Context {P : Type} `{Platform P}.

Ltac step :=
  unfold setup, enable, readBlock, writeBlock, bind, ret, get_this,
    modify_this, emit, call, static_const_i2s_config,
    static_const_pin_config, calloc, read_into, write_from;
  cbn [this platform heap static_i2s_config static_pin_config log
       fs channelCount i2sPort enablePin i2sBufferSize i2sReadBuffer
       i2sWriteBuffer fst snd].

Ltac red_state :=
  cbv beta iota zeta delta
    [setup_with setup setup_outcome setup_calls dma_zero_step rate_set_step
     pin_bind_step install_step config_in_force pins_in_force selector
     arg_fs arg_channelCount arg_bitClkPin arg_lrClkPin arg_dataOutPin
     arg_dataInPin arg_enablePin arg_i2s_port
     bind ret get_this modify_this emit call
     static_const_i2s_config static_const_pin_config calloc
     this platform heap static_i2s_config static_pin_config log
     fs channelCount i2sPort enablePin i2sBufferSize i2sReadBuffer
     i2sWriteBuffer fst snd].

Lemma setup_runs (a : setup_args) (w : World P) :
  setup_with a w = Some (setup_outcome a w).
Proof.
  destruct a as [f c bck ws dout din en port].
  destruct w as [t p h [cfg|] [pins|] l]; red_state;
    repeat match goal with
           | |- context [let (_, _) := ?x in _] => destruct x; red_state
           end;
    repeat match goal with
           | |- context [if ?b then _ else _] => destruct b; red_state
           end;
    repeat rewrite <- app_assoc; reflexivity.
Qed.

Lemma words_of_bytes_4 (k : Z) : words_of_bytes (k * 4) = Z.to_nat k.
Proof.
  unfold words_of_bytes. f_equal.
  replace (k * 4 + 3) with (3 + k * 4) by lia.
  rewrite Z.div_add by lia. reflexivity.
Qed.

Lemma Configured_read_size (w : World P) :
  Configured w ->
  umul32 (i2sBufferSize (this w)) sizeof_int32_t
  = channelCount (this w) * BufferSize * 4.
Proof.
  intros (Hr & Hs & _). rewrite Hs. unfold umul32, sizeof_int32_t.
  apply uwrap32_small. lia.
Qed.

Lemma Configured_write_size (w : World P) :
  Configured w ->
  umul32 (mul32 (channelCount (this w)) BufferSize) sizeof_int32_t
  = channelCount (this w) * BufferSize * 4.
Proof.
  intros (Hr & _). unfold umul32, mul32, sizeof_int32_t.
  rewrite wrap32_small by lia. apply uwrap32_small. lia.
Qed.

Lemma block_for_buffer (w : World P) (p : pointer) (blk : list Z) (k : Z) :
  buffer_at w p = Some blk -> Z.of_nat (length blk) = k ->
  block_for w p (k * 4) = Some blk.
Proof.
  intros Hb Hl. destruct p as [b|]; [|discriminate].
  unfold block_for. cbn [buffer_at] in Hb. rewrite Hb, words_of_bytes_4.
  rewrite <- Hl, Nat2Z.id, Nat.leb_refl. reflexivity.
Qed.

(** [readBlock] in a state where the transfer has a block to work on. *)
Lemma readBlock_runs (w : World P) (old : list Z) :
  let t := this w in
  let size := umul32 (i2sBufferSize t) sizeof_int32_t in
  let a := i2s_read (i2sPort t) size 0 500 (platform w) in
  let err := fst (fst (fst a)) in
  let n := snd (fst (fst a)) in
  let data := snd (fst a) in
  block_for w (i2sReadBuffer t) size = Some old ->
  readBlock w
  = Some (err,
          {| this := t;
             platform := snd a;
             heap := match i2sReadBuffer t with
                     | Some b => set_block b (overwrite (words_of_bytes size) data old)
                                           (heap w)
                     | None => heap w
                     end;
             static_i2s_config := static_i2s_config w;
             static_pin_config := static_pin_config w;
             log := log w ++
                    read_call (i2sPort t) (i2sReadBuffer t) size 500 ::
                    (if negb (err =? 0) || (n <? size)
                     then [Serial_print "I2S read error: "%string;
                           Serial_println n]
                     else []) |}).
Proof.
  intros t size a err n data Hb. subst err n data a size t. step.
  rewrite Hb.
  destruct (i2s_read _ _ _ _ _) as [[[err n] data] p']. step.
  destruct (negb (err =? 0) || (n <? _)); step;
    repeat rewrite <- app_assoc; reflexivity.
Qed.

(** [writeBlock] in a state where the transfer has a block to work on. *)
Lemma writeBlock_runs (w : World P) (blk : list Z) :
  let t := this w in
  let size := umul32 (mul32 (channelCount t) BufferSize) sizeof_int32_t in
  let a := i2s_write (i2sPort t) (firstn (words_of_bytes size) blk) size 0 500
                     (platform w) in
  let err := fst (fst a) in
  let n := snd (fst a) in
  block_for w (i2sWriteBuffer t) size = Some blk ->
  writeBlock w
  = Some (err,
          {| this := t;
             platform := snd a;
             heap := heap w;
             static_i2s_config := static_i2s_config w;
             static_pin_config := static_pin_config w;
             log := log w ++
                    write_call (i2sPort t) (i2sWriteBuffer t) size 500 ::
                    (if n <? 1
                     then [Serial_print "I2S write error: "%string;
                           Serial_println n]
                     else []) |}).
Proof.
  intros t size a err n Hb. subst err n a size t. step.
  rewrite Hb.
  destruct (i2s_write _ _ _ _ _ _) as [[err n] p']. step.
  destruct (n <? 1); step; repeat rewrite <- app_assoc; reflexivity.
Qed.

Lemma readBlock_defined (w : World P) (r : Z) (w' : World P) :
  readBlock w = Some (r, w') ->
  exists old,
    block_for w (i2sReadBuffer (this w))
              (umul32 (i2sBufferSize (this w)) sizeof_int32_t) = Some old.
Proof.
  step. destruct (block_for w _ _) as [old|]; [eauto|discriminate].
Qed.

Lemma writeBlock_defined (w : World P) (r : Z) (w' : World P) :
  writeBlock w = Some (r, w') ->
  exists blk,
    block_for w (i2sWriteBuffer (this w))
              (umul32 (mul32 (channelCount (this w)) BufferSize) sizeof_int32_t)
    = Some blk.
Proof.
  step. destruct (block_for w _ _) as [blk|]; [eauto|discriminate].
Qed.

Lemma enable_runs (b : bool) (w : World P) :
  enable b w
  = Some (true,
          {| this := this w; platform := platform w; heap := heap w;
             static_i2s_config := static_i2s_config w;
             static_pin_config := static_pin_config w;
             log := log w ++ [digitalWrite (enablePin (this w)) b] |}).
Proof. reflexivity. Qed.

Lemma nth_error_set_block_other (h : list (list Z)) (b b' : nat) (blk : list Z) :
  b <> b' -> nth_error (set_block b blk h) b' = nth_error h b'.
Proof.
  revert b b'. induction h as [|x h IH]; intros b b' Hne; [reflexivity|].
  destruct b as [|b], b' as [|b']; cbn; try reflexivity; try congruence.
  apply IH. congruence.
Qed.

Lemma length_set_block (h : list (list Z)) (b : nat) (blk : list Z) :
  length (set_block b blk h) = length h.
Proof.
  revert b. induction h as [|x h IH]; intros b; [reflexivity|].
  destruct b; cbn; [reflexivity|]. now rewrite IH.
Qed.

Lemma length_overwrite (n : nat) (data old : list Z) :
  length (overwrite n data old) = length old.
Proof.
  unfold overwrite. rewrite length_app, length_firstn, length_skipn. lia.
Qed.

(** *** Frame properties of the block transfers *)

Lemma readBlock_frame (w : World P) (r : Z) (w' : World P) :
  readBlock w = Some (r, w') ->
  this w' = this w /\
  static_i2s_config w' = static_i2s_config w /\
  static_pin_config w' = static_pin_config w /\
  length (heap w') = length (heap w) /\
  (forall b, i2sReadBuffer (this w) <> Some b ->
             nth_error (heap w') b = nth_error (heap w) b) /\
  (forall blk, buffer_at w (i2sReadBuffer (this w)) = Some blk ->
     exists blk', buffer_at w' (i2sReadBuffer (this w)) = Some blk' /\
                  length blk' = length blk).
Proof.
  intros Hrun. destruct (readBlock_defined _ _ _ Hrun) as [old Hold].
  rewrite (readBlock_runs w old Hold) in Hrun.
  injection Hrun as _ <-. cbn [this static_i2s_config static_pin_config heap].
  repeat split; trivial.
  - destruct (i2sReadBuffer (this w)); [apply length_set_block|reflexivity].
  - intros b Hb. destruct (i2sReadBuffer (this w)) as [b0|]; [|reflexivity].
    apply nth_error_set_block_other. congruence.
  - intros blk Hblk. unfold buffer_at in *.
    destruct (i2sReadBuffer (this w)) as [b|]; [|discriminate].
    cbn [heap]. unfold block_for in Hold. rewrite Hblk in Hold.
    destruct (_ <=? _)%nat; [|discriminate]. injection Hold as <-.
    eexists. split; [|apply length_overwrite].
    clear -Hblk. revert b Hblk.
    induction (heap w) as [|x h IH]; intros [|b] Hb; cbn in *;
      try discriminate; [reflexivity|now apply IH].
Qed.

Lemma writeBlock_frame (w : World P) (r : Z) (w' : World P) :
  writeBlock w = Some (r, w') ->
  this w' = this w /\ heap w' = heap w /\
  static_i2s_config w' = static_i2s_config w /\
  static_pin_config w' = static_pin_config w.
Proof.
  intros Hrun. destruct (writeBlock_defined _ _ _ Hrun) as [blk Hblk].
  rewrite (writeBlock_runs w blk Hblk) in Hrun.
  injection Hrun as _ <-. repeat split.
Qed.

Lemma Configured_readBlock_runs (w : World P) :
  Configured w -> exists r w', readBlock w = Some (r, w').
Proof.
  intros Hc. pose proof (Configured_read_size w Hc) as Hs.
  destruct Hc as (_ & _ & _ & (rd & Hrd & Hl) & _).
  pose proof (block_for_buffer w _ rd _ Hrd Hl) as Hb.
  rewrite <- Hs in Hb. rewrite (readBlock_runs w rd Hb). eauto.
Qed.

Lemma Configured_writeBlock_runs (w : World P) :
  Configured w -> exists r w', writeBlock w = Some (r, w').
Proof.
  intros Hc. pose proof (Configured_write_size w Hc) as Hs.
  destruct Hc as (_ & _ & _ & _ & (wr & Hwr & Hl)).
  pose proof (block_for_buffer w _ wr _ Hwr Hl) as Hb.
  rewrite <- Hs in Hb. rewrite (writeBlock_runs w wr Hb). eauto.
Qed.

Lemma Configured_after_readBlock (w : World P) (r : Z) (w' : World P) :
  Configured w -> readBlock w = Some (r, w') -> Configured w'.
Proof.
  intros (Hr & Hs & Hne & (rd & Hrd & Hlr) & (wr & Hwr & Hlw)) Hrun.
  destruct (readBlock_frame _ _ _ Hrun) as (Ht & _ & _ & _ & Hother & Hsame).
  unfold Configured. rewrite Ht. repeat split; trivial; try lia.
  - destruct (Hsame rd Hrd) as (blk' & Hb' & Hl').
    exists blk'. split; [exact Hb'|]. now rewrite Hl'.
  - exists wr. split; [|exact Hlw].
    destruct (i2sWriteBuffer (this w)) as [b|]; [|discriminate].
    cbn [buffer_at] in *. rewrite Hother; [exact Hwr|]. congruence.
Qed.

Lemma Configured_after_writeBlock (w : World P) (r : Z) (w' : World P) :
  Configured w -> writeBlock w = Some (r, w') -> Configured w'.
Proof.
  intros Hc Hrun.
  destruct (writeBlock_frame _ _ _ Hrun) as (Ht & Hh & _).
  unfold Configured, buffer_at in *. rewrite Ht, Hh. exact Hc.
Qed.

(** C10: [readBlock] and [writeBlock] leave every data member of the object
    as it was (sample rate, channel count, selector, enable pin, buffer
    length, both buffer pointers). [readBlock] changes no block but the one
    the read pointer designates, so the write buffer keeps its contents
    whenever the two pointers differ, as they do in the Configured state;
    [writeBlock] changes no block at all. In the Configured state both
    calls are defined. *)
Theorem transfers_preserve_configuration :
  (forall (w : World P) r w',
      readBlock w = Some (r, w') ->
      this w' = this w /\
      (forall b, i2sReadBuffer (this w) <> Some b ->
                 nth_error (heap w') b = nth_error (heap w) b) /\
      (i2sReadBuffer (this w) <> i2sWriteBuffer (this w) ->
       buffer_at w' (i2sWriteBuffer (this w'))
       = buffer_at w (i2sWriteBuffer (this w)))) /\
  (forall (w : World P) r w',
      writeBlock w = Some (r, w') ->
      this w' = this w /\ heap w' = heap w) /\
  (forall w : World P,
      Configured w ->
      i2sReadBuffer (this w) <> i2sWriteBuffer (this w) /\
      (exists r w', readBlock w = Some (r, w')) /\
      (exists r w', writeBlock w = Some (r, w'))).
Proof.
  split; [|split].
  - intros w r w' Hrun.
    destruct (readBlock_frame _ _ _ Hrun) as (Ht & _ & _ & _ & Hother & _).
    repeat split; trivial.
    intros Hne. rewrite Ht. unfold buffer_at.
    destruct (i2sWriteBuffer (this w)) as [b|]; [|reflexivity].
    apply Hother. congruence.
  - intros w r w' Hrun.
    destruct (writeBlock_frame _ _ _ Hrun) as (Ht & Hh & _). now split.
  - intros w Hc. split; [apply Hc|].
    split; [now apply Configured_readBlock_runs
           |now apply Configured_writeBlock_runs].
Qed.

(** *** What the block transfers ask of the driver *)

(** C6: in the Configured state [readBlock] makes one [i2s_read] call, for
    [channelCount * BufferSize * 4] bytes into the read buffer with the
    time-out argument 500; it prints its diagnostic when the driver's status
    is not zero or the byte count is below the request, prints nothing
    otherwise, and returns the driver's status as it is. *)
Theorem readBlock_request_and_report
        (w : World P) (err n : Z) (data : list Z) (p' : P) :
  Configured w ->
  i2s_read (i2sPort (this w)) (channelCount (this w) * BufferSize * 4) 0 500
           (platform w) = (err, n, data, p') ->
  exists w' diag,
    readBlock w = Some (err, w') /\
    log w' = log w ++
             read_call (i2sPort (this w)) (i2sReadBuffer (this w))
                       (channelCount (this w) * BufferSize * 4) 500 :: diag /\
    (err <> 0 \/ n < channelCount (this w) * BufferSize * 4 ->
     diag = [Serial_print "I2S read error: "%string; Serial_println n]) /\
    (err = 0 /\ channelCount (this w) * BufferSize * 4 <= n -> diag = []).
Proof.
  intros Hc Hans. pose proof (Configured_read_size w Hc) as Hs.
  destruct Hc as (_ & _ & _ & (rd & Hrd & Hl) & _).
  pose proof (block_for_buffer w _ rd _ Hrd Hl) as Hb.
  rewrite <- Hs in Hb. rewrite (readBlock_runs w rd Hb).
  rewrite Hs, Hans. cbn [fst snd].
  eexists. eexists. split; [reflexivity|]. cbn [log].
  split; [reflexivity|]. split.
  - intros [Herr|Hn].
    + apply Z.eqb_neq in Herr. now rewrite Herr.
    + apply Z.ltb_lt in Hn. rewrite Hn. now rewrite orb_true_r.
  - intros [-> Hn]. apply Z.ltb_ge in Hn. now rewrite Hn.
Qed.

(** C7: in the Configured state [writeBlock] makes one [i2s_write] call, for
    [channelCount * BufferSize * 4] bytes from the write buffer with the
    time-out argument 500; it prints its diagnostic exactly when the driver
    accepted zero bytes (one byte or more, short of the request or not,
    prints nothing) and returns the driver's status as it is. *)
Theorem writeBlock_request_and_report
        (w : World P) (wr : list Z) (err n : Z) (p' : P) :
  Configured w ->
  buffer_at w (i2sWriteBuffer (this w)) = Some wr ->
  i2s_write (i2sPort (this w)) wr (channelCount (this w) * BufferSize * 4) 0 500
            (platform w) = (err, n, p') ->
  0 <= n ->
  exists w' diag,
    writeBlock w = Some (err, w') /\
    log w' = log w ++
             write_call (i2sPort (this w)) (i2sWriteBuffer (this w))
                        (channelCount (this w) * BufferSize * 4) 500 :: diag /\
    (n = 0 <->
     diag = [Serial_print "I2S write error: "%string; Serial_println n]) /\
    (1 <= n -> diag = []).
Proof.
  intros Hc Hwr Hans Hn. pose proof (Configured_write_size w Hc) as Hs.
  destruct Hc as (_ & _ & _ & _ & (wr' & Hwr' & Hl)).
  rewrite Hwr in Hwr'. injection Hwr' as <-.
  pose proof (block_for_buffer w _ wr _ Hwr Hl) as Hb.
  rewrite <- Hs in Hb. rewrite (writeBlock_runs w wr Hb).
  rewrite Hs, words_of_bytes_4.
  replace (Z.to_nat (channelCount (this w) * BufferSize)) with (length wr)
    by (rewrite <- Hl; symmetry; apply Nat2Z.id).
  rewrite firstn_all, Hans. cbn [fst snd].
  eexists. eexists. split; [reflexivity|]. cbn [log].
  split; [reflexivity|].
  destruct (Z.ltb_spec n 1) as [Hlt|Hge]; repeat split; intros; subst;
    try reflexivity; try discriminate; lia.
Qed.

(** *** What [setup] stores, asks and returns *)





(** C5: [setup] returns the 32-bit sum of the status codes of its four
    driver calls (install, pin bind, sample-rate set, DMA-buffer zero), which
    is their sum whenever that fits 32 bits; four zero statuses give zero,
    and a result other than zero means that some status was not zero. *)
Theorem setup_returns_sum_of_statuses (a : setup_args) (w : World P) :
  let e1 := fst (install_step a w) in
  let e2 := fst (pin_bind_step a w) in
  let e3 := fst (rate_set_step a w) in
  let e4 := fst (dma_zero_step a w) in
  exists r w',
    setup_with a w = Some (r, w') /\
    log w' = log w ++ setup_calls a w /\
    r = wrap32 (e1 + e2 + e3 + e4) /\
    (- 2 ^ 31 <= e1 + e2 + e3 + e4 < 2 ^ 31 -> r = e1 + e2 + e3 + e4) /\
    (e1 = 0 /\ e2 = 0 /\ e3 = 0 /\ e4 = 0 -> r = 0) /\
    (r <> 0 -> e1 <> 0 \/ e2 <> 0 \/ e3 <> 0 \/ e4 <> 0).
Proof.
  intros e1 e2 e3 e4. rewrite setup_runs. eexists. eexists.
  split; [reflexivity|]. split; [reflexivity|].
  fold e1 e2 e3 e4. rewrite add32_chain.
  split; [reflexivity|]. split; [|split].
  - apply wrap32_small.
  - intros (-> & -> & -> & ->). reflexivity.
  - intros Hr.
    destruct (Z.eq_dec e1 0) as [E1|]; [|now left].
    destruct (Z.eq_dec e2 0) as [E2|]; [|now right; left].
    destruct (Z.eq_dec e3 0) as [E3|]; [|now right; right; left].
    destruct (Z.eq_dec e4 0) as [E4|]; [|now right; right; right].
    exfalso. apply Hr. rewrite E1, E2, E3, E4. reflexivity.
Qed.

Lemma readBlock_log (w : World P) (r : Z) (w' : World P) :
  readBlock w = Some (r, w') ->
  exists d,
    log w' = log w ++
             read_call (i2sPort (this w)) (i2sReadBuffer (this w))
                       (umul32 (i2sBufferSize (this w)) sizeof_int32_t) 500 :: d /\
    forallb is_diagnostic d = true.
Proof.
  intros Hrd. destruct (readBlock_defined _ _ _ Hrd) as [old Hold].
  rewrite (readBlock_runs w old Hold) in Hrd. injection Hrd as _ <-.
  cbn [log]. eexists. split; [reflexivity|].
  destruct (_ || _); reflexivity.
Qed.

Lemma writeBlock_log (w : World P) (r : Z) (w' : World P) :
  writeBlock w = Some (r, w') ->
  exists d,
    log w' = log w ++
             write_call (i2sPort (this w)) (i2sWriteBuffer (this w))
               (umul32 (mul32 (channelCount (this w)) BufferSize) sizeof_int32_t)
               500 :: d /\
    forallb is_diagnostic d = true.
Proof.
  intros Hwr. destruct (writeBlock_defined _ _ _ Hwr) as [blk Hblk].
  rewrite (writeBlock_runs w blk Hblk) in Hwr. injection Hwr as _ <-.
  cbn [log]. eexists. split; [reflexivity|].
  destruct (_ <? 1); reflexivity.
Qed.

Lemma Configured_cycle (w : World P) :
  Configured w ->
  exists r1 w1 r2 w2 d1 d2,
    readBlock w = Some (r1, w1) /\ writeBlock w1 = Some (r2, w2) /\
    log w2 = log w ++
             read_call (i2sPort (this w)) (i2sReadBuffer (this w))
                       (channelCount (this w) * BufferSize * 4) 500 :: d1 ++
             write_call (i2sPort (this w)) (i2sWriteBuffer (this w))
                        (channelCount (this w) * BufferSize * 4) 500 :: d2 /\
    forallb is_diagnostic (d1 ++ d2) = true.
Proof.
  intros Hc.
  destruct (Configured_readBlock_runs w Hc) as (r1 & w1 & Hrd).
  pose proof (Configured_after_readBlock _ _ _ Hc Hrd) as Hc1.
  destruct (Configured_writeBlock_runs w1 Hc1) as (r2 & w2 & Hwr).
  destruct (readBlock_frame _ _ _ Hrd) as (Ht & _).
  destruct (readBlock_log _ _ _ Hrd) as (d1 & Hl1 & Hd1).
  destruct (writeBlock_log _ _ _ Hwr) as (d2 & Hl2 & Hd2).
  rewrite (Configured_read_size w Hc) in Hl1.
  rewrite (Configured_write_size w1 Hc1), Ht in Hl2.
  exists r1, w1, r2, w2, d1, d2.
  split; [exact Hrd|]. split; [exact Hwr|]. split.
  - rewrite Hl2, Hl1, <- app_assoc. reflexivity.
  - rewrite forallb_app, Hd1, Hd2. reflexivity.
Qed.

(** C8, as the code has it: when the two [calloc] calls of a [setup] run
    succeed, that is, when the block length [channelCount * BufferSize] is a
    sane one and the allocator has room for each request, each of the two
    buffers is a fresh block of exactly that many words, all zero, and the
    state is Configured. The status [setup] returns plays no part. With two
    channels and a [BufferSize] of 64 that is 128 words per buffer, and the
    [readBlock] and [writeBlock] that follow each ask the driver for 512
    bytes. *)
Theorem setup_allocates_buffers (a : setup_args) (w : World P) :
  let len := arg_channelCount a * BufferSize in
  let blk := repeat 0 (Z.to_nat len) in
  let p4 := snd (dma_zero_step a w) in
  0 <= len < 2 ^ 30 ->
  calloc_succeeds len 4 (heap w) p4 = true ->
  calloc_succeeds len 4 (heap w ++ [blk]) p4 = true ->
  exists r w',
    setup_with a w = Some (r, w') /\
    i2sReadBuffer (this w') = Some (length (heap w)) /\
    i2sWriteBuffer (this w') = Some (S (length (heap w))) /\
    heap w' = heap w ++ [blk; blk] /\
    buffer_at w' (i2sReadBuffer (this w')) = Some blk /\
    buffer_at w' (i2sWriteBuffer (this w')) = Some blk /\
    i2sBufferSize (this w') = len /\
    Configured w' /\
    (BufferSize = 64 -> arg_channelCount a = 2 ->
     length blk = 128%nat /\
     exists r1 w1 r2 w2 d1 d2,
       readBlock w' = Some (r1, w1) /\ writeBlock w1 = Some (r2, w2) /\
       log w2 = log w' ++
                read_call (i2sPort (this w')) (i2sReadBuffer (this w')) 512 500 ::
                d1 ++
                write_call (i2sPort (this w')) (i2sWriteBuffer (this w')) 512 500 ::
                d2 /\
       forallb is_diagnostic (d1 ++ d2) = true).
Proof.
  intros len blk p4 Hrange Hok1 Hok2.
  assert (Hn : uwrap32 (mul32 (arg_channelCount a) BufferSize) = len).
  { unfold mul32. rewrite wrap32_small by (fold len; lia).
    apply uwrap32_small. fold len. lia. }
  assert (Hm : mul32 (arg_channelCount a) BufferSize = len).
  { unfold mul32. apply wrap32_small. fold len. lia. }
  rewrite setup_runs. unfold setup_outcome.
  rewrite Hn, Hm. change (uwrap32 sizeof_int32_t) with 4.
  rewrite words_of_bytes_4. fold blk p4.
  assert (Hfit : (len * 4 <? 2 ^ 32) = true) by (apply Z.ltb_lt; lia).
  rewrite Hfit, Hok1. cbn [andb]. rewrite Hok2.
  assert (Hb1 : nth_error ((heap w ++ [blk]) ++ [blk]) (length (heap w))
                = Some blk).
  { rewrite <- app_assoc, nth_error_app2, Nat.sub_diag by lia. reflexivity. }
  assert (Hb2 : nth_error ((heap w ++ [blk]) ++ [blk]) (length (heap w ++ [blk]))
                = Some blk).
  { rewrite nth_error_app2, Nat.sub_diag by lia. reflexivity. }
  assert (Hc : Configured
                 {| this := {| fs := arg_fs a; channelCount := arg_channelCount a;
                               i2sPort := selector a; enablePin := arg_enablePin a;
                               i2sBufferSize := len;
                               i2sReadBuffer := Some (length (heap w));
                               i2sWriteBuffer := Some (length (heap w ++ [blk])) |};
                    platform := p4;
                    heap := (heap w ++ [blk]) ++ [blk];
                    static_i2s_config := Some (config_in_force a w);
                    static_pin_config := Some (pins_in_force a w);
                    log := log w ++ setup_calls a w |}).
  { unfold Configured, buffer_at.
    cbn [this heap channelCount i2sBufferSize i2sReadBuffer i2sWriteBuffer].
    fold len. split; [lia|]. split; [reflexivity|]. split.
    - rewrite length_app. cbn [length]. intros Heq. injection Heq. lia.
    - split; eexists; (split; [eassumption|]);
        unfold blk; rewrite repeat_length; lia. }
  eexists. eexists. split; [reflexivity|].
  cbn [this heap buffer_at i2sReadBuffer i2sWriteBuffer i2sBufferSize].
  split; [reflexivity|].
  split; [rewrite length_app; cbn [length]; f_equal; lia|].
  split; [now rewrite <- app_assoc|].
  split; [exact Hb1|]. split; [exact Hb2|]. split; [reflexivity|].
  split; [exact Hc|].
  intros HB Hcc. split.
  - unfold blk. rewrite repeat_length. subst len. rewrite HB, Hcc. reflexivity.
  - destruct (Configured_cycle _ Hc) as (r1 & w1 & r2 & w2 & d1 & d2 & H1 & H2 & Hl & Hd).
    exists r1, w1, r2, w2, d1, d2.
    cbn [this channelCount i2sPort i2sReadBuffer i2sWriteBuffer] in Hl.
    rewrite HB, Hcc in Hl. change (2 * 64 * 4) with 512 in Hl.
    repeat split; assumption.
Qed.

Lemma perform_keeps_statics (r : request) (w : World P) u w' c p :
  static_i2s_config w = Some c -> static_pin_config w = Some p ->
  perform r w = Some (u, w') ->
  static_i2s_config w' = Some c /\ static_pin_config w' = Some p.
Proof.
  intros Hc Hp Hrun. destruct r as [a|b| |]; unfold perform, bind, ret in Hrun.
  - rewrite setup_runs in Hrun. injection Hrun as _ <-.
    unfold setup_outcome, config_in_force, pins_in_force.
    cbn [static_i2s_config static_pin_config]. now rewrite Hc, Hp.
  - rewrite enable_runs in Hrun. injection Hrun as _ <-. now split.
  - destruct (readBlock w) as [[x w1]|] eqn:Hrd; [|discriminate].
    injection Hrun as _ <-.
    destruct (readBlock_frame _ _ _ Hrd) as (_ & H1 & H2 & _).
    split; congruence.
  - destruct (writeBlock w) as [[x w1]|] eqn:Hwr; [|discriminate].
    injection Hrun as _ <-.
    destruct (writeBlock_frame _ _ _ Hwr) as (_ & _ & H1 & H2).
    split; congruence.
Qed.

Lemma perform_all_keeps_statics (rs : list request) (w : World P) u w' c p :
  static_i2s_config w = Some c -> static_pin_config w = Some p ->
  perform_all rs w = Some (u, w') ->
  static_i2s_config w' = Some c /\ static_pin_config w' = Some p.
Proof.
  revert w. induction rs as [|r rs IH]; intros w Hc Hp Hrun.
  - injection Hrun as _ <-. now split.
  - cbn [perform_all] in Hrun. unfold bind in Hrun.
    destruct (perform r w) as [[x w1]|] eqn:Hone; [|discriminate].
    destruct (perform_keeps_statics _ _ _ _ _ _ Hc Hp Hone) as [Hc1 Hp1].
    exact (IH w1 Hc1 Hp1 Hrun).
Qed.

(** C9: the two statics of [setup] take their values on the first run and
    keep them. Whatever member functions are called after the first
    [setup], a later [setup] installs the driver with the first run's
    configuration (its sample rate and its master-clock rate, the first
    [fs] times 384 in 32 bits) and binds the first run's pins; its own
    arguments reach only the data members and the set-sample-rate call
    (and the selector, enable pin and buffer length computed from them). *)
Theorem setup_statics_initialised_once
        (a1 : setup_args) (w0 : World P) r1 w1 :
  static_i2s_config w0 = None ->
  static_pin_config w0 = None ->
  setup_with a1 w0 = Some (r1, w1) ->
  forall rs u w2 (a2 : setup_args),
    perform_all rs w1 = Some (u, w2) ->
    let cfg := i2s_config_init (arg_fs a1) (mul32 (arg_fs a1) 384) in
    let pins := pin_config_init (arg_bitClkPin a1) (arg_lrClkPin a1)
                                (arg_dataOutPin a1) (arg_dataInPin a1) in
    let n := uwrap32 (mul32 (arg_channelCount a2) BufferSize) in
    exists r2 w3,
      setup_with a2 w2 = Some (r2, w3) /\
      log w3 = log w2 ++
               [pinMode (arg_enablePin a2) OUTPUT;
                digitalWrite (arg_enablePin a2) LOW;
                driver_install (selector a2) cfg;
                set_pin (selector a2) pins;
                set_sample_rates (selector a2) (arg_fs a2);
                zero_dma_buffer (selector a2);
                PIN_FUNC_SELECT_GPIO0_CLK_OUT1;
                SET_PERI_REG_BITS_PIN_CTRL_CLK_OUT1;
                delay 500;
                calloc_call n 4; calloc_call n 4] /\
      sample_rate cfg = arg_fs a1 /\
      fixed_mclk cfg = wrap32 (arg_fs a1 * 384) /\
      (- 2 ^ 31 <= arg_fs a1 * 384 < 2 ^ 31 -> fixed_mclk cfg = arg_fs a1 * 384) /\
      bck_io_num pins = arg_bitClkPin a1 /\
      ws_io_num pins = arg_lrClkPin a1 /\
      data_out_num pins = arg_dataOutPin a1 /\
      data_in_num pins = arg_dataInPin a1 /\
      fs (this w3) = arg_fs a2 /\
      channelCount (this w3) = arg_channelCount a2 /\
      enablePin (this w3) = arg_enablePin a2 /\
      i2sPort (this w3) = selector a2 /\
      i2sBufferSize (this w3) = mul32 (arg_channelCount a2) BufferSize.
Proof.
  intros Hc0 Hp0 Hrun1 rs u w2 a2 Hrs cfg pins n.
  rewrite setup_runs in Hrun1. injection Hrun1 as _ Hw1.
  assert (Hc1 : static_i2s_config w1 = Some cfg).
  { rewrite <- Hw1. unfold setup_outcome, config_in_force.
    cbn [static_i2s_config]. now rewrite Hc0. }
  assert (Hp1 : static_pin_config w1 = Some pins).
  { rewrite <- Hw1. unfold setup_outcome, pins_in_force.
    cbn [static_pin_config]. now rewrite Hp0. }
  destruct (perform_all_keeps_statics _ _ _ _ _ _ Hc1 Hp1 Hrs) as [Hc2 Hp2].
  rewrite setup_runs. eexists. eexists. split; [reflexivity|].
  unfold setup_outcome, setup_calls, config_in_force, pins_in_force.
  rewrite Hc2, Hp2. cbn [log this fs channelCount enablePin i2sPort i2sBufferSize].
  split; [reflexivity|].
  repeat split. intros Hfit. cbn [cfg i2s_config_init fixed_mclk].
  apply wrap32_small. exact Hfit.
Qed.

End DriverFacts.

(** ** The scenario, run on the scripted platform *)

Lemma stereo_48k_is_configured (s : script) :
  @Configured unit (scripted s) stereo_48k_configured.
Proof.
  unfold Configured. cbn. repeat split; try lia; try discriminate.
  - eexists. split; [reflexivity|]. reflexivity.
  - eexists. split; [reflexivity|]. reflexivity.
Defined.


Lemma setup_returns_sum_of_statuses_witness :
  exists w',
    @setup_with unit (scripted two_failures) (stereo_48k 0) power_on
    = Some (257, w').
Proof.
  pose proof (@setup_returns_sum_of_statuses unit (scripted two_failures)
                (stereo_48k 0) power_on) as T.
  cbv zeta in T. destruct T as (r & w' & Hrun & _ & _ & Hfit & _).
  exists w'. rewrite Hrun. f_equal. f_equal.
  rewrite Hfit; [reflexivity|]. vm_compute. split; [discriminate|reflexivity].
Defined.

Lemma readBlock_request_and_report_witness :
  exists w',
    @readBlock unit (scripted short_read) stereo_48k_configured = Some (0, w') /\
    log w' = log stereo_48k_configured ++
             [read_call 0 (Some 0%nat) 512 500;
              Serial_print "I2S read error: "%string; Serial_println 256].
Proof.
  destruct (@readBlock_request_and_report unit (scripted short_read)
              stereo_48k_configured 0 256 (repeat 256 64) tt
              (stereo_48k_is_configured short_read) eq_refl)
    as (w' & diag & Hrun & Hlog & Hd & _).
  exists w'. split; [exact Hrun|].
  rewrite Hlog, Hd; [reflexivity|]. right. vm_compute. reflexivity.
Defined.

Lemma writeBlock_request_and_report_witness :
  exists w',
    @writeBlock unit (scripted nothing_written) stereo_48k_configured
    = Some (263, w') /\
    log w' = log stereo_48k_configured ++
             [write_call 0 (Some 1%nat) 512 500;
              Serial_print "I2S write error: "%string; Serial_println 0].
Proof.
  destruct (@writeBlock_request_and_report unit (scripted nothing_written)
              stereo_48k_configured (repeat 0 128) 263 0 tt
              (stereo_48k_is_configured nothing_written) eq_refl eq_refl
              (Z.le_refl 0))
    as (w' & diag & Hrun & Hlog & Hd & _).
  exists w'. split; [exact Hrun|].
  rewrite Hlog, (proj1 Hd eq_refl). reflexivity.
Defined.

Lemma setup_allocates_buffers_witness :
  exists r w',
    @setup_with unit (scripted (all_well 512)) (stereo_48k 0) power_on
    = Some (r, w') /\
    @buffer_at unit w' (Some 0%nat) = Some (repeat 0 128) /\
    @buffer_at unit w' (Some 1%nat) = Some (repeat 0 128) /\
    exists r1 w1 r2 w2 d1 d2,
      @readBlock unit (scripted (all_well 512)) w' = Some (r1, w1) /\
      @writeBlock unit (scripted (all_well 512)) w1 = Some (r2, w2) /\
      log w2 = log w' ++
               read_call 0 (Some 0%nat) 512 500 :: d1 ++
               write_call 0 (Some 1%nat) 512 500 :: d2.
Proof.
  pose proof (@setup_allocates_buffers unit (scripted (all_well 512))
                (stereo_48k 0) power_on) as T.
  cbv zeta in T.
  destruct T as (r & w' & Hrun & Hrp & Hwp & _ & Hrd & Hwr & _ & _ & Hscen).
  - vm_compute. split; [discriminate|reflexivity].
  - reflexivity.
  - reflexivity.
  - exists r, w'. split; [exact Hrun|].
    rewrite Hrp in Hrd. rewrite Hwp in Hwr.
    split; [exact Hrd|]. split; [exact Hwr|].
    destruct (Hscen eq_refl eq_refl)
      as (_ & r1 & w1 & r2 & w2 & d1 & d2 & H1 & H2 & Hl & _).
    exists r1, w1, r2, w2, d1, d2.
    assert (Hp : i2sPort (this w') = 0).
    { clear -Hrun. vm_compute in Hrun. injection Hrun as _ <-. reflexivity. }
    rewrite Hrp, Hwp, Hp in Hl. repeat split; assumption.
Defined.

(** C8 as stated fails: [setup] can return 0, its only sign of success,
    with no buffer allocated. Lines 113-116 never look at what [calloc]
    returned. With no memory left both pointers are null; so are they, on a
    platform where every call succeeds, for 2^24 channels, whose block of
    4 GiB [calloc] refuses. *)
Lemma setup_succeeds_without_buffers :
  (exists w',
      @setup_with unit (scripted out_of_memory) (stereo_48k 0) power_on
      = Some (0, w') /\
      i2sReadBuffer (this w') = None /\ i2sWriteBuffer (this w') = None /\
      heap w' = []) /\
  (exists w',
      @setup_with unit (scripted (all_well 512)) oversized power_on
      = Some (0, w') /\
      i2sReadBuffer (this w') = None /\ i2sWriteBuffer (this w') = None /\
      heap w' = []).
Proof.
  split; eexists; (split; [vm_compute; reflexivity|]); repeat split.
Qed.

Lemma setup_statics_initialised_once_witness :
  exists r2 w3,
    @setup_with unit (scripted (all_well 512)) mono_44k1 stereo_48k_configured
    = Some (r2, w3) /\
    nth_error (log w3) (length (log stereo_48k_configured) + 2)
    = Some (driver_install 1
              (@i2s_config_init unit (scripted (all_well 512)) 48000 18432000)) /\
    nth_error (log w3) (length (log stereo_48k_configured) + 3)
    = Some (set_pin 1 (pin_config_init 26 25 22 35)) /\
    nth_error (log w3) (length (log stereo_48k_configured) + 4)
    = Some (set_sample_rates 1 44100) /\
    fs (this w3) = 44100.
Proof.
  destruct (@setup_statics_initialised_once unit (scripted (all_well 512))
              (stereo_48k 0) power_on 0 stereo_48k_configured
              eq_refl eq_refl eq_refl [] tt stereo_48k_configured mono_44k1
              eq_refl)
    as (r2 & w3 & Hrun & Hlog & _ & _ & _ & _ & _ & _ & _ & Hfs & _).
  exists r2, w3. split; [exact Hrun|]. rewrite Hlog.
  repeat split; try reflexivity. exact Hfs.
Defined.

Lemma transfers_preserve_configuration_witness :
  exists r w',
    @readBlock unit (scripted (all_well 512)) stereo_48k_configured
    = Some (r, w') /\
    this w' = this stereo_48k_configured /\
    @buffer_at unit w' (Some 1%nat) = Some (repeat 0 128).
Proof.
  destruct (@transfers_preserve_configuration unit (scripted (all_well 512)))
    as (Hread & _ & Hconf).
  destruct (Hconf stereo_48k_configured
              (stereo_48k_is_configured (all_well 512)))
    as (Hne & (r & w' & Hrun) & _).
  exists r, w'. split; [exact Hrun|].
  destruct (Hread _ _ _ Hrun) as (Ht & _ & Hwb).
  split; [exact Ht|].
  specialize (Hwb Hne). rewrite Ht in Hwb. exact Hwb.
Defined.

(** * The sample codec beyond the nominal range and on the wire grid *)

Lemma bounded_normal (mm : positive) (e : Z) :
  Zpos (digits2_pos mm) = 24 -> - 149 <= e <= 104 ->
  bounded prec emax mm e = true.
Proof.
  intros Hd He. unfold bounded, canonical_mantissa.
  rewrite fexp32, Hd. apply andb_true_iff. split.
  - apply Z.eqb_eq. lia.
  - apply Z.leb_le. unfold emax, prec. lia.
Qed.

Lemma fmul_ScaleFloat2Int_normal (s : bool) (mm : positive) (e : Z) :
  Zpos (digits2_pos mm) = 24 -> - 149 <= e <= 81 ->
  fmul (S754_finite s mm e) ScaleFloat2Int = S754_finite s mm (e + 23).
Proof.
  intros Hd He.
  rewrite fmul_ScaleFloat2Int by (apply bounded_normal; [assumption|lia]).
  rewrite Hd. replace (e + 24 - 1 <=? 104) with true
    by (symmetry; apply Z.leb_le; lia).
  replace (24 - 24) with 0 by lia.
  rewrite Z.pow_0_r, Z.mul_1_r, Pos2Z.id. f_equal. lia.
Qed.

(** The float a positive wire sample becomes, scaled back by 2^23. *)
Lemma wire_scaled (m : positive) :
  Zpos m <= 2 ^ 23 ->
  let d := Zpos (digits2_pos m) in
  exists mm,
    fmul (int2Float (Zpos m * 2 ^ 8)) ScaleFloat2Int
    = S754_finite false mm (d - 24) /\
    Zpos (digits2_pos mm) = 24 /\ Zpos mm = Zpos m * 2 ^ (24 - d) /\
    1 <= d <= 24.
Proof.
  intros Hm d.
  assert (Hd : d <= 24) by (apply digits_le_24; lia).
  assert (Hd0 : 0 < d) by (unfold d; lia).
  exists (Z.to_pos (Zpos m * 2 ^ (24 - d))).
  rewrite int2Float_pos_exact by (fold d; lia). fold d.
  assert (Hdig : Zpos (digits2_pos (Z.to_pos (Zpos m * 2 ^ (24 - d)))) = 24).
  { rewrite (digits_mul_pow2 m (24 - d) d) by (lia || reflexivity). lia. }
  rewrite fmul_ScaleFloat2Int_normal by (assumption || lia).
  replace (d + 8 - 55 + 23) with (d - 24) by lia.
  repeat split; try lia; try assumption.
Qed.

(** X5: a wire sample sent through [int2Float] and back through [float2Int]
    does not always come back: a positive sample below the largest comes
    back one step higher, because [float2Int] adds one to every scaled
    value of 0.5 or more before it truncates; zero, negative samples and the
    largest sample come back unchanged. *)
Theorem wire_round_trip (y : Z) :
  - 2 ^ 23 <= y <= 2 ^ 23 - 1 ->
  float2Int (int2Float (Z.shiftl y 8))
  = Some (Z.shiftl (if (0 <? y) && (y <? 2 ^ 23 - 1) then y + 1 else y) 8).
Proof.
  intros Hy. rewrite Z.shiftl_mul_pow2 by lia.
  destruct y as [|m|m].
  - reflexivity.
  - destruct (wire_scaled m) as (mm & Hsc & Hdig & Hmm & Hd); [lia|].
    set (d := Zpos (digits2_pos m)) in *.
    rewrite float2Int_unfolded, Hsc.
    rewrite ge_half_normal by (assumption || lia).
    replace (- 24 <=? d - 24) with true by (symmetry; apply Z.leb_le; lia).
    cbn [negb andb].
    pose proof (digits2_pos_bounds m) as Hb. fold d in Hb.
    destruct (Z.eq_dec d 24) as [E|E].
    { rewrite E in Hb. change (2 ^ (24 - 1)) with (2 ^ 23) in Hb. lia. }
    destruct (fadd_one_trunc mm (24 - d)) as (t & Ht & Hlo & Hhi);
      [assumption|lia|].
    replace (d - 24) with (- (24 - d)) by lia.
    assert (Hp : 2 <= 2 ^ (24 - d)).
    { change 2 with (2 ^ 1) at 1. apply Z.pow_le_mono_r; lia. }
    set (K := 2 ^ (24 - d)) in *.
    assert (Hq : (Zpos mm + K) / K = Zpos m + 1).
    { rewrite Hmm. replace (Zpos m * K + K) with ((Zpos m + 1) * K) by ring.
      apply Z.div_mul. lia. }
    rewrite Hq in Hlo.
    assert (Ht' : t = Zpos m + 1) by nia.
    subst t.
    assert (Hi : int_of_float (fadd (S754_finite false mm (- (24 - d)))
                                 (float_of_int 1)) = Some (Zpos m + 1)).
    { apply int_of_float_Some. split; [assumption|lia]. }
    rewrite Hi. f_equal. f_equal.
    replace (0 <? Zpos m) with true by (symmetry; apply Z.ltb_lt; lia).
    cbn [andb]. destruct (Z.ltb_spec (Zpos m) (2 ^ 23 - 1)).
    + apply clamp24_inside. lia.
    + rewrite clamp24_above by lia. lia.
  - change (Zneg m) with (- Zpos m). rewrite Z.mul_opp_l.
    assert (Hp8 : 0 < Zpos m * 2 ^ 8) by lia.
    rewrite int2Float_opp by lia.
    destruct (wire_scaled m) as (mm & Hsc & Hdig & Hmm & Hd); [lia|].
    set (d := Zpos (digits2_pos m)) in *.
    rewrite float2Int_unfolded, fmul_opp_l, Hsc. cbn [fneg SFopp negb].
    rewrite ge_half_normal by (assumption || lia). cbn [negb andb].
    replace (d - 24) with (- (24 - d)) by lia.
    pose proof (digits2_pos_bounds mm) as Hb. rewrite Hdig in Hb.
    rewrite int_of_float_finite by lia.
    rewrite Hmm, Z.div_mul
      by (assert (0 < 2 ^ (24 - d)) by (apply Z.pow_pos_nonneg; lia); lia).
    replace (0 <? - Zpos m) with false by (symmetry; apply Z.ltb_ge; lia).
    cbn [cond_Zopp andb]. f_equal. f_equal. apply clamp24_inside. lia.
Qed.

Lemma wire_round_trip_witness :
  float2Int (int2Float (Z.shiftl 1 8)) = Some (Z.shiftl 2 8).
Proof.
  apply (wire_round_trip 1). lia.
Defined.

(** Line 54, [sample+1] for a scaled sample of 2^23 or more, which has no
    fraction bits: the binary32 sum is an integer [t] not below the sample
    and at most half a unit in the sample's last place above the exact sum,
    unless it overflows. *)
Lemma fadd_one_large (mm : positive) (ee : Z) :
  Zpos (digits2_pos mm) = 24 -> 0 <= ee <= 104 ->
  (fadd (S754_finite false mm ee) (float_of_int 1) = S754_infinity false /\
   ee = 104) \/
  exists t,
    Ztrunc (fadd (S754_finite false mm ee) (float_of_int 1)) = Some t /\
    Zpos mm * 2 ^ ee <= t /\ 2 * t <= 2 * (Zpos mm * 2 ^ ee) + 2 + 2 ^ ee.
Proof.
  intros Hd He.
  pose proof (digits2_pos_bounds mm) as Hmm. rewrite Hd in Hmm.
  change (2 ^ (24 - 1)) with 8388608 in Hmm. change (2 ^ 24) with 16777216 in *.
  change (float_of_int 1) with (S754_finite false 8388608 (- 23)).
  unfold fadd. cbn [SFadd cond_Zopp].
  replace (Z.min ee (- 23)) with (- 23) by lia.
  rewrite !shl_align_fst by lia.
  replace (- 23 - - 23) with 0 by lia. rewrite Z.pow_0_r, Z.mul_1_r.
  replace (ee - - 23) with (ee + 23) by lia.
  destruct (Z.eq_dec ee 0) as [->|Hee].
  - right. change (2 ^ (0 + 23)) with 8388608. change (2 ^ 0) with 1.
    destruct (Z.eq_dec (Zpos mm + 1) 16777216) as [E|E].
    + assert (Em : mm = 16777215%positive) by lia. subst mm.
      exists 16777216. split; [vm_compute; reflexivity|lia].
    + set (A := Zpos mm + 1).
      assert (HA : Zpos (digits2_pos (Z.to_pos A)) = 24).
      { apply digits2_pos_unique. rewrite Z2Pos.id by (unfold A; lia).
        change (2 ^ (24 - 1)) with 8388608. change (2 ^ 24) with 16777216.
        unfold A. lia. }
      replace (Zpos mm * 8388608 + 8388608) with (Zpos (Z.to_pos A) * 2 ^ 23)
        by (rewrite Z2Pos.id by (unfold A; lia); unfold A;
            change (2 ^ 23) with 8388608; ring).
      rewrite binary_normalize_exact by (rewrite ?HA; lia).
      rewrite HA. change (2 ^ (24 - 24)) with 1.
      rewrite Z.mul_1_r, Pos2Z.id.
      exists A. split.
      * cbn [Ztrunc cond_Zopp]. replace (24 + 23 + - 23 - 24) with 0 by lia.
        rewrite Z.shiftl_0_r, Z2Pos.id by (unfold A; lia). reflexivity.
      * unfold A. lia.
  - assert (HE : 2 * 8388608 <= 2 ^ (ee + 23)).
    { change (2 * 8388608) with (2 ^ 24). apply Z.pow_le_mono_r; lia. }
    assert (HEe : 2 ^ (ee + 23) = 2 ^ ee * 8388608).
    { rewrite pow2_split by lia. reflexivity. }
    assert (Hpe : 0 < 2 ^ ee) by (apply Z.pow_pos_nonneg; lia).
    set (E := 2 ^ (ee + 23)) in *.
    destruct (Zpos mm * E + 8388608) as [|M|M] eqn:EM; try nia.
    assert (HdM : Zpos (digits2_pos M) = 47 + ee).
    { apply digits2_pos_unique. rewrite <- EM.
      replace (47 + ee - 1) with (23 + (ee + 23)) by lia.
      replace (47 + ee) with (24 + (ee + 23)) by lia.
      rewrite !pow2_split by lia. fold E.
      change (2 ^ 23) with 8388608. change (2 ^ 24) with 16777216. nia. }
    cbn [binary_normalize].
    rewrite binary_round_long by (rewrite HdM, fexp32; lia).
    rewrite binary_round_aux_inexact by (rewrite HdM; lia).
    rewrite HdM, <- EM.
    replace (47 + ee - 24) with (ee + 23) by lia.
    pose proof (round_half_even_bounds (Zpos mm * E + 8388608) (ee + 23)
                  ltac:(lia)) as [Hq1 Hq2].
    fold E in Hq1, Hq2.
    assert (Hdiv : (Zpos mm * E + 8388608) / E = Zpos mm).
    { rewrite Z.div_add_l by lia. rewrite Z.div_small by lia. lia. }
    rewrite Hdiv in Hq1.
    set (q := round_half_even (Zpos mm * E + 8388608) (ee + 23)) in *.
    replace (- 23 + (ee + 23)) with ee by lia.
    change (2 ^ 24) with 16777216.
    destruct (Z.ltb_spec q 16777216) as [Hq|Hq].
    + replace (ee <=? 104) with true by (symmetry; apply Z.leb_le; lia).
      right. exists (q * 2 ^ ee). split.
      * cbn [Ztrunc cond_Zopp]. rewrite Z.shiftl_mul_pow2 by lia.
        rewrite Z2Pos.id by lia. reflexivity.
      * nia.
    + assert (Hq24 : q = 16777216) by lia.
      destruct (Z.leb_spec (ee + 1) 104) as [Hle|Hgt]; [right|left; split; [reflexivity|lia]].
      exists (q * 2 ^ ee). split.
      * cbn [Ztrunc cond_Zopp]. rewrite Z.shiftl_mul_pow2 by lia.
        rewrite Hq24, (pow2_split ee 1) by lia.
        change (2 ^ 1) with 2. f_equal. lia.
      * nia.
Qed.

(** [float2Int] on a sample whose scaled value is 2^23 or more in
    magnitude. *)
Lemma float2Int_large (x : float) (s : bool) (mm : positive) (ee : Z) :
  fmul x ScaleFloat2Int = S754_finite s mm ee ->
  Zpos (digits2_pos mm) = 24 -> 0 <= ee <= 104 ->
  float2Int x
  = if s then (if Zpos mm * 2 ^ ee <=? 2 ^ 31 then Some (- 2 ^ 31) else None)
    else (if ee <=? 7 then Some (2 ^ 31 - 256) else None).
Proof.
  intros Hsc Hd He.
  rewrite float2Int_unfolded, Hsc, ge_half_normal by (assumption || lia).
  replace (- 24 <=? ee) with true by (symmetry; apply Z.leb_le; lia).
  pose proof (digits2_pos_bounds mm) as Hmm. rewrite Hd in Hmm.
  change (2 ^ (24 - 1)) with 8388608 in Hmm. change (2 ^ 24) with 16777216 in Hmm.
  assert (Hpe : 1 <= 2 ^ ee).
  { change 1 with (2 ^ 0). apply Z.pow_le_mono_r; lia. }
  destruct s; cbn [negb andb].
  - unfold int_of_float. cbn [Ztrunc cond_Zopp].
    rewrite Z.shiftl_mul_pow2 by lia. unfold in_int32.
    destruct (Z.leb_spec (Zpos mm * 2 ^ ee) (2 ^ 31)) as [Hle|Hgt].
    + replace ((- 2 ^ 31 <=? - (Zpos mm * 2 ^ ee)) && (- (Zpos mm * 2 ^ ee) <? 2 ^ 31))
        with true
        by (symmetry; apply andb_true_iff; split;
            [apply Z.leb_le|apply Z.ltb_lt]; lia).
      rewrite clamp24_below by (change (2 ^ 23) with 8388608; nia).
      reflexivity.
    + replace (- 2 ^ 31 <=? - (Zpos mm * 2 ^ ee)) with false
        by (symmetry; apply Z.leb_gt; lia).
      reflexivity.
  - destruct (fadd_one_large mm ee Hd He) as [[Hinf E]|(t & Ht & Hlo & Hhi)].
    + rewrite Hinf, E. reflexivity.
    + unfold int_of_float. rewrite Ht. unfold in_int32.
      destruct (Z.leb_spec ee 7) as [Hle|Hgt].
      * assert (Hp7 : 2 ^ ee = 128 \/ 2 ^ ee <= 64).
        { destruct (Z.eq_dec ee 7) as [->|]; [left; reflexivity|right].
          change 64 with (2 ^ 6). apply Z.pow_le_mono_r; lia. }
        replace ((- 2 ^ 31 <=? t) && (t <? 2 ^ 31)) with true
          by (symmetry; apply andb_true_iff; split;
              [apply Z.leb_le|apply Z.ltb_lt];
              change (2 ^ 31) with 2147483648; nia).
        rewrite clamp24_above by (change (2 ^ 23) with 8388608; nia).
        reflexivity.
      * assert (Hp8 : 256 <= 2 ^ ee).
        { change 256 with (2 ^ 8). apply Z.pow_le_mono_r; lia. }
        replace (t <? 2 ^ 31) with false
          by (symmetry; apply Z.ltb_ge; change (2 ^ 31) with 2147483648; nia).
        rewrite andb_false_r. reflexivity.
Qed.

(** A binary32 number with its mantissa normalised to 24 bits, and what
    line 53 makes of it. *)
Lemma scaled_normal_form (s : bool) (m : positive) (e : Z) :
  bounded prec emax m e = true ->
  exists mm ee,
    Zpos (digits2_pos mm) = 24 /\ - 149 <= ee /\
    (SF2Q (S754_finite s m e)
     == inject_Z (cond_Zopp s (Zpos mm)) * 2 ^ (ee - 23))%Q /\
    fmul (S754_finite s m e) ScaleFloat2Int
    = if ee <=? 104 then S754_finite s mm ee else S754_infinity s.
Proof.
  intros Hb. destruct (bounded_shape m e Hb) as (Hd & He & Hcase).
  set (d := Zpos (digits2_pos m)) in *.
  exists (Z.to_pos (Zpos m * 2 ^ (24 - d))), (e + d - 1).
  split; [|split; [lia|split]].
  - rewrite (digits_mul_pow2 m (24 - d) d) by (lia || reflexivity). lia.
  - transitivity
      (SF2Q (S754_finite s (Z.to_pos (Zpos m * 2 ^ (24 - d))) (e + d - 1 - 23)));
      [|reflexivity].
    rewrite SF2Q_scaled by lia.
    replace (24 - d + (e + d - 1 - 23)) with e by lia. reflexivity.
  - now rewrite fmul_ScaleFloat2Int by assumption.
Qed.

(** The magnitude [mm * 2^(ee-23)] of a normalised number lies in
    [2^ee, 2^(ee+1)). *)
Lemma normal_magnitude (mm : positive) (ee : Z) :
  Zpos (digits2_pos mm) = 24 ->
  (2 ^ ee <= inject_Z (Zpos mm) * 2 ^ (ee - 23))%Q /\
  (inject_Z (Zpos mm) * 2 ^ (ee - 23) < 2 ^ (ee + 1))%Q.
Proof.
  intros Hd. pose proof (digits2_pos_bounds mm) as [Hlo Hhi]. rewrite Hd in Hlo, Hhi.
  rewrite Zle_Qle in Hlo. rewrite Zlt_Qlt in Hhi.
  change (inject_Z (2 ^ (24 - 1))) with (8388608 # 1) in Hlo.
  change (inject_Z (2 ^ 24)) with (16777216 # 1) in Hhi.
  pose proof (Qpow2_pos (ee - 23)) as Hp.
  assert (E1 : (2 ^ ee == (8388608 # 1) * 2 ^ (ee - 23))%Q).
  { replace ee with (23 + (ee - 23)) at 1 by lia. now rewrite Qpow2_add. }
  assert (E2 : (2 ^ (ee + 1) == (16777216 # 1) * 2 ^ (ee - 23))%Q).
  { replace (ee + 1) with (24 + (ee - 23)) by lia. now rewrite Qpow2_add. }
  rewrite E1, E2. generalize dependent (2 ^ (ee - 23))%Q. intros u Hu _ _.
  generalize dependent (inject_Z (Zpos mm)). intros M HM1 HM2. split; nra.
Qed.

Lemma normal_lt_pow2 (mm : positive) (ee j : Z) :
  Zpos (digits2_pos mm) = 24 ->
  (inject_Z (Zpos mm) * 2 ^ (ee - 23) < 2 ^ j)%Q <-> ee < j.
Proof.
  intros Hd. destruct (normal_magnitude mm ee Hd) as [Hlo Hhi]. split.
  - intros H. apply (Qpower_lt_compat_l_inv 2); [|reflexivity].
    eapply Qle_lt_trans; eassumption.
  - intros H. eapply Qlt_le_trans; [exact Hhi|].
    apply Qpower_le_compat_l; [lia|discriminate].
Qed.

Lemma normal_ge_pow2 (mm : positive) (ee j : Z) :
  Zpos (digits2_pos mm) = 24 ->
  (2 ^ j <= inject_Z (Zpos mm) * 2 ^ (ee - 23))%Q <-> j <= ee.
Proof.
  intros Hd. pose proof (normal_lt_pow2 mm ee j Hd) as Hiff. split.
  - intros H. destruct (Z.le_gt_cases j ee) as [|Hgt]; [assumption|exfalso].
    apply Hiff in Hgt. apply (Qlt_not_le _ _ Hgt H).
  - intros H. apply Qnot_lt_le. intros Hlt. apply Hiff in Hlt. lia.
Qed.

(** For a scaled value without fraction bits, the magnitude is the integer
    [mm * 2^ee], scaled down by 2^23. *)
Lemma normal_integer (mm : positive) (ee : Z) :
  0 <= ee ->
  (inject_Z (Zpos mm) * 2 ^ (ee - 23)
   == inject_Z (Zpos mm * 2 ^ ee) * (1 # 8388608))%Q.
Proof.
  intros He. change (1 # 8388608) with (2 ^ (- 23))%Q.
  rewrite inject_Z_mul_pow2 by assumption. reflexivity.
Qed.

Lemma float2Int_infinite_scaled (x : float) (s : bool) :
  fmul x ScaleFloat2Int = S754_infinity s -> float2Int x = None.
Proof.
  intros Hsc. rewrite float2Int_unfolded, Hsc. destruct s; reflexivity.
Qed.

Lemma SF2Q_sign (s : bool) (mm : positive) (u : Q) :
  (inject_Z (cond_Zopp s (Zpos mm)) * u
   == if s then - (inject_Z (Zpos mm) * u) else inject_Z (Zpos mm) * u)%Q.
Proof.
  destruct s; cbn [cond_Zopp]; [|reflexivity].
  change (Zneg mm) with (- Zpos mm). rewrite inject_Z_opp. ring.
Qed.

(** X4: [float2Int] has a dead zone that is not symmetric about zero: every
    sample strictly between [-2^-23] and [2^-24] becomes the wire sample 0. *)
Theorem float2Int_dead_zone (x : float) :
  is_float x = true -> is_finite x = true ->
  (- 2 ^ (- 23) < SF2Q x)%Q -> (SF2Q x < 2 ^ (- 24))%Q ->
  float2Int x = Some 0.
Proof.
  intros Hx Hfin Hlo Hhi.
  destruct x as [s|s| |s m e]; try discriminate.
  - destruct s; reflexivity.
  - cbn in Hx.
    destruct (scaled_normal_form s m e Hx) as (mm & ee & Hd & He & Hval & Hsc).
    rewrite Hval, SF2Q_sign in Hlo, Hhi.
    destruct (normal_magnitude mm ee Hd) as [Hm _].
    pose proof (Qpow2_pos ee) as Hp.
    assert (Hee : if s then ee < - 23 else ee < - 24).
    { destruct s.
      - apply (normal_lt_pow2 mm ee (- 23) Hd).
        apply Qopp_lt_compat in Hlo. rewrite !Qopp_involutive in Hlo. exact Hlo.
      - apply (normal_lt_pow2 mm ee (- 24) Hd). exact Hhi. }
    assert (Hee' : ee <= - 24) by (destruct s; lia).
    replace (ee <=? 104) with true in Hsc by (symmetry; apply Z.leb_le; lia).
    rewrite float2Int_unfolded, Hsc, ge_half_normal by (assumption || lia).
    replace (negb s && (- 24 <=? ee)) with false
      by (destruct s; [reflexivity|symmetry; apply Z.leb_gt; lia]).
    pose proof (digits2_pos_bounds mm) as Hb. rewrite Hd in Hb.
    replace ee with (- (- ee)) by lia.
    rewrite int_of_float_finite by lia.
    rewrite Z.div_small.
    + destruct s; reflexivity.
    + split; [lia|]. apply Z.lt_le_trans with (2 ^ 24); [lia|].
      apply Z.pow_le_mono_r; lia.
Qed.

Lemma float2Int_dead_zone_witness :
  float2Int (S754_finite true 16777215 (- 47)) = Some 0.
Proof.
  apply float2Int_dead_zone.
  - reflexivity.
  - reflexivity.
  - vm_compute. reflexivity.
  - vm_compute. reflexivity.
Defined.

(** X3: samples beyond the nominal range saturate: from 1 up to (not including)
    256 [float2Int] gives the largest wire sample, from -256 up to -1 the
    smallest. *)
Theorem float2Int_saturates (x : float) :
  is_float x = true -> is_finite x = true ->
  ((1 <= SF2Q x)%Q -> (SF2Q x < 256)%Q -> float2Int x = Some (2 ^ 31 - 256)) /\
  ((- 256 <= SF2Q x)%Q -> (SF2Q x <= - 1)%Q -> float2Int x = Some (- 2 ^ 31)).
Proof.
  intros Hx Hfin.
  destruct x as [s|s| |s m e]; try discriminate.
  - cbn [SF2Q]. split; intros H1 H2; exfalso.
    + apply (Qle_not_lt _ _ H1). reflexivity.
    + apply (Qle_not_lt _ _ H2). reflexivity.
  - cbn in Hx.
    destruct (scaled_normal_form s m e Hx) as (mm & ee & Hd & He & Hval & Hsc).
    rewrite Hval, SF2Q_sign.
    destruct (normal_magnitude mm ee Hd) as [Hm _].
    pose proof (Qpow2_pos ee) as Hp.
    set (W := (inject_Z (Zpos mm) * 2 ^ (ee - 23))%Q) in *.
    split; intros Hlo Hhi.
    + destruct s; [exfalso; lra|].
      assert (H0 : 0 <= ee) by (apply (normal_ge_pow2 mm ee 0 Hd); exact Hlo).
      assert (H8 : ee < 8) by (apply (normal_lt_pow2 mm ee 8 Hd); exact Hhi).
      replace (ee <=? 104) with true in Hsc by (symmetry; apply Z.leb_le; lia).
      rewrite (float2Int_large _ false mm ee Hsc Hd) by lia.
      replace (ee <=? 7) with true by (symmetry; apply Z.leb_le; lia).
      reflexivity.
    + destruct s; [|exfalso; lra].
      assert (H0 : 0 <= ee).
      { apply (normal_ge_pow2 mm ee 0 Hd). change (2 ^ 0)%Q with 1%Q. fold W. lra. }
      assert (H8 : ee <= 8).
      { apply (Qpower_le_compat_l_inv 2); [|reflexivity].
        change (2 ^ 8)%Q with 256%Q. lra. }
      replace (ee <=? 104) with true in Hsc by (symmetry; apply Z.leb_le; lia).
      rewrite (float2Int_large _ true mm ee Hsc Hd) by lia.
      replace (Zpos mm * 2 ^ ee <=? 2 ^ 31) with true; [reflexivity|].
      symmetry. apply Z.leb_le. rewrite Zle_Qle.
      change (inject_Z (2 ^ 31)) with (2147483648 # 1).
      pose proof (normal_integer mm ee H0) as Hint. fold W in Hint.
      generalize dependent (inject_Z (Zpos mm * 2 ^ ee)). intros I HI.
      lra.
Qed.

Lemma float2Int_saturates_witness :
  float2Int (S754_finite false 12582912 (- 22)) = Some (2 ^ 31 - 256) /\
  float2Int (S754_finite true 8388608 (- 15)) = Some (- 2 ^ 31).
Proof.
  split.
  - apply (float2Int_saturates (S754_finite false 12582912 (- 22)));
      reflexivity || (vm_compute; intros H; discriminate H).
  - apply (float2Int_saturates (S754_finite true 8388608 (- 15)));
      reflexivity || (vm_compute; intros H; discriminate H).
Defined.

(** X2: the clamp of line 55 comes after the conversion to [int32_t] of line 54,
    so it cannot protect that conversion: [float2Int] has a defined result
    exactly for the finite samples from -256 up to (not including) 256. For
    NaN, the infinities and every sample outside that range the conversion
    is applied to a value [int32_t] cannot hold. *)
Theorem float2Int_defined_iff (x : float) :
  is_float x = true ->
  ((exists w, float2Int x = Some w) <->
   is_finite x = true /\ (- 256 <= SF2Q x)%Q /\ (SF2Q x < 256)%Q).
Proof.
  intros Hx.
  destruct x as [s|s| |s m e].
  - split; [intros _|intros _; exists 0; destruct s; reflexivity].
    split; [reflexivity|]. split; [discriminate|reflexivity].
  - split; [intros [w Hw]|intros [Hf _]; discriminate Hf].
    destruct s; discriminate Hw.
  - split; [intros [w Hw]|intros [Hf _]; discriminate Hf]. discriminate Hw.
  - cbn in Hx. cbn [is_finite].
    destruct (scaled_normal_form s m e Hx) as (mm & ee & Hd & He & Hval & Hsc).
    rewrite Hval, SF2Q_sign.
    destruct (normal_magnitude mm ee Hd) as [Hm Hm'].
    pose proof (Qpow2_pos ee) as Hp.
    pose proof (normal_lt_pow2 mm ee 8 Hd) as Hlt8.
    pose proof (normal_lt_pow2 mm ee 0 Hd) as Hlt0.
    change (2 ^ 8)%Q with 256%Q in Hlt8. change (2 ^ 0)%Q with 1%Q in Hlt0.
    destruct (Z.leb_spec ee 104) as [H104|H104].
    2:{ (* the product overflows *)
      rewrite (float2Int_infinite_scaled _ s Hsc).
      split; [intros [w Hw]; discriminate Hw|intros (_ & Hlo & Hhi); exfalso].
      assert (H8 : (2 ^ 9 <= 2 ^ ee)%Q)
        by (apply Qpower_le_compat_l; [lia|discriminate]).
      change (2 ^ 9)%Q with 512%Q in H8.
      set (W := (inject_Z (Zpos mm) * 2 ^ (ee - 23))%Q) in *.
      destruct s; lra. }
    destruct (Z.lt_ge_cases ee 0) as [Hneg|Hpos].
    + (* below 1 in magnitude *)
      apply Hlt0 in Hneg.
      set (W := (inject_Z (Zpos mm) * 2 ^ (ee - 23))%Q) in *.
      split; [intros _; split; [reflexivity|destruct s; lra]|intros _].
      apply Hlt0 in Hneg.
      pose proof (digits2_pos_bounds mm) as Hb. rewrite Hd in Hb.
      assert (HK : 2 ^ 1 <= 2 ^ (- ee)) by (apply Z.pow_le_mono_r; lia).
      destruct (float2Int_scaled_error (S754_finite s m e) s mm (- ee))
        as (y & Hy & _).
      * rewrite Hsc. f_equal. lia.
      * assumption.
      * lia.
      * change (2 ^ (24 - 1)) with 8388608 in Hb.
        change (2 ^ 24) with 16777216 in Hb.
        change (2 ^ 23) with 8388608. change (2 ^ 1) with 2 in HK.
        destruct s; nia.
      * eexists. exact Hy.
    + (* 1 or more in magnitude *)
      rewrite (float2Int_large _ s mm ee Hsc Hd) by lia.
      pose proof (normal_integer mm ee Hpos) as Hint.
      set (W := (inject_Z (Zpos mm) * 2 ^ (ee - 23))%Q) in *.
      destruct s.
      * destruct (Z.leb_spec (Zpos mm * 2 ^ ee) (2 ^ 31)) as [Hle|Hgt].
        -- split; [intros _|intros _; eexists; reflexivity].
           split; [reflexivity|]. split; [|lra].
           rewrite Zle_Qle in Hle.
           change (inject_Z (2 ^ 31)) with (2147483648 # 1) in Hle.
           generalize dependent (inject_Z (Zpos mm * 2 ^ ee)). intros I HI HI'.
           lra.
        -- split; [intros [w Hw]; discriminate Hw|intros (_ & Hlo & _); exfalso].
           rewrite Zlt_Qlt in Hgt.
           change (inject_Z (2 ^ 31)) with (2147483648 # 1) in Hgt.
           generalize dependent (inject_Z (Zpos mm * 2 ^ ee)). intros I HI HI'.
           lra.
      * destruct (Z.leb_spec ee 7) as [Hle|Hgt].
        -- split; [intros _|intros _; eexists; reflexivity].
           split; [reflexivity|]. split; [lra|]. apply Hlt8. lia.
        -- split; [intros [w Hw]; discriminate Hw|intros (_ & _ & Hhi); exfalso].
           apply Hlt8 in Hhi. lia.
Qed.

Lemma float2Int_defined_iff_witness :
  (exists w, float2Int (S754_finite true 8388608 (- 15)) = Some w) <->
  is_finite (S754_finite true 8388608 (- 15)) = true /\
  (- 256 <= SF2Q (S754_finite true 8388608 (- 15)))%Q /\
  (SF2Q (S754_finite true 8388608 (- 15)) < 256)%Q.
Proof.
  apply float2Int_defined_iff. reflexivity.
Defined.

(** X1: whatever [float2Int] returns is a wire-format sample: a 24-bit value in
    [-2^23, 2^23 - 1] shifted left by 8 bits, low 8 bits zero. *)
Theorem float2Int_yields_wire_samples (x : float) (w : Z) :
  float2Int x = Some w ->
  wire_sample w /\ exists y, - 2 ^ 23 <= y <= 2 ^ 23 - 1 /\ w = y * 2 ^ 8.
Proof.
  intros Hw. rewrite float2Int_unfolded in Hw.
  destruct (int_of_float _) as [t|]; [|discriminate].
  assert (E : w = clamp24 t * 2 ^ 8).
  { rewrite <- Z.shiftl_mul_pow2 by lia. congruence. }
  assert (Hc : - 2 ^ 23 <= clamp24 t <= 2 ^ 23 - 1) by (unfold clamp24; lia).
  split.
  - unfold wire_sample. rewrite E. split; [lia|]. apply Z.mod_mul. lia.
  - exists (clamp24 t). now split.
Qed.

Lemma float2Int_yields_wire_samples_witness :
  wire_sample 1610612992.
Proof.
  apply (float2Int_yields_wire_samples (S754_finite false 12582912 (- 24))).
  vm_compute. reflexivity.
Defined.

(** X7: [int2Float] is odd: negating the integer negates the float, also where
    the conversion rounds. *)
Theorem int2Float_is_odd (n : Z) :
  (n <> 0 -> int2Float (- n) = fneg (int2Float n)) /\
  (SF2Q (int2Float (- n)) == - SF2Q (int2Float n))%Q.
Proof.
  split; [apply int2Float_opp|].
  destruct (Z.eq_dec n 0) as [->|Hn]; [reflexivity|].
  now rewrite int2Float_opp, SF2Q_opp.
Qed.

Lemma int2Float_is_odd_witness :
  int2Float (- 16777217) = fneg (int2Float 16777217).
Proof.
  apply (proj1 (int2Float_is_odd 16777217)). discriminate.
Defined.

(** X6: [int2Float] takes wire-format samples into the nominal range
    [-1, 1). *)
Theorem int2Float_nominal_range (w : Z) :
  wire_sample w ->
  (- 1 <= SF2Q (int2Float w))%Q /\ (SF2Q (int2Float w) < 1)%Q.
Proof.
  intros [Hr Hz].
  assert (Hex : (SF2Q (int2Float w) == inject_Z w * 2 ^ (- 31))%Q).
  { apply Z.mod_divide in Hz; [|lia]. destruct Hz as [v ->].
    apply int2Float_exact; lia. }
  rewrite Hex. change (2 ^ (- 31))%Q with (1 # 2147483648).
  destruct Hr as [Hlo Hhi]. rewrite Zle_Qle in Hlo. rewrite Zlt_Qlt in Hhi.
  change (inject_Z (- 2 ^ 31)) with (- 2147483648 # 1)%Q in Hlo.
  change (inject_Z (2 ^ 31)) with (2147483648 # 1)%Q in Hhi.
  split; lra.
Qed.

Lemma int2Float_nominal_range_witness :
  (- 1 <= SF2Q (int2Float (- 2147483648)))%Q /\
  (SF2Q (int2Float (- 2147483648)) < 1)%Q.
Proof.
  apply int2Float_nominal_range. split; [lia|reflexivity].
Defined.

(** * [float2Int] against the algorithm in exact arithmetic *)

Lemma Qfloor_unique (q : Q) (z : Z) :
  (inject_Z z <= q)%Q -> (q < inject_Z (z + 1))%Q -> Qfloor q = z.
Proof.
  intros Hlo Hhi.
  pose proof (Qfloor_le q) as H1. pose proof (Qlt_floor q) as H2.
  assert (A : Qfloor q < z + 1).
  { rewrite Zlt_Qlt. eapply Qle_lt_trans; eassumption. }
  assert (B : z < Qfloor q + 1).
  { rewrite Zlt_Qlt. eapply Qle_lt_trans; eassumption. }
  lia.
Qed.

Lemma Qfloor_shift (a e : Z) :
  0 <= a -> Qfloor (inject_Z a * 2 ^ e) = Z.shiftl a e.
Proof.
  intros Ha. destruct (Z.le_gt_cases 0 e) as [He|He].
  - rewrite Z.shiftl_mul_pow2 by assumption.
    rewrite <- (inject_Z_pow2 e He), <- inject_Z_mult. apply Qfloor_Z.
  - rewrite Z.shiftl_div_pow2 by lia.
    set (k := - e). assert (Hk : 0 <= k) by (unfold k; lia).
    replace e with (- k) by (unfold k; lia).
    assert (HK : 0 < 2 ^ k) by (apply Z.pow_pos_nonneg; lia).
    pose proof (Z.mul_div_le a (2 ^ k) HK) as H1.
    pose proof (Z.mul_succ_div_gt a (2 ^ k) HK) as H2.
    pose proof (Qpow2_neg_mul k Hk) as Hu. pose proof (Qpow2_pos (- k)) as Hu0.
    rewrite Zle_Qle, inject_Z_mult in H1.
    rewrite Zlt_Qlt, inject_Z_mult in H2.
    unfold Z.succ in H2.
    set (F := inject_Z (a / 2 ^ k)) in *.
    set (F1 := inject_Z (a / 2 ^ k + 1)) in *.
    set (K := inject_Z (2 ^ k)) in *. set (A := inject_Z a) in *.
    set (u := (2 ^ (- k))%Q) in *.
    assert (E : forall G : Q, (G == K * G * u)%Q).
    { intros G. rewrite (Qmult_comm K G), <- Qmult_assoc, (Qmult_comm K), Hu.
      ring. }
    apply Qfloor_unique; fold F F1.
    + rewrite (E F). apply Qmult_le_compat_r; [exact H1|now apply Qlt_le_weak].
    + rewrite (E F1). apply Qmult_lt_compat_r; assumption.
Qed.

Lemma Qtrunc_comp (q q' : Q) : (q == q')%Q -> Qtrunc q = Qtrunc q'.
Proof.
  intros E. unfold Qtrunc.
  rewrite (Qleb_comp 0%Q 0%Q (Qeq_refl 0%Q) q q' E).
  destruct (Qle_bool 0 q'); [now apply Qfloor_comp|now apply Qceiling_comp].
Qed.

Lemma scaled_magnitude_pos (mm : positive) (e : Z) :
  (0 < inject_Z (Zpos mm) * 2 ^ e)%Q.
Proof.
  apply Qmult_lt_0_compat; [|apply Qpow2_pos].
  change 0%Q with (inject_Z 0). rewrite <- Zlt_Qlt. lia.
Qed.

Lemma Qtrunc_scaled (s : bool) (mm : positive) (e : Z) :
  Qtrunc (inject_Z (cond_Zopp s (Zpos mm)) * 2 ^ e)
  = cond_Zopp s (Z.shiftl (Zpos mm) e).
Proof.
  pose proof (scaled_magnitude_pos mm e) as Hpos.
  destruct s; cbn [cond_Zopp].
  - assert (E : (inject_Z (- Zpos mm) * 2 ^ e == - (inject_Z (Zpos mm) * 2 ^ e))%Q).
    { rewrite inject_Z_opp. ring. }
    rewrite (Qtrunc_comp _ _ E). unfold Qtrunc.
    replace (Qle_bool 0 (- (inject_Z (Zpos mm) * 2 ^ e))) with false.
    + unfold Qceiling. rewrite Qopp_involutive, Qfloor_shift by lia. reflexivity.
    + symmetry. apply not_true_is_false. intros Hb. apply Qle_bool_iff in Hb.
      generalize dependent (inject_Z (Zpos mm) * 2 ^ e)%Q. intros v Hv _ Hb. lra.
  - unfold Qtrunc.
    replace (Qle_bool 0 (inject_Z (Zpos mm) * 2 ^ e)) with true.
    + apply Qfloor_shift. lia.
    + symmetry. apply Qle_bool_iff. now apply Qlt_le_weak.
Qed.

Lemma Qtrunc_scaled_plus_one (mm : positive) (e : Z) :
  Qtrunc (inject_Z (Zpos mm) * 2 ^ e + 1) = Z.shiftl (Zpos mm) e + 1.
Proof.
  pose proof (scaled_magnitude_pos mm e) as Hpos.
  pose proof (Qfloor_le (inject_Z (Zpos mm) * 2 ^ e)) as H1.
  pose proof (Qlt_floor (inject_Z (Zpos mm) * 2 ^ e)) as H2.
  rewrite Qfloor_shift in H1, H2 by lia.
  set (F := Z.shiftl (Zpos mm) e) in *.
  unfold Qtrunc.
  replace (Qle_bool 0 (inject_Z (Zpos mm) * 2 ^ e + 1)) with true.
  - apply Qfloor_unique.
    + rewrite inject_Z_plus. change (inject_Z 1) with 1%Q.
      generalize dependent (inject_Z (Zpos mm) * 2 ^ e)%Q. intros v _ Hv _. 
      generalize dependent (inject_Z F). intros f Hf. lra.
    + rewrite inject_Z_plus in H2 |- *. rewrite inject_Z_plus.
      change (inject_Z 1) with 1%Q in *.
      generalize dependent (inject_Z (Zpos mm) * 2 ^ e)%Q. intros v _ _.
      generalize dependent (inject_Z F). intros f Hf. lra.
  - symmetry. apply Qle_bool_iff.
    generalize dependent (inject_Z (Zpos mm) * 2 ^ e)%Q. intros v Hv _ _. lra.
Qed.

(** The exact algorithm on a sample whose scaled value is
    [(-1)^s * mm * 2^ee]. *)
Lemma toWire_exact_normal (q : Q) (s : bool) (mm : positive) (ee : Z) :
  (q * 2 ^ 23 == inject_Z (cond_Zopp s (Zpos mm)) * 2 ^ ee)%Q ->
  Zpos (digits2_pos mm) = 24 ->
  toWire_exact q = Z.shiftl (clamp24 (exact_integer s mm ee)) 8.
Proof.
  intros Hq Hd. unfold toWire_exact, exact_integer. cbv zeta.
  assert (Hb : Qle_bool (1 # 2) (q * 2 ^ 23) = negb s && (- 24 <=? ee)).
  { rewrite Hq. exact (Qle_half_normal s mm ee Hd). }
  rewrite Hb. destruct (negb s && (- 24 <=? ee)) eqn:B.
  - destruct s; [discriminate|]. cbn [cond_Zopp] in Hq.
    assert (E : (q * 2 ^ 23 + 1 == inject_Z (Zpos mm) * 2 ^ ee + 1)%Q)
      by (now rewrite Hq).
    now rewrite (Qtrunc_comp _ _ E), Qtrunc_scaled_plus_one.
  - now rewrite (Qtrunc_comp _ _ Hq), Qtrunc_scaled.
Qed.

(** [float2Int] against the integer of the exact algorithm: the same, or one
    more where the binary32 sum of line 54 rounded up. *)
Lemma float2Int_near_exact (x : float) (s : bool) (mm : positive) (ee : Z) :
  fmul x ScaleFloat2Int = S754_finite s mm ee ->
  Zpos (digits2_pos mm) = 24 -> - 149 <= ee <= 104 ->
  (0 <= ee -> if s then Zpos mm * 2 ^ ee <= 2 ^ 31 else ee <= 7) ->
  float2Int x = Some (Z.shiftl (clamp24 (exact_integer s mm ee)) 8) \/
  (negb s && (- 24 <=? ee) = true /\
   float2Int x = Some (Z.shiftl (clamp24 (exact_integer s mm ee)) 8 + 256)).
Proof.
  intros Hsc Hd He Hdom. unfold exact_integer.
  pose proof (digits2_pos_bounds mm) as Hmm. rewrite Hd in Hmm.
  change (2 ^ (24 - 1)) with 8388608 in Hmm. change (2 ^ 24) with 16777216 in Hmm.
  destruct (Z.le_gt_cases 0 ee) as [Hpos|Hneg].
  - left. specialize (Hdom Hpos).
    rewrite (float2Int_large x s mm ee Hsc Hd) by lia.
    rewrite (Z.shiftl_mul_pow2 (Zpos mm) ee) by assumption.
    assert (Hpe : 1 <= 2 ^ ee).
    { change 1 with (2 ^ 0). apply Z.pow_le_mono_r; lia. }
    destruct s; cbn [negb andb cond_Zopp].
    + replace (Zpos mm * 2 ^ ee <=? 2 ^ 31) with true
        by (symmetry; apply Z.leb_le; exact Hdom).
      rewrite clamp24_below by (change (2 ^ 23) with 8388608; nia).
      reflexivity.
    + replace (ee <=? 7) with true by (symmetry; apply Z.leb_le; exact Hdom).
      replace (- 24 <=? ee) with true by (symmetry; apply Z.leb_le; lia).
      rewrite clamp24_above by (change (2 ^ 23) with 8388608; nia).
      reflexivity.
  - clear Hdom. set (k := - ee). assert (Hk : 1 <= k <= 149) by (unfold k; lia).
    assert (HK : 2 <= 2 ^ k).
    { change 2 with (2 ^ 1) at 1. apply Z.pow_le_mono_r; lia. }
    rewrite (Z.shiftl_div_pow2 (Zpos mm) ee) by lia. fold k.
    rewrite float2Int_unfolded, Hsc, ge_half_normal by (assumption || lia).
    destruct (negb s && (- 24 <=? ee)) eqn:B.
    + destruct s; [discriminate|]. cbn [negb andb] in B. apply Z.leb_le in B.
      replace ee with (- k) by (unfold k; lia).
      destruct (fadd_one_trunc mm k Hd ltac:(unfold k; lia)) as (t & Ht & Hlo & Hhi).
      replace ((Zpos mm + 2 ^ k) / 2 ^ k) with (Zpos mm / 2 ^ k + 1) in Hlo
        by (rewrite <- (Z.mul_1_l (2 ^ k)) at 2; rewrite Z.div_add by lia;
            reflexivity).
      pose proof (Z.mul_div_le (Zpos mm) (2 ^ k) ltac:(lia)) as Hq1.
      pose proof (Z.mul_succ_div_gt (Zpos mm) (2 ^ k) ltac:(lia)) as Hq2.
      set (E := Zpos mm / 2 ^ k + 1) in *.
      assert (HE : 1 <= E <= 8388608) by (unfold E; nia).
      assert (Hcase : t = E \/ t = E + 1) by (unfold E in *; nia).
      assert (Hi : int_of_float (fadd (S754_finite false mm (- k))
                                   (float_of_int 1)) = Some t).
      { apply int_of_float_Some. split; [assumption|lia]. }
      rewrite Hi. destruct Hcase as [->| ->]; [now left|].
      destruct (Z.eq_dec (clamp24 (E + 1)) (clamp24 E)) as [Ec|Ec].
      * left. now rewrite Ec.
      * right. split; [reflexivity|]. f_equal.
        rewrite !Z.shiftl_mul_pow2 by lia. unfold clamp24 in *. lia.
    + left. replace ee with (- k) by (unfold k; lia).
      rewrite int_of_float_finite by lia. reflexivity.
Qed.

(** The samples of [-256, 256), on the exponent of the scaled value. *)
Lemma domain_normal (s : bool) (mm : positive) (ee : Z) :
  Zpos (digits2_pos mm) = 24 ->
  (- 256 <= inject_Z (cond_Zopp s (Zpos mm)) * 2 ^ (ee - 23))%Q ->
  (inject_Z (cond_Zopp s (Zpos mm)) * 2 ^ (ee - 23) < 256)%Q ->
  ee <= 104 /\ (0 <= ee -> if s then Zpos mm * 2 ^ ee <= 2 ^ 31 else ee <= 7).
Proof.
  intros Hd Hlo Hhi. rewrite SF2Q_sign in Hlo, Hhi.
  destruct (normal_magnitude mm ee Hd) as [Hm _].
  pose proof (Qpow2_pos ee) as Hp.
  pose proof (normal_lt_pow2 mm ee 8 Hd) as Hlt8.
  change (2 ^ 8)%Q with 256%Q in Hlt8.
  destruct s.
  - assert (H8 : ee <= 8).
    { apply (Qpower_le_compat_l_inv 2); [|reflexivity].
      change (2 ^ 8)%Q with 256%Q.
      generalize dependent (inject_Z (Zpos mm) * 2 ^ (ee - 23))%Q.
      intros W Hlo _ HW _. lra. }
    split; [lia|]. intros Hpos.
    pose proof (normal_integer mm ee Hpos) as Hint.
    rewrite Zle_Qle. change (inject_Z (2 ^ 31)) with (2147483648 # 1).
    generalize dependent (inject_Z (Zpos mm * 2 ^ ee)).
    generalize dependent (inject_Z (Zpos mm) * 2 ^ (ee - 23))%Q.
    intros W Hlo _ _ _ I HI. lra.
  - apply Hlt8 in Hhi. split; [lia|]. intros _. lia.
Qed.

(** A defined result of [float2Int] is the truncated, clamped and shifted
    value of [toWire_rounded]. *)
Lemma float2Int_through_rounded (x : float) (w : Z) :
  is_float x = true -> float2Int x = Some w ->
  (exists t, Ztrunc (toWire_rounded x) = Some t /\
             float2Int x = Some (Z.shiftl (clamp24 t) 8)) /\
  float2Int x = toWire_spec x.
Proof.
  intros Hx Hw. rewrite float2Int_unfolded, rounded_agrees in Hw |- * by assumption.
  destruct (int_of_float (toWire_rounded x)) as [t|] eqn:Ht; [|discriminate].
  apply int_of_float_Some in Ht as [Ht _]. unfold toWire_spec. rewrite Ht.
  split; [exists t; now split|reflexivity].
Qed.

(** C1, as the code has it: on every finite binary32 sample [x] with
    [-256 <= x < 256], [float2Int] returns what the stated algorithm returns
    when its sum is formed in binary32: the sample is scaled by 2^23
    (exactly), 1 is added (a binary32 sum, rounded to nearest, ties to even)
    when the scaled value is at least 0.5, the result is truncated toward
    zero, clamped into [-2^23, 2^23 - 1] and shifted left by 8 bits. That
    result is the one of the algorithm in exact arithmetic or one
    quantization step (256) above it, and is the exact one for every sample
    whose scaled value is below 0.5. No output exceeds (2^23 - 1) << 8, and
    -2.0 is sent to (-2^23) << 8 (2.0 to the largest output). *)
Theorem float2Int_follows_the_algorithm_in_binary32 :
  (forall x : float,
      is_float x = true -> is_finite x = true ->
      (- 256 <= SF2Q x)%Q -> (SF2Q x < 256)%Q ->
      (SF2Q (toWire_scaled x) == SF2Q x * 2 ^ 23)%Q /\
      (exists t, Ztrunc (toWire_rounded x) = Some t /\
                 float2Int x = Some (Z.shiftl (clamp24 t) 8)) /\
      float2Int x = toWire_spec x /\
      (float2Int x = Some (toWire_exact (SF2Q x)) \/
       float2Int x = Some (toWire_exact (SF2Q x) + 256)) /\
      ((SF2Q x < 2 ^ (- 24))%Q -> float2Int x = Some (toWire_exact (SF2Q x)))) /\
  (forall (x : float) (w : Z),
      float2Int x = Some w ->
      - 2 ^ 31 <= w <= Z.shiftl (2 ^ 23 - 1) 8) /\
  float2Int (S754_finite true 8388608 (- 22)) = Some (Z.shiftl (- 2 ^ 23) 8) /\
  float2Int (S754_finite false 8388608 (- 22)) = Some (Z.shiftl (2 ^ 23 - 1) 8).
Proof.
  split; [|split; [|split]].
  - intros x Hx Hfin Hlo Hhi.
    destruct x as [s|s| |s m e]; try discriminate.
    + split; [destruct s; reflexivity|].
      split; [exists 0; destruct s; split; reflexivity|].
      split; [destruct s; reflexivity|].
      split; [left; destruct s; reflexivity|].
      intros _. destruct s; reflexivity.
    + assert (Hb : bounded prec emax m e = true) by exact Hx.
      destruct (scaled_normal_form s m e Hb) as (mm & ee & Hd & He & Hval & Hsc).
      rewrite Hval in Hlo, Hhi.
      destruct (domain_normal s mm ee Hd Hlo Hhi) as [H104 Hdom].
      replace (ee <=? 104) with true in Hsc by (symmetry; apply Z.leb_le; lia).
      assert (Hq : (SF2Q (S754_finite s m e) * 2 ^ 23
                    == inject_Z (cond_Zopp s (Zpos mm)) * 2 ^ ee)%Q).
      { rewrite Hval, <- Qmult_assoc, <- Qpow2_add.
        now replace (ee - 23 + 23) with ee by lia. }
      pose proof (toWire_exact_normal _ s mm ee Hq Hd) as Hexact.
      pose proof (float2Int_near_exact _ s mm ee Hsc Hd ltac:(lia) Hdom) as Hnear.
      rewrite <- Hexact in Hnear.
      assert (Hdef : exists w, float2Int (S754_finite s m e) = Some w).
      { destruct Hnear as [E|[_ E]]; eexists; exact E. }
      destruct Hdef as [w Hw].
      destruct (float2Int_through_rounded _ w Hx Hw) as [Ht Hspec].
      split; [unfold toWire_scaled; rewrite Hsc; symmetry; exact Hq|].
      split; [exact Ht|]. split; [exact Hspec|].
      split; [destruct Hnear as [E|[_ E]]; [now left|now right]|].
      intros Hsmall. destruct Hnear as [E|[B _]]; [exact E|exfalso].
      destruct s; [discriminate B|]. cbn [negb andb] in B. apply Z.leb_le in B.
      rewrite Hval in Hsmall. cbn [cond_Zopp] in Hsmall.
      apply (normal_lt_pow2 mm ee (- 24) Hd) in Hsmall. lia.
  - intros x w Hw. rewrite float2Int_unfolded in Hw.
    destruct (int_of_float _) as [y|]; [|discriminate].
    assert (Hwy : w = Z.shiftl (clamp24 y) 8) by congruence.
    rewrite Hwy, !Z.shiftl_mul_pow2 by lia.
    unfold clamp24. lia.
  - vm_compute. reflexivity.
  - vm_compute. reflexivity.
Qed.

Lemma float2Int_follows_the_algorithm_in_binary32_witness :
  float2Int (S754_finite false 12582912 (- 24)) = Some 1610612992 /\
  toWire_exact (3 # 4) = 1610612992.
Proof.
  destruct float2Int_follows_the_algorithm_in_binary32 as (Halg & _).
  destruct (Halg (S754_finite false 12582912 (- 24)))
    as (_ & (t & Ht & Hw) & _).
  - reflexivity.
  - reflexivity.
  - vm_compute. intros H. discriminate H.
  - vm_compute. reflexivity.
  - split; [|vm_compute; reflexivity].
    rewrite Hw. vm_compute in Ht. injection Ht as <-. reflexivity.
Defined.

(** C1 as stated fails twice. At [x = 256.0] the scaled value is 2^31 and
    the sum 2^31 + 1 is 2^31 in binary32, which line 54 converts to
    [int32_t] before line 55 clamps, although it does not fit: [float2Int]
    has no defined result where the stated algorithm gives the largest
    output. At [x = 0.5 - 2^-25] the stated algorithm truncates
    [2^22 + 0.75] to 2^22, while the binary32 sum is the tie that rounds to
    [2^22 + 1]. *)
Lemma float2Int_departs_from_the_exact_algorithm :
  is_float two_to_the_8 = true /\ is_finite two_to_the_8 = true /\
  float2Int two_to_the_8 = None /\
  toWire_exact (SF2Q two_to_the_8) = Z.shiftl (2 ^ 23 - 1) 8 /\
  is_float below_half = true /\ is_finite below_half = true /\
  float2Int below_half = Some 1073742080 /\
  toWire_exact (SF2Q below_half) = 1073741824 /\
  ~ (forall x : float,
        is_float x = true -> is_finite x = true ->
        float2Int x = Some (toWire_exact (SF2Q x))).
Proof.
  repeat (split; [vm_compute; reflexivity|]).
  intros H. specialize (H two_to_the_8 eq_refl eq_refl).
  vm_compute in H. discriminate H.
Qed.

(** * The running phase of the block transport *)

Section DriverInvariants.
Context {P : Type} `{Platform P}.



Lemma setup_state (a : setup_args) (w : World P) r w1 :
  setup_with a w = Some (r, w1) ->
  w1 = snd (setup_outcome a w) /\ r = fst (setup_outcome a w).
Proof.
  intros Hset. rewrite setup_runs in Hset.
  assert (E : setup_outcome a w = (r, w1)) by congruence.
  rewrite E. split; reflexivity.
Qed.


Lemma perform_Configured (r : request) (w : World P) :
  is_setup r = false -> Configured w ->
  exists w',
    perform r w = Some (tt, w') /\ Configured w' /\ this w' = this w /\
    length (heap w') = length (heap w).
Proof.
  intros Hr Hc. destruct r as [a|b| |]; [discriminate| | |];
    unfold perform, bind, ret.
  - rewrite enable_runs. eexists. split; [reflexivity|].
    split; [exact Hc|]. split; reflexivity.
  - destruct (Configured_readBlock_runs w Hc) as (x & w1 & Hrd). rewrite Hrd.
    exists w1. split; [reflexivity|].
    split; [exact (Configured_after_readBlock _ _ _ Hc Hrd)|].
    destruct (readBlock_frame _ _ _ Hrd) as (Ht & _ & _ & Hl & _). now split.
  - destruct (Configured_writeBlock_runs w Hc) as (x & w1 & Hwr). rewrite Hwr.
    exists w1. split; [reflexivity|].
    split; [exact (Configured_after_writeBlock _ _ _ Hc Hwr)|].
    destruct (writeBlock_frame _ _ _ Hwr) as (Ht & Hh & _).
    split; [exact Ht|now rewrite Hh].
Qed.

(** X9: the Configured state is an invariant of the running phase: from it every
    sequence of [enable], [readBlock] and [writeBlock] calls is defined (no
    transfer is handed a null, dangling or short buffer), ends in the
    Configured state, and leaves the data members and the number of
    allocated blocks as they were. *)
Theorem Configured_is_invariant (rs : list request) (w : World P) :
  Configured w -> no_setup rs = true ->
  exists w',
    perform_all rs w = Some (tt, w') /\ Configured w' /\ this w' = this w /\
    length (heap w') = length (heap w).
Proof.
  revert w. induction rs as [|r rs IH]; intros w Hc Hrs.
  - exists w. split; [reflexivity|]. split; [exact Hc|]. split; reflexivity.
  - cbn [no_setup forallb] in Hrs. apply andb_true_iff in Hrs as [Hr Hrs].
    apply negb_true_iff in Hr.
    destruct (perform_Configured r w Hr Hc) as (w1 & Hone & Hc1 & Ht1 & Hl1).
    destruct (IH w1 Hc1 Hrs) as (w2 & Hall & Hc2 & Ht2 & Hl2).
    exists w2. cbn [perform_all]. unfold bind. rewrite Hone.
    split; [exact Hall|]. split; [exact Hc2|]. split; congruence.
Qed.



(** X11: [setup] never releases or reuses a block: the blocks allocated before
    the call are all still allocated, unchanged, after it, and the buffers
    it stores are blocks allocated by this very call. The buffers of an
    earlier [setup] are therefore left allocated and unreferenced. *)
Theorem setup_keeps_earlier_blocks (a : setup_args) (w : World P) r w' :
  setup_with a w = Some (r, w') ->
  exists fresh,
    heap w' = heap w ++ fresh /\ (length fresh <= 2)%nat /\
    forall b,
      i2sReadBuffer (this w') = Some b \/ i2sWriteBuffer (this w') = Some b ->
      (length (heap w) <= b < length (heap w'))%nat.
Proof.
  intros Hset. destruct (setup_state _ _ _ _ Hset) as [Hw1 _]. rewrite Hw1.
  unfold setup_outcome. cbn [snd this heap i2sReadBuffer i2sWriteBuffer].
  destruct (_ && calloc_succeeds _ _ (heap w) _).
  - destruct (_ && calloc_succeeds _ _ _ _).
    + eexists. rewrite <- app_assoc. split; [reflexivity|].
      split; [cbn; lia|]. intros b [E|E]; injection E as <-;
        rewrite !length_app; cbn [length]; lia.
    + eexists. split; [reflexivity|].
      split; [cbn; lia|]. intros b [E|E]; [|discriminate]. injection E as <-.
      rewrite !length_app; cbn [length]; lia.
  - destruct (_ && calloc_succeeds _ _ _ _).
    + eexists. split; [reflexivity|].
      split; [cbn; lia|]. intros b [E|E]; [discriminate|]. injection E as <-.
      rewrite !length_app; cbn [length]; lia.
    + exists []. rewrite app_nil_r. split; [reflexivity|].
      split; [cbn; lia|]. intros b [E|E]; discriminate.
Qed.

(** X12: the status [setup] returns says nothing about its buffers. When the
    block is too long for [calloc] (2^30 words or more, as with a negative
    channel count) or the allocator has no room, [setup] still returns the
    sum of the four driver statuses and stores two null pointers; a
    [readBlock] or [writeBlock] after it hands the null pointer to the
    driver with a request that is not empty. *)
Theorem failed_allocation_goes_unreported (a : setup_args) (w : World P) :
  let n := uwrap32 (mul32 (arg_channelCount a) BufferSize) in
  2 ^ 30 <= n \/
  (forall h, calloc_succeeds n 4 h (snd (dma_zero_step a w)) = false) ->
  exists w',
    setup_with a w
    = Some (wrap32 (fst (install_step a w) + fst (pin_bind_step a w) +
                    fst (rate_set_step a w) + fst (dma_zero_step a w)), w') /\
    i2sReadBuffer (this w') = None /\ i2sWriteBuffer (this w') = None /\
    heap w' = heap w /\
    (umul32 (mul32 (arg_channelCount a) BufferSize) sizeof_int32_t <> 0 ->
     readBlock w' = None /\ writeBlock w' = None).
Proof.
  intros n Hfail. rewrite setup_runs. unfold setup_outcome. fold n.
  change (uwrap32 sizeof_int32_t) with 4.
  assert (Hno : forall h,
             (n * 4 <? 2 ^ 32) && calloc_succeeds n 4 h (snd (dma_zero_step a w))
             = false).
  { intros h. destruct Hfail as [Hbig|Hroom].
    - replace (n * 4 <? 2 ^ 32) with false; [reflexivity|].
      symmetry. apply Z.ltb_ge. lia.
    - rewrite Hroom. apply andb_false_r. }
  rewrite !Hno, add32_chain. eexists. split; [reflexivity|].
  cbn [this heap i2sReadBuffer i2sWriteBuffer].
  split; [reflexivity|]. split; [reflexivity|]. split; [reflexivity|].
  intros Hsize. split.
  - unfold readBlock, bind, get_this, read_into, block_for.
    cbn [this i2sReadBuffer i2sBufferSize].
    apply Z.eqb_neq in Hsize. now rewrite Hsize.
  - unfold writeBlock, bind, get_this, write_from, block_for.
    cbn [this i2sWriteBuffer channelCount].
    apply Z.eqb_neq in Hsize. now rewrite Hsize.
Qed.

End DriverInvariants.


Lemma Configured_is_invariant_witness :
  exists w',
    @perform_all unit (scripted short_read)
                 [call_readBlock; call_enable true; call_writeBlock;
                  call_readBlock] stereo_48k_configured = Some (tt, w') /\
    this w' = this stereo_48k_configured.
Proof.
  destruct (@Configured_is_invariant unit (scripted short_read)
              [call_readBlock; call_enable true; call_writeBlock; call_readBlock]
              stereo_48k_configured (stereo_48k_is_configured short_read)
              eq_refl)
    as (w' & Hrun & _ & Ht & _).
  exists w'. split; [exact Hrun|exact Ht].
Defined.


Lemma setup_keeps_earlier_blocks_witness :
  exists r w' fresh,
    @setup_with unit (scripted (all_well 512)) mono_44k1 stereo_48k_configured
    = Some (r, w') /\
    heap w' = heap stereo_48k_configured ++ fresh /\
    i2sReadBuffer (this w') = Some 2%nat /\
    i2sWriteBuffer (this w') = Some 3%nat.
Proof.
  destruct (@setup_with unit (scripted (all_well 512)) mono_44k1
              stereo_48k_configured) as [[r w']|] eqn:Hs;
    [|vm_compute in Hs; discriminate Hs].
  destruct (@setup_keeps_earlier_blocks unit (scripted (all_well 512))
              mono_44k1 stereo_48k_configured r w' Hs)
    as (fresh & Hh & _ & _).
  exists r, w', fresh. split; [reflexivity|]. split; [exact Hh|].
  vm_compute in Hs. injection Hs as _ <-. split; reflexivity.
Defined.

Lemma failed_allocation_goes_unreported_witness :
  exists w',
    @setup_with unit (scripted out_of_memory) (stereo_48k 0) power_on
    = Some (0, w') /\
    i2sReadBuffer (this w') = None /\ i2sWriteBuffer (this w') = None /\
    @readBlock unit (scripted out_of_memory) w' = None /\
    @writeBlock unit (scripted out_of_memory) w' = None.
Proof.
  destruct (@failed_allocation_goes_unreported unit (scripted out_of_memory)
              (stereo_48k 0) power_on)
    as (w' & Hrun & Hrb & Hwb & _ & Hnull).
  - right. intros h. reflexivity.
  - exists w'. split; [exact Hrun|]. split; [exact Hrb|]. split; [exact Hwb|].
    apply Hnull. vm_compute. discriminate.
Defined.
